(** * The workflow execution engine of [backend/workflow_runner.py]

    A shallow embedding of the [WorkflowRunner] class: the ordering of a
    node/edge graph (Kahn's algorithm), the per-node handlers, and the
    run loop of [execute_workflow], followed by the properties proved
    about them. *)

From Stdlib Require Import Ascii.
From stdpp Require Import gmap strings list pretty relations.

Set Warnings "-register-all,-clear-no-such-hyp".

(** ** Python-side data *)

(** Exceptions the engine raises itself, or receives from the runtime
    and from its collaborators ([ExternalError]).  [FuelExhausted] is no
    Python exception: it stands for a call that does not return, the
    loop of [kahn_loop] not ending within its fuel, which
    [kahn_loop_fuel] rules out, and [asyncio.sleep] on a wait without
    end. *)
Inductive Exception :=
| ValueError (msg : string)
| KeyError (key : string)
| IndexError (msg : string)
| AttributeError (msg : string)
| TypeError (msg : string)
| FileNotFoundError (path : string)
| OverflowError (msg : string)
| ExternalError (msg : string)
| FuelExhausted.

(** The outcome of a call: a returned value or a raised exception. *)
Inductive result (A : Type) :=
| Ok (a : A)
| Raise (e : Exception).
Arguments Ok {A} a.
Arguments Raise {A} e.

(** Values that travel between nodes: the JSON-like Python objects.  A
    float is represented by its [repr], the shortest decimal text that
    reads back as the same float ([1.5], [1e+22], [-0.0], [inf], [nan]),
    which determines it; a string is a sequence of characters with code
    points below 256. *)
Inductive Value :=
| VNone
| VBool (b : bool)
| VInt (z : Z)
| VFloat (repr : string)
| VStr (s : string)
| VList (items : list Value)
| VDict (entries : list (string * Value)).

Abbreviation dict := (list (string * Value)).

(** A node dictionary (schemas.Node): [node['id']], [node['type']],
    [node.get('data', {}).get('config', {})] and
    [node.get('data', {}).get('pluginId')] ([VNone] when absent). *)
Record Node := mkNode {
  node_id : string;
  node_type : string;
  node_config : dict;
  plugin_id : Value
}.

(** An edge dictionary, [{'id', 'source', 'target'}] (schemas.Edge). *)
Record Edge := mkEdge {
  edge_id : string;
  source : string;
  target : string
}.

Global Instance Edge_eq_dec : EqDecision Edge.
Proof. solve_decision. Defined.

(** A log entry; the timestamp of [datetime.now()] is left out. *)
Record LogEntry := mkLog {
  level : string;
  message : string
}.

(** ** Insertion-ordered dictionaries

    A Python [dict] iterates in insertion order, and assigning to a key
    that is already present keeps its position. *)
Section odict.
Context {V : Type}.

Fixpoint od_get (k : string) (d : list (string * V)) : option V :=
  match d with
  | [] => None
  | (k', v) :: d' => if decide (k' = k) then Some v else od_get k d'
  end.

Fixpoint od_set (k : string) (v : V) (d : list (string * V)) : list (string * V) :=
  match d with
  | [] => [(k, v)]
  | (k', v') :: d' =>
      if decide (k' = k) then (k, v) :: d' else (k', v') :: od_set k v d'
  end.

End odict.

(** ** [build_execution_graph] *)

(** [for node in nodes: graph[node_id] = []; in_degree[node_id] = 0] *)
Definition init_graph (nodes : list Node)
  : gmap string (list string) * list (string * Z) :=
  foldl (λ '(graph, in_degree) node,
           (<[node_id node := []]> graph, od_set (node_id node) 0%Z in_degree))
        (∅, []) nodes.

(** [for edge in edges: if source in graph: graph[source].append(target);
    in_degree[target] += 1].  The increment raises [KeyError] when the
    target is not a key. *)
Fixpoint add_edges (edges : list Edge)
    (graph : gmap string (list string)) (in_degree : list (string * Z))
  : result (gmap string (list string) * list (string * Z)) :=
  match edges with
  | [] => Ok (graph, in_degree)
  | edge :: edges' =>
      match graph !! source edge with
      | Some targets =>
          let graph' := <[source edge := targets ++ [target edge]]> graph in
          match od_get (target edge) in_degree with
          | Some d =>
              add_edges edges' graph' (od_set (target edge) (d + 1)%Z in_degree)
          | None => Raise (KeyError (target edge))
          end
      | None => add_edges edges' graph in_degree
      end
  end.

(** [for neighbor in graph[current]: in_degree[neighbor] -= 1;
    if in_degree[neighbor] == 0: queue.append(neighbor)] *)
Fixpoint visit_neighbors (neighbors : list string)
    (in_degree : list (string * Z)) (queue : list string)
  : result (list (string * Z) * list string) :=
  match neighbors with
  | [] => Ok (in_degree, queue)
  | neighbor :: neighbors' =>
      match od_get neighbor in_degree with
      | Some d =>
          let in_degree' := od_set neighbor (d - 1)%Z in_degree in
          let queue' :=
            if decide ((d - 1)%Z = 0%Z) then queue ++ [neighbor] else queue in
          visit_neighbors neighbors' in_degree' queue'
      | None => Raise (KeyError neighbor)
      end
  end.

(** [while queue: current = queue.pop(0); execution_order.append(current); ...]
    The loop is not structural, so it runs on fuel; [None] means the
    fuel ran out before the queue emptied. *)
Fixpoint kahn_loop (fuel : nat) (graph : gmap string (list string))
    (in_degree : list (string * Z)) (queue execution_order : list string)
  : option (result (list string)) :=
  match queue with
  | [] => Some (Ok execution_order)
  | current :: queue' =>
      match fuel with
      | O => None
      | S fuel' =>
          match graph !! current with
          | None => Some (Raise (KeyError current))
          | Some neighbors =>
              match visit_neighbors neighbors in_degree queue' with
              | Raise e => Some (Raise e)
              | Ok (in_degree', queue'') =>
                  kahn_loop fuel' graph in_degree' queue''
                            (execution_order ++ [current])
              end
          end
      end
  end.

(** The number of keys whose in-degree is positive: together with the
    queue length it bounds the iterations of the loop. *)
Definition positive_count (in_degree : list (string * Z)) : nat :=
  length (filter (λ kv, (0 < kv.2)%Z) in_degree).

Definition cycle_message : string :=
  "Workflow contains cycles and cannot be executed".

(** The whole method.  The fuel given to the loop is the bound that
    [kahn_loop_fuel] proves sufficient. *)
Definition build_execution_graph (nodes : list Node) (edges : list Edge)
  : result (list string) :=
  let '(graph, in_degree) := init_graph nodes in
  match add_edges edges graph in_degree with
  | Raise e => Raise e
  | Ok (graph, in_degree) =>
      let queue := (filter (λ kv, kv.2 = 0%Z) in_degree).*1 in
      match kahn_loop (length queue + positive_count in_degree)
                      graph in_degree queue [] with
      | None => Raise FuelExhausted
      | Some (Raise e) => Raise e
      | Some (Ok execution_order) =>
          if decide (length execution_order ≠ length nodes)
          then Raise (ValueError cycle_message)
          else Ok execution_order
      end
  end.

(** ** Reference notions for the ordering

    What the statements below say about a node list and an edge list,
    independently of how [build_execution_graph] computes. *)

(** The ids of a node list in order of first appearance, skipping the
    ids in [seen]. *)
Fixpoint first_occurrences (seen ids : list string) : list string :=
  match ids with
  | [] => []
  | x :: ids' =>
      if decide (x ∈ seen) then first_occurrences seen ids'
      else x :: first_occurrences (seen ++ [x]) ids'
  end.

(** The targets of the edges leaving [s], in edge-list order. *)
Definition successors (edges : list Edge) (s : string) : list string :=
  target <$> filter (λ e, source e = s) edges.

(** The number of edges into [t] whose source is one of [K]. *)
Definition in_count (K : list string) (edges : list Edge) (t : string) : nat :=
  length (filter (λ e, target e = t ∧ source e ∈ K) edges).

(** [edge_rel edges s t]: some edge goes from [s] to [t]. *)
Definition edge_rel (edges : list Edge) (s t : string) : Prop :=
  ∃ e, e ∈ edges ∧ source e = s ∧ target e = t.

(** No directed cycle: no node reaches itself along one or more edges. *)
Definition acyclic (edges : list Edge) : Prop :=
  ∀ v, ¬ tc (edge_rel edges) v v.

(** [before order s t]: [s] occurs in [order] strictly before [t]. *)
Definition before (order : list string) (s t : string) : Prop :=
  ∃ i j, i < j ∧ order !! i = Some s ∧ order !! j = Some t.

(** The loop invariant of Kahn's algorithm.  [remaining] counts the
    edges into [n] whose source is a key that is not yet in the order,
    [occ] the occurrences of [n] in a list of neighbours still to visit. *)
Definition remaining (edges : list Edge) (K O : list string) (n : string) : nat :=
  length (filter (λ e, target e = n ∧ source e ∈ K ∧ source e ∉ O) edges).

Definition occ (n : string) (l : list string) : nat :=
  length (filter (λ x, x = n) l).

Definition topo_closed (edges : list Edge) (K O : list string) : Prop :=
  ∀ e, e ∈ edges → source e ∈ K → target e ∈ O → before O (source e) (target e).

Record kahn_inv (edges : list Edge) (K : list string)
    (in_degree : list (string * Z)) (queue order todo : list string) : Prop := {
  inv_degree : ∀ n, n ∈ K →
    od_get n in_degree = Some (Z.of_nat (remaining edges K order n + occ n todo));
  inv_nodup : NoDup (order ++ queue);
  inv_keys : ∀ x, x ∈ order ++ queue → x ∈ K;
  inv_ready : ∀ n, n ∈ K →
    n ∈ order ++ queue ↔ remaining edges K order n + occ n todo = 0;
  inv_todo : ∀ x, x ∈ todo → x ∈ K;
  inv_sorted : topo_closed edges K order
}.

(** ** The Python runtime *)

(** What the code asks of a float, read off its [repr]: whether it is
    zero (of either sign), whether its sign is minus (no [repr] of a nan
    has one), and whether it is finite. *)
Definition float_is_zero (repr : string) : bool :=
  bool_decide (repr = "0.0") || bool_decide (repr = "-0.0").

Definition float_negative (repr : string) : bool :=
  match repr with
  | String c _ => bool_decide (c = "-"%char)
  | EmptyString => false
  end.

Definition float_finite (repr : string) : bool :=
  negb (bool_decide (repr = "inf") || bool_decide (repr = "-inf")
        || bool_decide (repr = "nan")).

(** The first integer that [float(...)] does not convert: it would
    round to [2 ** 1024]. *)
Definition float_overflow : Z := 2 ^ 1024 - 2 ^ 970.

Definition truthy (v : Value) : bool :=
  match v with
  | VNone => false
  | VBool b => b
  | VInt z => negb (z =? 0)%Z
  | VFloat repr => negb (float_is_zero repr)
  | VStr s => match s with EmptyString => false | _ => true end
  | VList items => match items with [] => false | _ => true end
  | VDict entries => match entries with [] => false | _ => true end
  end.

Definition type_name (v : Value) : string :=
  match v with
  | VNone => "NoneType"
  | VBool _ => "bool"
  | VInt _ => "int"
  | VFloat _ => "float"
  | VStr _ => "str"
  | VList _ => "list"
  | VDict _ => "dict"
  end.

(** [v == 'literal'] for a string literal. *)
Definition is_str (v : Value) (s : string) : bool :=
  match v with
  | VStr s' => bool_decide (s' = s)
  | _ => false
  end.

(** [repr] of a [str]: the text sits between single quotes, or between
    double quotes when it holds a single quote and no double quote; the
    quote in use and the backslash are escaped, tab, newline and
    carriage return are written as backslash t, n, r, and the other
    characters that are not printable as backslash x and two hex
    digits. *)
Definition double_quote : ascii := ascii_of_N 34.
Definition single_quote : ascii := ascii_of_N 39.
Definition hex_digit (n : N) : ascii :=
  ascii_of_N (if (n <? 10)%N then 48 + n else 87 + n).

Definition printable (n : N) : bool :=
  ((32 <=? n) && (n <? 127) || (161 <=? n) && negb (n =? 173))%N.

Definition repr_char (quote : ascii) (c : ascii) : string :=
  let n := N_of_ascii c in
  if bool_decide (c = quote) || bool_decide (c = "\"%char)
  then String "\" (String c "")
  else if (n =? 9)%N then "\t"
  else if (n =? 10)%N then "\n"
  else if (n =? 13)%N then "\r"
  else if printable n then String c ""
  else String "\" (String "x" (String (hex_digit (n / 16)) (String (hex_digit (n mod 16)) ""))).

Fixpoint has_char (c : ascii) (s : string) : bool :=
  match s with
  | EmptyString => false
  | String c' s' => bool_decide (c' = c) || has_char c s'
  end.

Fixpoint repr_chars (quote : ascii) (s : string) : string :=
  match s with
  | EmptyString => ""
  | String c s' => repr_char quote c +:+ repr_chars quote s'
  end.

Definition repr_str (s : string) : string :=
  let quote : ascii :=
    if has_char single_quote s && negb (has_char double_quote s)
    then double_quote else single_quote in
  String quote (repr_chars quote s) +:+ String quote "".

(** [repr(v)] and [str(v)]. *)
Fixpoint py_repr (v : Value) : string :=
  match v with
  | VNone => "None"
  | VBool b => if b then "True" else "False"
  | VInt z => pretty z
  | VFloat repr => repr
  | VStr s => repr_str s
  | VList items => "[" +:+ String.concat ", " (map py_repr items) +:+ "]"
  | VDict entries =>
      "{" +:+ String.concat ", "
                (map (λ kv, match kv with
                            | (k, x) => repr_str k +:+ ": " +:+ py_repr x
                            end) entries) +:+ "}"
  end.

Definition py_str (v : Value) : string :=
  match v with
  | VStr s => s
  | _ => py_repr v
  end.

(** [str(e)] for an exception. *)
Definition exc_str (e : Exception) : string :=
  match e with
  | ValueError msg | IndexError msg | AttributeError msg | TypeError msg
  | OverflowError msg | ExternalError msg => msg
  | KeyError key => repr_str key
  | FileNotFoundError path =>
      "[Errno 2] No such file or directory: " +:+ repr_str path
  | FuelExhausted => ""
  end.

Global Instance result_ret : MRet result := λ A a, Ok a.
Global Instance result_bind : MBind result := λ A B f m,
  match m with
  | Ok a => f a
  | Raise e => Raise e
  end.

(** [d.get(k, default)] on an arbitrary object: only a dict has [get]. *)
Definition py_get (d : Value) (k : string) (default : Value) : result Value :=
  match d with
  | VDict entries => Ok (from_option id default (od_get k entries))
  | _ => Raise (AttributeError
                  ("'" +:+ type_name d +:+ "' object has no attribute 'get'"))
  end.

(** [d.get(key, default)] on a dict whose keys are strings, with an
    arbitrary object as the key: a list or a dict is not hashable. *)
Definition dict_get (d : dict) (key default : Value) : result Value :=
  match key with
  | VStr k => Ok (from_option id default (od_get k d))
  | VList _ | VDict _ =>
      Raise (TypeError ("unhashable type: '" +:+ type_name key +:+ "'"))
  | _ => Ok default
  end.

(** [inputs.update(other)] *)
Definition od_update {V} (inputs other : list (string * V)) : list (string * V) :=
  foldl (λ d kv, od_set kv.1 kv.2 d) inputs other.

(** The answer of the HTTP client, as far as [execute_http_request]
    reads it. *)
Record Response := mkResponse {
  status_code : Z;
  response_headers : dict;
  response_text : string;
  content_type : string;
  response_json : result Value
}.

(** What the engine takes from outside: the builtins that are not
    modelled here, and the collaborators (plugin manager, HTTP client,
    file system, SQLite, the event-loop clock), each acting on a world
    [W]. *)
Class Runtime (W : Type) := {
  str_upper : string → string;
  str_lower : string → string;
  json_dumps : Value → result string;
  Float : Type;
  py_float : Value → result Float;
  float_lt : Float → Float → bool;
  execute_plugin : Value → dict → dict → W → result Value * W;
  http_send : string → Value → Value → option Value → W → result Response * W;
  fs_read : Value → W → result string * W;
  fs_write : Value → Value → W → result () * W;
  fs_append : Value → Value → W → result () * W;
  fs_exists : Value → W → result bool * W;
  db_open : Value → W → result () * W;
  db_query : Value → Value → W → result (list Value) * W;
  db_execute : Value → Value → W → result Z * W;
  db_close : W → W;
  advance : Z → W → W;
  advance_float : string → W → W
}.

(** ** The runner and its methods *)

(** [self.logs], [self.node_outputs] and the world outside.
    ([self.execution_order] is never assigned after construction.) *)
Record State (W : Type) := mkState {
  logs : list LogEntry;
  node_outputs : gmap string dict;
  world : W
}.
Arguments mkState {W} _ _ _.
Arguments logs {W} _.
Arguments node_outputs {W} _.
Arguments world {W} _.

(** A method: it may change the state, and returns or raises. *)
Definition M (W A : Type) : Type := State W → result A * State W.

Global Instance M_ret {W} : MRet (M W) := λ A a st, (Ok a, st).
Global Instance M_bind {W} : MBind (M W) := λ A B f m st,
  match m st with
  | (Ok a, st') => f a st'
  | (Raise e, st') => (Raise e, st')
  end.

Definition raise {W A} (e : Exception) : M W A := λ st, (Raise e, st).

Definition lift_result {W A} (r : result A) : M W A := λ st, (r, st).

Definition lift_world {W A} (f : W → result A * W) : M W A := λ st,
  let '(r, w) := f (world st) in
  (r, mkState (logs st) (node_outputs st) w).

(** [try: m except Exception as e: handler(e); raise] *)
Definition reraising {W A} (m : M W A) (handler : Exception → M W ()) : M W A :=
  λ st,
    match m st with
    | (Ok a, st') => (Ok a, st')
    | (Raise e, st') => (Raise e, (handler e st').2)
    end.

(** [self.log(message, level)] *)
Definition log {W} (message : string) (level : string) : M W () := λ st,
  (Ok (), mkState (logs st ++ [mkLog level message]) (node_outputs st) (world st)).

Section engine.
Context {W : Type} `{!Runtime W}.

(** [config.get(key, default)] inside a method. *)
Definition get (config : Value) (key : string) (default : Value) : M W Value :=
  lift_result (py_get config key default).

Definition execute_http_request (config : Value) : M W Value :=
  method_value ← get config "method" (VStr "GET");
  method ← match method_value with
            | VStr s => mret (str_upper s)
            | _ => raise (AttributeError
                     ("'" +:+ type_name method_value
                          +:+ "' object has no attribute 'upper'"))
            end;
  url ← get config "url" (VStr "");
  headers ← get config "headers" (VDict []);
  body ← get config "body" (VStr "");
  if negb (truthy url) then raise (ValueError "URL is required for HTTP request")
  else
    log ("Making " +:+ method +:+ " request to " +:+ py_str url) "INFO";;
    response ←
      (if bool_decide (method = "GET") then
         lift_world (http_send "GET" url headers None)
       else if bool_decide (method = "POST") then
         lift_world (http_send "POST" url headers (Some body))
       else if bool_decide (method = "PUT") then
         lift_world (http_send "PUT" url headers (Some body))
       else if bool_decide (method = "DELETE") then
         lift_world (http_send "DELETE" url headers None)
       else raise (ValueError ("Unsupported HTTP method: " +:+ method)));
    json ← (if String.prefix "application/json" (content_type response)
            then lift_result (response_json response)
            else mret VNone);
    let result := VDict [("status_code", VInt (status_code response));
                         ("headers", VDict (response_headers response));
                         ("body", VStr (response_text response));
                         ("json", json)] in
    log ("HTTP request completed with status "
           +:+ pretty (status_code response)) "INFO";;
    mret result.

Definition execute_transform (input_data : dict) (config : Value) : M W Value :=
  transform_type ← get config "transformType" (VStr "uppercase");
  input_key ← get config "inputKey" (VStr "value");
  input_value ← lift_result (dict_get input_data input_key (VStr ""));
  let result :=
    if is_str transform_type "uppercase" then VStr (str_upper (py_str input_value))
    else if is_str transform_type "lowercase" then VStr (str_lower (py_str input_value))
    else if is_str transform_type "reverse" then VStr (String.rev (py_str input_value))
    else if is_str transform_type "length"
         then VInt (Z.of_nat (String.length (py_str input_value)))
    else input_value in
  log ("Transform " +:+ py_str transform_type +:+ " applied, result: "
         +:+ py_str result) "INFO";;
  mret result.

Definition execute_file_operation (config : Value) : M W Value :=
  operation ← get config "operation" (VStr "read");
  file_path ← get config "filePath" (VStr "");
  content ← get config "content" (VStr "");
  if negb (truthy file_path)
  then raise (ValueError "File path is required for file operations")
  else
    reraising
      (if is_str operation "read" then
         content ← lift_world (fs_read file_path);
         log ("File read from " +:+ py_str file_path) "INFO";;
         mret (VStr content)
       else if is_str operation "write" then
         lift_world (fs_write file_path content);;
         log ("File written to " +:+ py_str file_path) "INFO";;
         mret (VStr ("File written successfully to " +:+ py_str file_path))
       else if is_str operation "append" then
         lift_world (fs_append file_path content);;
         log ("Content appended to " +:+ py_str file_path) "INFO";;
         mret (VStr ("Content appended successfully to " +:+ py_str file_path))
       else if is_str operation "exists" then
         exists_ ← lift_world (fs_exists file_path);
         log ("File existence check for " +:+ py_str file_path +:+ ": "
                +:+ py_str (VBool exists_)) "INFO";;
         mret (VBool exists_)
       else raise (ValueError ("Unknown file operation: " +:+ py_str operation)))
      (λ e, log ("File operation failed: " +:+ exc_str e) "ERROR").

Definition execute_database_operation (config : Value) : M W Value :=
  operation ← get config "operation" (VStr "query");
  database_path ← get config "databasePath" (VStr "data/workflow_data.db");
  query ← get config "query" (VStr "");
  params ← get config "params" (VList []);
  if negb (truthy query)
  then raise (ValueError "Query is required for database operations")
  else
    reraising
      (lift_world (db_open database_path);;
       if is_str operation "query" then
         results ← lift_world (db_query query params);
         log ("Database query executed, returned "
                +:+ pretty (length results) +:+ " rows") "INFO";;
         mret (VList results)
       else if is_str operation "execute" then
         rowcount ← lift_world (db_execute query params);
         log ("Database execute completed, affected "
                +:+ pretty rowcount +:+ " rows") "INFO";;
         mret (VStr ("Query executed successfully, affected "
                       +:+ pretty rowcount +:+ " rows"))
       else
         lift_world (λ w, (Ok (), db_close w));;
         raise (ValueError ("Unknown database operation: " +:+ py_str operation)))
      (λ e, log ("Database operation failed: " +:+ exc_str e) "ERROR").

(** [float(input_value) > float(expected_value)] ([gt]) or [<]:
    [input_value] is converted first, and a [ValueError] or
    [TypeError] of either conversion gives the false branch. *)
Definition float_compare (gt : bool) (input_value expected_value : Value)
  : result bool :=
  match py_float input_value with
  | Ok x =>
      match py_float expected_value with
      | Ok y => Ok (if gt then float_lt y x else float_lt x y)
      | Raise (ValueError _) | Raise (TypeError _) => Ok false
      | Raise e => Raise e
      end
  | Raise (ValueError _) | Raise (TypeError _) => Ok false
  | Raise e => Raise e
  end.

Definition execute_condition (input_data : dict) (config : Value) : M W Value :=
  condition_type ← get config "conditionType" (VStr "equals");
  input_key ← get config "inputKey" (VStr "value");
  expected_value ← get config "expectedValue" (VStr "");
  true_value ← get config "trueValue" (VStr "true");
  false_value ← get config "falseValue" (VStr "false");
  input_value ← lift_result (dict_get input_data input_key (VStr ""));
  holds ←
    (if is_str condition_type "equals" then
       mret (bool_decide (py_str input_value = py_str expected_value))
     else if is_str condition_type "not_equals" then
       mret (negb (bool_decide (py_str input_value = py_str expected_value)))
     else if is_str condition_type "contains" then
       mret (match String.index 0 (py_str expected_value) (py_str input_value) with
             | Some _ => true
             | None => false
             end)
     else if is_str condition_type "greater_than" then
       lift_result (float_compare true input_value expected_value)
     else if is_str condition_type "less_than" then
       lift_result (float_compare false input_value expected_value)
     else mret false);
  let result := if holds : bool then true_value else false_value in
  log ("Condition " +:+ py_str condition_type +:+ " evaluated: "
         +:+ py_str input_value +:+ " -> " +:+ py_str result) "INFO";;
  mret result.

(** [await asyncio.sleep(delay)]: a delay that is not above zero only
    yields; any other is added to the clock of the event loop, a float,
    to set the timer, which raises for an integer that no float holds;
    the timer of an infinite delay never fires, and that of a nan fires
    at once when it is the only timer, as under [asyncio.run] (Python
    3.13 refuses the nan with a [ValueError] instead); comparing
    anything but a number with zero raises. *)
Definition asyncio_sleep (delay : Value) : M W () :=
  match delay with
  | VInt z =>
      if decide (z ≤ 0)%Z then mret ()
      else if decide (z < float_overflow)%Z
           then lift_world (λ w, (Ok (), advance z w))
      else raise (OverflowError "int too large to convert to float")
  | VBool b =>
      if b then lift_world (λ w, (Ok (), advance 1 w)) else mret ()
  | VFloat repr =>
      if float_negative repr || float_is_zero repr then mret ()
      else if bool_decide (repr = "nan") then mret ()
      else if bool_decide (repr = "inf") then raise FuelExhausted
      else lift_world (λ w, (Ok (), advance_float repr w))
  | _ => raise (TypeError ("'<=' not supported between instances of '"
                             +:+ type_name delay +:+ "' and 'int'"))
  end.

Definition execute_delay (config : Value) : M W Value :=
  delay_seconds ← get config "delaySeconds" (VInt 1);
  log ("Starting delay for " +:+ py_str delay_seconds +:+ " seconds") "INFO";;
  asyncio_sleep delay_seconds;;
  log ("Delay completed after " +:+ py_str delay_seconds +:+ " seconds") "INFO";;
  mret (VStr ("Delayed for " +:+ py_str delay_seconds +:+ " seconds")).
End engine.

(** The line feed that ends each line of a table. *)
Definition newline : string := String (ascii_of_N 10) "".

(** ["-" * n] *)
Fixpoint dashes (n : nat) : string :=
  match n with
  | O => ""
  | S n' => String "-" (dashes n')
  end.

(** [format_as_table]: a list whose first item is a dict is laid out
    with the keys of that first dict as the header; [row.get] raises
    when a later row is not a dict. *)
Definition format_as_table (data : Value) : result string :=
  match data with
  | VList items =>
      match items with
      | VDict first :: _ =>
          let headers := first.*1 in
          rows ← mapM (λ row,
                         mapM (λ header,
                                 cell ← py_get row header (VStr "");
                                 mret (py_str cell)) headers) items;
          let table := String.concat " | " headers +:+ newline in
          let table := table +:+ dashes (String.length table) +:+ newline in
          mret (foldl (λ table row, table +:+ String.concat " | " row +:+ newline)
                      table rows)
      | _ => Ok (py_str data)
      end
  | _ => Ok (py_str data)
  end.

(** What [execute_workflow] returns: the dict with ['status'] equal to
    ['success'] or to ['failed']. *)
Inductive RunResult :=
| RunSuccess (output : Value) (outputs : gmap string dict)
             (execution_order : list string)
| RunFailed (error : string) (outputs : gmap string dict).

Definition status (r : RunResult) : string :=
  match r with
  | RunSuccess _ _ _ => "success"
  | RunFailed _ _ => "failed"
  end.

Definition result_outputs (r : RunResult) : gmap string dict :=
  match r with
  | RunSuccess _ outputs _ | RunFailed _ outputs => outputs
  end.

Section workflow.
Context {W : Type} `{!Runtime W}.

Definition execute_node (node : Node) (input_data : dict) : M W Value :=
  let node_config := node_config node in
  log ("Executing node " +:+ node_id node +:+ " of type " +:+ node_type node)
      "INFO";;
  reraising
    (if bool_decide (node_type node = "input") then
       let result :=
         from_option id
           (from_option id (VStr "") (od_get "value" node_config))
           (od_get "value" input_data) in
       log ("Input node returned: " +:+ py_str result) "INFO";;
       mret result
     else if bool_decide (node_type node = "plugin") then
       let plugin_config := node_config in
       if negb (truthy (plugin_id node)) then
         log ("Plugin ID not specified for node " +:+ node_id node) "ERROR";;
         raise (ValueError ("Plugin ID not specified for node " +:+ node_id node))
       else
         result ← lift_world (execute_plugin (plugin_id node) input_data plugin_config);
         log ("Plugin node " +:+ py_str (plugin_id node) +:+ " returned: "
                +:+ py_str result) "INFO";;
         mret result
     else if bool_decide (node_type node = "action") then
       let action_type :=
         from_option id (VStr "log") (od_get "actionType" node_config) in
       let action_config :=
         from_option id (VDict []) (od_get "actionConfig" node_config) in
       if is_str action_type "log" then
         message ← get action_config "message" (VStr "No message provided");
         log ("Log action: " +:+ py_str message) "INFO";;
         mret message
       else if is_str action_type "http_request" then
         execute_http_request action_config
       else if is_str action_type "transform" then
         execute_transform input_data action_config
       else if is_str action_type "file_operation" then
         execute_file_operation action_config
       else if is_str action_type "database" then
         execute_database_operation action_config
       else if is_str action_type "condition" then
         execute_condition input_data action_config
       else if is_str action_type "delay" then
         execute_delay action_config
       else
         log ("Unknown action type: " +:+ py_str action_type) "WARNING";;
         mret VNone
     else if bool_decide (node_type node = "output") then
       let output_format :=
         from_option id (VStr "raw") (od_get "format" node_config) in
       let output_value := from_option id (VStr "") (od_get "value" input_data) in
       result ←
         (if is_str output_format "json" then lift_result (json_dumps output_value)
          else if is_str output_format "table"
               then lift_result (format_as_table output_value)
          else mret (py_str output_value));
       log ("Output node formatted result: " +:+ result) "INFO";;
       mret (VStr result)
     else
       log ("Unknown node type: " +:+ node_type node) "WARNING";;
       mret VNone)
    (λ e, log ("Error executing node " +:+ node_id node +:+ ": " +:+ exc_str e)
              "ERROR").

(** [get_node_inputs]: the stored outputs of the sources of the edges
    into [node_id], merged in edge order with [dict.update]. *)
Definition get_node_inputs (outputs : gmap string dict)
    (node_id : string) (edges : list Edge) : dict :=
  foldl (λ inputs edge,
           if decide (target edge = node_id) then
             match outputs !! source edge with
             | Some output => od_update inputs output
             | None => inputs
             end
           else inputs)
        [] edges.

(** [if not node_inputs: node_inputs = input_data.copy()] *)
Definition resolve_inputs (outputs : gmap string dict)
    (node_id : string) (edges : list Edge) (input_data : dict) : dict :=
  let node_inputs := get_node_inputs outputs node_id edges in
  if negb (truthy (VDict node_inputs)) then input_data else node_inputs.

(** [{node['id']: node for node in nodes}] *)
Definition node_lookup_of (nodes : list Node) : gmap string Node :=
  foldl (λ lookup node, <[node_id node := node]> lookup) ∅ nodes.

Definition store_output (node_id : string) (output : dict) : M W () := λ st,
  (Ok (), mkState (logs st) (<[node_id := output]> (node_outputs st)) (world st)).

(** [for node_id in execution_order: ...] *)
Fixpoint run_nodes (node_lookup : gmap string Node) (edges : list Edge)
    (input_data : dict) (execution_order : list string) : M W () :=
  match execution_order with
  | [] => mret ()
  | node_id :: rest =>
      node ← match node_lookup !! node_id with
              | Some node => mret node
              | None => raise (KeyError node_id)
              end;
      node_inputs ← (λ st, (Ok (resolve_inputs (node_outputs st) node_id
                                               edges input_data), st));
      result ← execute_node node node_inputs;
      store_output node_id [("value", result)];;
      run_nodes node_lookup edges input_data rest
  end.

(** The body of the [try] block of [execute_workflow]. *)
Definition run_workflow (nodes : list Node) (edges : list Edge)
    (input_data : dict) : M W RunResult :=
  execution_order ← lift_result (build_execution_graph nodes edges);
  log ("Execution order: " +:+ py_str (VList (VStr <$> execution_order))) "INFO";;
  let node_lookup := node_lookup_of nodes in
  run_nodes node_lookup edges input_data execution_order;;
  final_id ← match last execution_order with
              | Some node_id => mret node_id
              | None => raise (IndexError "list index out of range")
              end;
  outputs ← (λ st, (Ok (node_outputs st), st));
  let final_output :=
    from_option id VNone (od_get "value" (from_option id [] (outputs !! final_id))) in
  log "Workflow execution completed successfully" "INFO";;
  mret (RunSuccess final_output outputs execution_order).

Definition execute_workflow (nodes : list Node) (edges : list Edge)
    (input_data : option dict) (st : State W) : RunResult * State W :=
  let st := mkState [] ∅ (world st) in
  let input_data := from_option id [] input_data in
  let st := (log "Starting workflow execution" "INFO" st).2 in
  match run_workflow nodes edges input_data st with
  | (Ok r, st') => (r, st')
  | (Raise e, st') =>
      let st'' := (log ("Workflow execution failed: " +:+ exc_str e) "ERROR" st').2 in
      (RunFailed (exc_str e) (node_outputs st''), st'')
  end.
End workflow.

(** ** A world to run examples in

    An in-memory file system and a clock: the whole seconds waited,
    and the waits of a float number of seconds one by one.  There is no
    network, no database and no plugin manager: those calls raise.  The
    string builtins act on ASCII letters; what this world does not
    model raises [ExternalError]. *)
Record MemWorld := mkWorld {
  files : gmap string string;
  clock : Z;
  float_waits : list string
}.

Definition upper_char (c : ascii) : ascii :=
  let n := N_of_ascii c in
  if ((97 <=? n) && (n <=? 122))%N then ascii_of_N (n - 32) else c.

Definition lower_char (c : ascii) : ascii :=
  let n := N_of_ascii c in
  if ((65 <=? n) && (n <=? 90))%N then ascii_of_N (n + 32) else c.

Fixpoint map_chars (f : ascii → ascii) (s : string) : string :=
  match s with
  | EmptyString => ""
  | String c s' => String (f c) (map_chars f s')
  end.

Definition not_modelled {A} : result A := Raise (ExternalError "not modelled").

Definition mem_open (path : Value) (w : MemWorld) : result string :=
  match path with
  | VStr p =>
      match files w !! p with
      | Some content => Ok content
      | None => Raise (FileNotFoundError p)
      end
  | _ => not_modelled
  end.

Definition mem_store (append : bool) (path content : Value) (w : MemWorld)
  : result () * MemWorld :=
  match path, content with
  | VStr p, VStr c =>
      let old := if append then from_option id "" (files w !! p) else "" in
      (Ok (), mkWorld (<[p := old +:+ c]> (files w)) (clock w) (float_waits w))
  | _, _ => (not_modelled, w)
  end.

Global Instance mem_runtime : Runtime MemWorld := {|
  str_upper := map_chars upper_char;
  str_lower := map_chars lower_char;
  json_dumps := λ _, not_modelled;
  Float := Z;
  py_float := λ v,
    match v with
    | VInt z => if decide (Z.abs z < 2 ^ 53)%Z then Ok z else not_modelled
    | _ => not_modelled
    end;
  float_lt := Z.ltb;
  execute_plugin := λ _ _ _ w, (Raise (ExternalError "no plugin manager"), w);
  http_send := λ _ _ _ _ w, (Raise (ExternalError "no network"), w);
  fs_read := λ path w, (mem_open path w, w);
  fs_write := mem_store false;
  fs_append := mem_store true;
  fs_exists := λ path w,
    match path with
    | VStr p => (Ok (bool_decide (is_Some (files w !! p))), w)
    | _ => (not_modelled, w)
    end;
  db_open := λ _ w, (Raise (ExternalError "no database"), w);
  db_query := λ _ _ w, (Raise (ExternalError "no database"), w);
  db_execute := λ _ _ w, (Raise (ExternalError "no database"), w);
  db_close := λ w, w;
  advance := λ z w, mkWorld (files w) (clock w + z) (float_waits w);
  advance_float := λ repr w, mkWorld (files w) (clock w) (float_waits w ++ [repr])
|}.

Definition empty_world : MemWorld := mkWorld ∅ 0 [].
Definition fresh : State MemWorld := mkState [] ∅ empty_world.

(** ** Sample workflows *)

Definition edge (s t : string) : Edge := mkEdge (s +:+ "-" +:+ t) s t.

Definition input_node (i : string) : Node := mkNode i "input" [] VNone.

Definition log_node (i message : string) : Node :=
  mkNode i "action"
    [("actionType", VStr "log");
     ("actionConfig", VDict [("message", VStr message)])] VNone.

Definition read_node (i path : string) : Node :=
  mkNode i "action"
    [("actionType", VStr "file_operation");
     ("actionConfig", VDict [("operation", VStr "read"); ("filePath", VStr path)])]
    VNone.

Definition output_node (i format : string) : Node :=
  mkNode i "output" [("format", VStr format)] VNone.

(** input -> read a file that does not exist -> output *)
Definition broken_nodes : list Node :=
  [input_node "1"; read_node "2" "/no/such/file"; output_node "3" "raw"].
Definition chain_edges : list Edge := [edge "1" "2"; edge "2" "3"].

(** input -> log -> output *)
Definition linear_nodes : list Node :=
  [input_node "1"; log_node "2" "step"; output_node "3" "raw"].

(** two inputs feeding one output *)
Definition join_nodes : list Node :=
  [input_node "a"; log_node "b" "from b"; output_node "c" "raw"].
Definition join_edges : list Edge := [edge "a" "c"; edge "b" "c"].

Definition table_rows : Value :=
  VList [VDict [("a", VInt 1); ("b", VInt 2)];
         VDict [("a", VInt 3); ("b", VInt 4)]].

(** ** Reference notions for the run *)

(** The table as the lines it is made of: the keys of the first row,
    a rule of dashes one longer than that header, then one line per row
    with the cells under those keys (an absent key gives an empty cell). *)
Definition table_lines (first : dict) (rows : list dict) : list string :=
  let headers := first.*1 in
  let header := String.concat " | " headers in
  header
  :: dashes (S (String.length header))
  :: map (λ row : dict,
            String.concat " | "
              (map (λ h, py_str (from_option id (VStr "") (od_get h row))) headers))
         (first :: rows).

(** Each line followed by a line feed. *)
Definition unlines (lines : list string) : string :=
  foldr (λ line text, line +:+ newline +:+ text) "" lines.

(** The stored outputs of the sources of the edges into [n], merged in
    edge-list order, a later edge overwriting the keys of an earlier one
    (a source without a stored output adds nothing). *)
Definition merged_upstream (outputs : gmap string dict) (edges : list Edge)
    (n : string) : dict :=
  foldl od_update []
        ((λ e, from_option id [] (outputs !! source e))
           <$> filter (λ e, target e = n) edges).

(** The edges into [n] that leave a listed node. *)
Definition upstream_edges (ids : list string) (edges : list Edge) (n : string)
  : list Edge :=
  filter (λ e, target e = n ∧ source e ∈ ids) edges.

(** The state in which the loop over the execution order starts. *)
Definition begin_run {W} (order : list string) (st : State W) : State W :=
  mkState [mkLog "INFO" "Starting workflow execution";
           mkLog "INFO" ("Execution order: " +:+ py_str (VList (VStr <$> order)))]
          ∅ (world st).

(** The state a failed run ends in. *)
Definition end_failed {W} (e : Exception) (st : State W) : State W :=
  mkState (logs st ++ [mkLog "ERROR" ("Workflow execution failed: " +:+ exc_str e)])
          (node_outputs st) (world st).

(** two independent nodes, the same with one edge each way, and a node
    list that names one id twice *)
Definition ab_nodes : list Node := [input_node "A"; input_node "B"].
Definition ab_cycle : list Edge := [edge "A" "B"; edge "B" "A"].
Definition dup_nodes : list Node := [input_node "A"; input_node "A"].

(** one node feeding two others, the later listed one first in the
    edge list *)
Definition fan_nodes : list Node := [input_node "A"; input_node "B"; input_node "C"].
Definition fan_edges : list Edge := [edge "A" "C"; edge "A" "B"].

(** A ranking of the nodes of [chain_edges]. *)
Definition chain_rank (i : string) : nat :=
  if bool_decide (i = "1") then 0 else if bool_decide (i = "2") then 1 else 2.

(** A method that leaves [self.node_outputs] as it found it. *)
Definition keeps_outputs {W A} (m : M W A) : Prop :=
  ∀ st, node_outputs (m st).2 = node_outputs st.

(** Every stored output is a dict with the single key ['value']. *)
Definition value_records (outputs : gmap string dict) : Prop :=
  ∀ m out, outputs !! m = Some out → ∃ r, out = [("value", r)].

(** The state after [self.node_outputs[n] = {"value": result}]. *)
Definition stored {W} (n : string) (result : Value) (st : State W) : State W :=
  mkState (logs st) (<[n := [("value", result)]]> (node_outputs st)) (world st).

(** [ready edges ids done n]: every edge into [n] from a listed node
    has its source in [done], so [n] is a candidate once [done] is out. *)
Definition ready (edges : list Edge) (ids done : list string) (n : string) : Prop :=
  ∀ e, e ∈ edges → target e = n → source e ∈ ids → source e ∈ done.

Global Instance ready_dec edges ids done n : Decision (ready edges ids done n).
Proof.
  refine (cast_if (decide (Forall (λ e, target e = n → source e ∈ ids →
                                        source e ∈ done) edges)));
    unfold ready; rewrite Forall_forall in *; naive_solver.
Defined.

(** The members of a list, each once, at the place of its last
    occurrence. *)
Fixpoint last_occurrences (l : list string) : list string :=
  match l with
  | [] => []
  | x :: l' =>
      if decide (x ∈ l') then last_occurrences l' else x :: last_occurrences l'
  end.

(** The nodes that become candidates when [c] is popped after [done]:
    the targets of the edges leaving [c] that no edge from a listed
    node outside [done ++ [c]] enters, in the order of those edges in
    the edge list (a target of several of them at the place of the
    last). *)
Definition freed (edges : list Edge) (ids done : list string) (c : string)
  : list string :=
  filter (λ n, ready edges ids (done ++ [c]) n)
         (last_occurrences (successors edges c)).

(** The nodes freed by the nodes of [rest], popped one after the other
    after [done]. *)
Fixpoint freed_in_turn (edges : list Edge) (ids done rest : list string)
  : list string :=
  match rest with
  | [] => []
  | c :: rest' =>
      freed edges ids done c ++ freed_in_turn edges ids (done ++ [c]) rest'
  end.

(** ** Reference notions for the further properties *)

(** A method that only appends to [self.logs]. *)
Definition grows_logs {W A} (m : M W A) : Prop :=
  ∀ st, logs st `prefix_of` logs (m st).2.

(** The state a successful run ends in. *)
Definition end_success {W} (st : State W) : State W :=
  mkState (logs st ++ [mkLog "INFO" "Workflow execution completed successfully"])
          (node_outputs st) (world st).

(** The first entry [execute_node] logs. *)
Definition executing_entry (node : Node) : LogEntry :=
  mkLog "INFO" ("Executing node " +:+ node_id node +:+ " of type " +:+ node_type node).

(** The entry [execute_node] logs when it raises [e]. *)
Definition error_entry (node : Node) (e : Exception) : LogEntry :=
  mkLog "ERROR" ("Error executing node " +:+ node_id node +:+ ": " +:+ exc_str e).

(** ** Sample nodes and configurations for the edge cases *)

(** a node of a type the dispatch does not know, an action node of an
    unknown action type, and a plugin node that names no plugin *)
Definition trigger_node : Node := mkNode "t" "trigger" [] VNone.
Definition email_node : Node :=
  mkNode "m" "action" [("actionType", VStr "email")] VNone.
Definition anonymous_plugin_node : Node := mkNode "p" "plugin" [] VNone.

Definition delete_file_config : dict :=
  [("operation", VStr "delete"); ("filePath", VStr "/tmp/notes.txt")].
Definition patch_request_config : dict :=
  [("method", VStr "patch"); ("url", VStr "http://localhost/items")].
Definition drop_table_config : dict :=
  [("operation", VStr "drop"); ("query", VStr "DROP TABLE runs")].
Definition titlecase_config : dict := [("transformType", VStr "titlecase")].
Definition reverse_config : dict := [("transformType", VStr "reverse")].
Definition equals_one_config : dict := [("expectedValue", VStr "1")].
Definition matches_config : dict := [("conditionType", VStr "matches")].
Definition greater_than_three_config : dict :=
  [("conditionType", VStr "greater_than"); ("expectedValue", VInt 3)].

(** The in-memory runtime with the one case of [float] that matters for
    a missing input, [float('')] raises a [ValueError], and with a
    database file that can be opened. *)
Definition lab_runtime : Runtime MemWorld := {|
  str_upper := @str_upper _ mem_runtime;
  str_lower := @str_lower _ mem_runtime;
  json_dumps := @json_dumps _ mem_runtime;
  Float := Z;
  py_float := λ v,
    match v with
    | VStr "" => Raise (ValueError "could not convert string to float: ''")
    | _ => @py_float _ mem_runtime v
    end;
  float_lt := Z.ltb;
  execute_plugin := @execute_plugin _ mem_runtime;
  http_send := @http_send _ mem_runtime;
  fs_read := @fs_read _ mem_runtime;
  fs_write := @fs_write _ mem_runtime;
  fs_append := @fs_append _ mem_runtime;
  fs_exists := @fs_exists _ mem_runtime;
  db_open := λ _ w, (Ok (), w);
  db_query := @db_query _ mem_runtime;
  db_execute := @db_execute _ mem_runtime;
  db_close := @db_close _ mem_runtime;
  advance := @advance _ mem_runtime;
  advance_float := @advance_float _ mem_runtime
|}.

(** A method that leaves the world outside the runner as it found it. *)
Definition keeps_world {W A} (m : M W A) : Prop :=
  ∀ st, world (m st).2 = world st.

(** The nodes whose branch of [execute_node] calls out of the runner:
    a plugin node, and an action node whose action type is one of
    [http_request], [file_operation], [database] and [delay]. *)
Definition reaches_world (node : Node) : bool :=
  bool_decide (node_type node = "plugin")
  || bool_decide (node_type node = "action")
     && (let action_type :=
           from_option id (VStr "log") (od_get "actionType" (node_config node)) in
         is_str action_type "http_request"
         || is_str action_type "file_operation"
         || is_str action_type "database"
         || is_str action_type "delay").

(** * The plugin manager

    [plugin_manager.WorkflowPluginManager], the object behind
    [plugin_manager.execute_plugin], with what it inherits from
    [plugin_system.PluginManager].  Messages to the [logging] module are
    left out.  A schema is the typed view of the dict that the
    validation reads: the list under ['required'], the dict under
    ['properties'] and, for each property, the value under ['type'];
    every other key of a schema is ignored by the code. *)
Module WorkflowPluginManager.

(** The value under ['type']: one type name, or a list of them. *)
Inductive TypeSpec :=
| OneType (expected_type : string)
| AnyOf (expected_type : list string).

Record FieldSchema := mkField {
  field_type : option TypeSpec
}.

Record Schema := mkSchema {
  required : option (list string);
  properties : option (list (string * FieldSchema))
}.

(** The classes named in [type_map]. *)
Inductive PyType := Tstr | Tint | Tfloat | Tbool | Tdict | Tlist.

(** [isinstance(value, cls)]; [bool] is a subclass of [int]. *)
Definition instance_of (value : Value) (cls : PyType) : bool :=
  match cls, value with
  | Tstr, VStr _ => true
  | Tint, VInt _ | Tint, VBool _ => true
  | Tfloat, VFloat _ => true
  | Tbool, VBool _ => true
  | Tdict, VDict _ => true
  | Tlist, VList _ => true
  | _, _ => false
  end.

(** [isinstance(value, (cls, ...))] *)
Definition isinstance (value : Value) (classes : list PyType) : bool :=
  existsb (instance_of value) classes.

Definition type_map : list (string * list PyType) :=
  [("string", [Tstr]); ("integer", [Tint]); ("number", [Tint; Tfloat]);
   ("boolean", [Tbool]); ("object", [Tdict]); ("array", [Tlist])].

Definition _check_type (value : Value) (expected_type : string) : bool :=
  match od_get expected_type type_map with
  | Some classes => isinstance value classes
  | None => true
  end.

Definition _validate_field_type (value : Value) (field_schema : FieldSchema)
    (field_name : string) : result () :=
  match field_type field_schema with
  | Some (AnyOf expected_type) =>
      if negb (existsb (_check_type value) expected_type)
      then Raise (ValueError ("Field " +:+ field_name +:+ " must be one of types: "
                                +:+ py_str (VList (VStr <$> expected_type))))
      else Ok ()
  | Some (OneType expected_type) =>
      if negb (_check_type value expected_type)
      then Raise (ValueError ("Field " +:+ field_name +:+ " must be of type: "
                                +:+ expected_type))
      else Ok ()
  | None => Ok ()
  end.

(** A [for] loop whose body may raise. *)
Fixpoint for_each {A} (body : A → result ()) (items : list A) : result () :=
  match items with
  | [] => Ok ()
  | item :: rest => body item;; for_each body rest
  end.

(** The loop over [schema['properties'].items()], shared by the two
    validations. *)
Definition validate_properties (data : dict) (schema : Schema) : result () :=
  match properties schema with
  | Some props =>
      for_each (λ '(field, field_schema),
                  match od_get field data with
                  | Some value => _validate_field_type value field_schema field
                  | None => Ok ()
                  end) props
  | None => Ok ()
  end.

Definition _validate_input (input_data : dict) (schema : Schema) : result () :=
  match required schema with
  | Some fields =>
      for_each (λ field,
                  match od_get field input_data with
                  | Some _ => Ok ()
                  | None => Raise (ValueError ("Required field missing: " +:+ field))
                  end) fields
  | None => Ok ()
  end;;
  validate_properties input_data schema.

Definition _validate_output (output_data : dict) (schema : Schema) : result () :=
  validate_properties output_data schema.

(** A plugin object, as far as the manager uses it.  [execute] acts on
    the world outside and returns a dict or raises. *)
Record Plugin (W : Type) := mkPlugin {
  plugin_id : string;
  get_input_schema : Schema;
  get_output_schema : Schema;
  execute : dict → W → result dict * W
}.
Arguments mkPlugin {W} _ _ _ _.
Arguments plugin_id {W} _.
Arguments get_input_schema {W} _.
Arguments get_output_schema {W} _.
Arguments execute {W} _ _ _.

(** The attributes of the manager. *)
Record Manager (W : Type) := mkManager {
  plugins : gmap string (Plugin W);
  plugin_instances : gmap string (Plugin W);
  plugin_configs : gmap string dict
}.
Arguments mkManager {W} _ _ _.
Arguments plugins {W} _.
Arguments plugin_instances {W} _.
Arguments plugin_configs {W} _.

Section methods.
Context {W : Type}.
Implicit Types (self : Manager W) (plugin : Plugin W).

(** [__init__] *)
Definition init : Manager W := mkManager ∅ ∅ ∅.

Definition register_plugin self plugin : Manager W :=
  mkManager (<[plugin_id plugin := plugin]> (plugins self))
            (plugin_instances self) (plugin_configs self).

Definition unregister_plugin self (plugin_id : string) : Manager W :=
  mkManager (delete plugin_id (plugins self))
            (plugin_instances self) (plugin_configs self).

Definition get_plugin self (plugin_id : string) : option (Plugin W) :=
  plugins self !! plugin_id.

(** [load_builtin_plugins] and [load_plugins_from_directory] create
    plugin objects and register them one by one; [found] are the
    objects created. *)
Definition load_plugins self (found : list (Plugin W)) : Manager W :=
  foldl register_plugin self found.

Definition get_plugin_instance self (plugin_id : string) : option (Plugin W) :=
  plugin_instances self !! plugin_id.

Definition set_plugin_config self (plugin_id : string) (config : dict) : Manager W :=
  mkManager (plugins self) (plugin_instances self)
            (<[plugin_id := config]> (plugin_configs self)).

Definition get_plugin_config self (plugin_id : string) : dict :=
  from_option id [] (plugin_configs self !! plugin_id).

(** The dict returned for a failure. *)
Definition failure (error : string) : dict :=
  [("success", VBool false); ("error", VStr error)].

Definition execute_plugin self (plugin_id : string) (input_data : dict) (w : W)
  : dict * W :=
  match get_plugin_instance self plugin_id with
  | None => (failure ("Plugin not found: " +:+ plugin_id), w)
  | Some plugin =>
      let config := get_plugin_config self plugin_id in
      let merged_input := od_update config input_data in
      match _validate_input merged_input (get_input_schema plugin) with
      | Raise e => (failure (exc_str e), w)
      | Ok _ =>
          match execute plugin merged_input w with
          | (Raise e, w') => (failure (exc_str e), w')
          | (Ok result, w') =>
              match _validate_output result (get_output_schema plugin) with
              | Raise e => (failure (exc_str e), w')
              | Ok _ => (result, w')
              end
          end
      end
  end.

(** The methods that change the manager. *)
Inductive Call :=
| RegisterPlugin (plugin : Plugin W)
| UnregisterPlugin (plugin_id : string)
| LoadPlugins (found : list (Plugin W))
| SetPluginConfig (plugin_id : string) (config : dict).

Definition call self (c : Call) : Manager W :=
  match c with
  | RegisterPlugin plugin => register_plugin self plugin
  | UnregisterPlugin plugin_id => unregister_plugin self plugin_id
  | LoadPlugins found => load_plugins self found
  | SetPluginConfig plugin_id config => set_plugin_config self plugin_id config
  end.
End methods.

(** [DelayPlugin.get_input_schema] and [get_output_schema] (plugins.py). *)
Definition delay_input_schema : Schema :=
  mkSchema (Some ["delay_seconds"])
           (Some [("delay_seconds", mkField (Some (OneType "number")))]).

Definition delay_output_schema : Schema :=
  mkSchema None
           (Some [("success", mkField (Some (OneType "boolean")));
                  ("delay_seconds", mkField (Some (OneType "number")));
                  ("message", mkField (Some (AnyOf ["string"; "null"])));
                  ("error", mkField (Some (AnyOf ["string"; "null"])))]).

(** [DelayPlugin.execute] (plugins.py).  [time_sleep] stands for
    [time.sleep] on a number that is not below zero: it returns after
    the wait, or raises when the platform cannot wait that long. *)
Section delay_plugin.
Context {W : Type} (time_sleep : Value → W → result () * W).

(** [delay_seconds < 0]: defined on numbers; any other value against an
    int raises a [TypeError]. *)
Definition lt_zero (delay_seconds : Value) : result bool :=
  match delay_seconds with
  | VInt z => Ok (bool_decide (z < 0)%Z)
  | VBool _ => Ok false
  | VFloat repr => Ok (float_negative repr && negb (float_is_zero repr))
  | _ => Raise (TypeError ("'<' not supported between instances of '"
                             +:+ type_name delay_seconds +:+ "' and 'int'"))
  end.

Definition delay_execute (input_data : dict) (w : W) : result dict * W :=
  let delay_seconds := from_option id (VInt 1) (od_get "delay_seconds" input_data) in
  let failed (e : Exception) (w : W) : result dict * W :=
    (Ok [("success", VBool false); ("error", VStr (exc_str e));
         ("delay_seconds", delay_seconds)], w) in
  match lt_zero delay_seconds with
  | Raise e => failed e w
  | Ok true => failed (ValueError "Delay seconds must be non-negative") w
  | Ok false =>
      match time_sleep delay_seconds w with
      | (Raise e, w') => failed e w'
      | (Ok _, w') =>
          (Ok [("success", VBool true); ("delay_seconds", delay_seconds);
               ("message", VStr ("Delayed for " +:+ py_str delay_seconds
                                   +:+ " seconds"))], w')
      end
  end.

Definition DelayPlugin : Plugin W :=
  mkPlugin "delay" delay_input_schema delay_output_schema delay_execute.
End delay_plugin.

End WorkflowPluginManager.

(** [time.sleep] in the in-memory world, for a whole number of seconds:
    the clock moves on, up to the longest wait the platform takes (a
    signed 64-bit count of nanoseconds). *)
Definition mem_sleep (seconds : Value) (w : MemWorld) : result () * MemWorld :=
  match seconds with
  | VInt z =>
      if decide (z < 0)%Z
      then (Raise (ValueError "sleep length must be non-negative"), w)
      else if decide (z < 9223372036)%Z then (Ok (), advance z w)
      else if decide (z = 9223372036)%Z
           then (Raise (ExternalError "[Errno 22] Invalid argument"), w)
      else (Raise (OverflowError "timestamp too large to convert to C _PyTime_t"), w)
  | VBool b => (Ok (), advance (if b then 1 else 0) w)
  | _ => (not_modelled, w)
  end.

(** A manager that holds the delay plugin as an instance, with a stored
    configuration for it. *)
Definition delay_manager : WorkflowPluginManager.Manager MemWorld :=
  WorkflowPluginManager.mkManager ∅
    {["delay" := WorkflowPluginManager.DelayPlugin mem_sleep]}
    {["delay" := [("delay_seconds", VInt 2)]]}.

(** * Properties *)

(** Closed decidable facts, by evaluation. *)
Ltac by_compute :=
  match goal with |- ?P => apply (bool_decide_unpack P) end; vm_compute; exact I.

(** ** Insertion-ordered dictionaries *)

Section odict_facts.
Context {V : Type}.
Implicit Types (d : list (string * V)) (k : string) (v : V).

Lemma od_get_set k k' v d :
  od_get k' (od_set k v d) = if decide (k = k') then Some v else od_get k' d.
Proof.
  induction d as [|[k0 v0] d IH]; simpl.
  - by repeat case_decide.
  - destruct (decide (k0 = k)) as [->|Hne]; simpl.
    + by repeat case_decide.
    + rewrite IH. repeat case_decide; congruence.
Qed.

Lemma od_get_is_Some k d : is_Some (od_get k d) ↔ k ∈ d.*1.
Proof.
  induction d as [|[k0 v0] d IH]; simpl.
  - split; [by intros [? ?] | by intros ?%elem_of_nil].
  - rewrite elem_of_cons. case_decide; subst.
    + split; eauto.
    + rewrite IH. naive_solver.
Qed.

Lemma od_get_None k d : od_get k d = None ↔ k ∉ d.*1.
Proof. rewrite <-od_get_is_Some, eq_None_not_Some. done. Qed.

Lemma od_set_keys_present k v d :
  k ∈ d.*1 → (od_set k v d).*1 = d.*1.
Proof.
  induction d as [|[k0 v0] d IH]; simpl.
  - by intros ?%elem_of_nil.
  - intros Hin. case_decide; subst; simpl; [done|].
    f_equal. apply IH. apply elem_of_cons in Hin. naive_solver.
Qed.

Lemma od_set_keys_fresh k v d :
  k ∉ d.*1 → (od_set k v d).*1 = d.*1 ++ [k].
Proof.
  induction d as [|[k0 v0] d IH]; simpl; [done|].
  intros Hin. apply not_elem_of_cons in Hin as [? ?].
  case_decide; subst; simpl; [done|]. f_equal. by apply IH.
Qed.
End odict_facts.

(** ** Building the adjacency and the in-degrees *)

Lemma first_occurrences_elem seen ids x :
  x ∈ seen ++ first_occurrences seen ids ↔ x ∈ seen ∨ x ∈ ids.
Proof.
  revert seen. induction ids as [|y ids IH]; intros seen; simpl.
  - rewrite app_nil_r. set_solver.
  - case_decide.
    + rewrite IH. set_solver.
    + rewrite (assoc_L (++) seen [y] _ : seen ++ y :: _ = _), IH. set_solver.
Qed.

Lemma first_occurrences_NoDup seen ids :
  NoDup seen → NoDup (seen ++ first_occurrences seen ids).
Proof.
  revert seen. induction ids as [|y ids IH]; intros seen Hnd; simpl.
  - by rewrite app_nil_r.
  - case_decide; [by apply IH|].
    rewrite (assoc_L (++) seen [y] _ : seen ++ y :: _ = _). apply IH.
    apply NoDup_app. split_and!; [done|set_solver|apply NoDup_singleton].
Qed.

Lemma first_occurrences_unique seen ids :
  NoDup ids → (∀ x, x ∈ ids → x ∉ seen) → first_occurrences seen ids = ids.
Proof.
  revert seen. induction ids as [|y ids IH]; intros seen Hnd Hdisj; simpl; [done|].
  apply NoDup_cons in Hnd as [Hy Hnd].
  rewrite decide_False by (apply Hdisj; set_solver).
  f_equal. apply IH; [done|]. intros x Hx. specialize (Hdisj x). set_solver.
Qed.

Lemma init_graph_fold (nodes : list Node)
    (g G : gmap string (list string)) (d D : list (string * Z)) :
  foldl (λ '(graph, in_degree) node,
           (<[node_id node := []]> graph, od_set (node_id node) 0%Z in_degree))
        (g, d) nodes = (G, D) →
  (∀ k, G !! k = if decide (k ∈ node_id <$> nodes) then Some [] else g !! k)
  ∧ (∀ k, od_get k D = if decide (k ∈ node_id <$> nodes) then Some 0%Z else od_get k d)
  ∧ D.*1 = d.*1 ++ first_occurrences d.*1 (node_id <$> nodes).
Proof.
  revert g d. induction nodes as [|n nodes IH]; intros g d; simpl.
  - intros [= <- <-]. rewrite app_nil_r. split_and!; intros; by rewrite ?decide_False by set_solver.
  - intros (HG & HD & HK)%IH. split_and!.
    + intros k. rewrite HG. rewrite lookup_insert.
      repeat case_decide; set_solver.
    + intros k. rewrite HD, od_get_set.
      repeat case_decide; set_solver.
    + rewrite HK. case_decide.
      * by rewrite od_set_keys_present.
      * rewrite od_set_keys_fresh by done. by rewrite <-(assoc_L (++)).
Qed.

Lemma init_graph_spec nodes G D :
  init_graph nodes = (G, D) →
  (∀ k, G !! k = if decide (k ∈ node_id <$> nodes) then Some [] else None)
  ∧ (∀ k, od_get k D = if decide (k ∈ node_id <$> nodes) then Some 0%Z else None)
  ∧ D.*1 = first_occurrences [] (node_id <$> nodes).
Proof.
  intros (HG & HD & HK)%init_graph_fold. split_and!; [| |done].
  - intros k. rewrite HG. by rewrite lookup_empty.
  - intros k. by rewrite HD.
Qed.

Lemma filter_length_split {A} (P Q R : A → Prop)
    `{!∀ x, Decision (P x), !∀ x, Decision (Q x), !∀ x, Decision (R x)}
    (l : list A) :
  (∀ x, x ∈ l → P x ↔ Q x ∨ R x) →
  (∀ x, x ∈ l → ¬ (Q x ∧ R x)) →
  length (filter P l) = length (filter Q l) + length (filter R l).
Proof.
  induction l as [|a l IH]; intros HP HQR; [done|].
  rewrite !filter_cons.
  specialize (HP a (list_elem_of_here _ _)) as Ha.
  specialize (HQR a (list_elem_of_here _ _)) as Ha'.
  assert (length (filter P l) = length (filter Q l) + length (filter R l)) as IH'.
  { apply IH; intros; [apply HP|apply HQR]; by apply list_elem_of_further. }
  repeat case_decide; simpl; try lia; tauto.
Qed.

Lemma successors_cons e edges s :
  successors (e :: edges) s =
  if decide (source e = s) then target e :: successors edges s
  else successors edges s.
Proof. unfold successors. rewrite filter_cons. by case_decide. Qed.

Lemma in_count_cons K e edges t :
  in_count K (e :: edges) t =
  (if decide (target e = t ∧ source e ∈ K) then 1 else 0) + in_count K edges t.
Proof. unfold in_count. rewrite filter_cons. by case_decide. Qed.

Lemma add_edges_spec K edges (G G' : gmap string (list string))
    (D D' : list (string * Z)) :
  (∀ s, is_Some (G !! s) ↔ s ∈ K) →
  add_edges edges G D = Ok (G', D') →
  (∀ s, G' !! s = (λ l, l ++ successors edges s) <$> G !! s)
  ∧ (∀ t, od_get t D' =
          (λ d, (d + Z.of_nat (in_count K edges t))%Z) <$> od_get t D)
  ∧ D'.*1 = D.*1
  ∧ (∀ e, e ∈ edges → source e ∈ K → target e ∈ D.*1).
Proof.
  revert G D. induction edges as [|e edges IH]; intros G D Hdom; simpl.
  - intros [= <- <-]. split_and!; [| |done|by intros ? ?%elem_of_nil].
    + intros s. destruct (G !! s); simpl; by rewrite ?app_nil_r.
    + intros t. destruct (od_get t D); simpl; f_equal; unfold in_count; simpl; lia.
  - destruct (G !! source e) as [targets|] eqn:Hs.
    + destruct (od_get (target e) D) as [d|] eqn:Ht; [|done].
      assert (source e ∈ K) as HsK by (apply Hdom; eauto).
      assert (target e ∈ D.*1) as HtD by (apply od_get_is_Some; eauto).
      intros (HG & HD & HK & Hcl)%IH; last first.
      { intros s. rewrite lookup_insert_is_Some'. rewrite <-Hdom. naive_solver. }
      rewrite od_set_keys_present in HK, Hcl by done.
      split_and!; [| |done|].
      * intros s. rewrite HG, successors_cons, lookup_insert.
        case_decide; subst; [|done]. rewrite Hs. simpl. by rewrite <-(assoc_L (++)).
      * intros t. rewrite HD, in_count_cons, od_get_set.
        destruct (decide (target e = t)) as [<-|Hne].
        -- rewrite Ht, decide_True by done. simpl. f_equal. lia.
        -- rewrite decide_False by tauto. done.
      * intros e' [->|?]%elem_of_cons ?; eauto.
    + assert (source e ∉ K) as HsK.
      { rewrite <-Hdom, Hs. by intros [? ?]. }
      intros (HG & HD & HK & Hcl)%IH; [|done].
      split_and!; [| |done|].
      * intros s. rewrite HG, successors_cons.
        case_decide; subst; [|done]. by rewrite Hs.
      * intros t. rewrite HD, in_count_cons.
        rewrite decide_False by naive_solver. done.
      * intros e' [->|?]%elem_of_cons ?; [done|eauto].
Qed.

Lemma add_edges_result (K : list string) edges (G : gmap string (list string))
    (D : list (string * Z)) :
  (∀ s, is_Some (G !! s) ↔ s ∈ K) →
  match add_edges edges G D with
  | Ok _ => True
  | Raise ex => ∃ e, e ∈ edges ∧ source e ∈ K ∧ (target e ∉ D.*1)
                     ∧ ex = KeyError (target e)
  end.
Proof.
  revert G D. induction edges as [|e edges IH]; intros G D Hdom; simpl; [done|].
  destruct (G !! source e) as [targets|] eqn:Hs.
  - assert (source e ∈ K) as HsK by (apply Hdom; eauto).
    destruct (od_get (target e) D) as [d|] eqn:Ht.
    + assert (target e ∈ D.*1) as HtD by (apply od_get_is_Some; eauto).
      match goal with |- match add_edges _ ?G1 ?D1 with _ => _ end =>
        specialize (IH G1 D1) end.
      destruct add_edges; [done|].
      destruct IH as (e' & ? & ? & Hnot & ->).
      { intros s. rewrite lookup_insert_is_Some'. rewrite <-Hdom. naive_solver. }
      rewrite od_set_keys_present in Hnot by done.
      exists e'. split_and!; [set_solver|done..].
    + exists e. split_and!; [set_solver|done| |done]. by apply od_get_None.
  - specialize (IH G D Hdom). destruct add_edges; [done|].
    destruct IH as (e' & ? & ? & ? & ->). exists e'. split_and!; [set_solver|done..].
Qed.

(** ** The loop of Kahn's algorithm *)

Lemma occ_cons n x l :
  occ n (x :: l) = (if decide (x = n) then 1 else 0) + occ n l.
Proof. unfold occ. rewrite filter_cons. by case_decide. Qed.

Lemma occ_successors edges c n :
  occ n (successors edges c)
  = length (filter (λ e, target e = n ∧ source e = c) edges).
Proof.
  induction edges as [|e edges IH]; [done|].
  rewrite successors_cons, filter_cons.
  destruct (decide (source e = c)) as [Hs|Hs].
  - rewrite occ_cons, IH. repeat case_decide; simpl; try lia; tauto.
  - rewrite IH. rewrite decide_False by tauto. done.
Qed.

Lemma elem_of_successors edges c x :
  x ∈ successors edges c ↔ ∃ e, e ∈ edges ∧ source e = c ∧ target e = x.
Proof.
  unfold successors. rewrite list_elem_of_fmap.
  setoid_rewrite list_elem_of_filter. naive_solver.
Qed.

Lemma remaining_step edges (K O : list string) c n :
  c ∈ K → c ∉ O →
  remaining edges K O n
  = remaining edges K (O ++ [c]) n + occ n (successors edges c).
Proof.
  intros HcK HcO. rewrite occ_successors. unfold remaining.
  apply filter_length_split.
  - intros e _. rewrite not_elem_of_app, list_elem_of_singleton.
    destruct (decide (source e = c)) as [->|]; naive_solver.
  - intros e _. rewrite not_elem_of_app, list_elem_of_singleton. naive_solver.
Qed.

Lemma remaining_zero edges (K O : list string) n e :
  remaining edges K O n = 0 →
  e ∈ edges → target e = n → source e ∈ K → source e ∈ O.
Proof.
  unfold remaining. intros Hz%length_zero_iff_nil He Ht Hs.
  destruct (decide (source e ∈ O)) as [|Hn]; [done|].
  assert (e ∈ filter (λ e, target e = n ∧ source e ∈ K ∧ source e ∉ O) edges) as Hin
    by (apply list_elem_of_filter; done).
  rewrite Hz in Hin. by apply elem_of_nil in Hin.
Qed.

Lemma remaining_pos edges (K O : list string) n :
  remaining edges K O n ≠ 0 →
  ∃ e, e ∈ edges ∧ target e = n ∧ source e ∈ K ∧ source e ∉ O.
Proof.
  unfold remaining. intros Hnz.
  destruct (filter _ edges) as [|e l] eqn:Hf; [done|].
  assert (e ∈ filter (λ e, target e = n ∧ source e ∈ K ∧ source e ∉ O) edges) as Hin
    by (rewrite Hf; apply list_elem_of_here).
  apply list_elem_of_filter in Hin. naive_solver.
Qed.

Section kahn.
Context (edges : list Edge) (K : list string) (G : gmap string (list string)).
Hypothesis HG : ∀ s, s ∈ K → G !! s = Some (successors edges s).
Hypothesis Hclosed : ∀ e, e ∈ edges → source e ∈ K → target e ∈ K.

Lemma visit_neighbors_inv todo D Q O :
  kahn_inv edges K D Q O todo →
  ∃ D' Q', visit_neighbors todo D Q = Ok (D', Q')
           ∧ kahn_inv edges K D' Q' O []
           ∧ Q `prefix_of` Q'.
Proof.
  revert D Q. induction todo as [|n todo IH]; intros D Q Hinv; simpl.
  { exists D, Q. done. }
  destruct Hinv as [Hdeg Hnd Hkeys Hready Htodo Hsorted].
  assert (n ∈ K) as HnK by (apply Htodo; set_solver).
  pose proof (Hdeg n HnK) as Hn. rewrite occ_cons, decide_True in Hn by done.
  rewrite Hn.
  assert (n ∉ O ++ Q) as Hfresh.
  { rewrite (Hready n HnK), occ_cons, decide_True by done. lia. }
  match goal with |- context [visit_neighbors todo ?D1 ?Q1] =>
    destruct (IH D1 Q1) as (D' & Q' & Hv & Hinv' & Hpre) end.
  - split.
    + intros m HmK. rewrite od_get_set. case_decide; subst.
      * f_equal. lia.
      * rewrite (Hdeg m HmK), occ_cons, decide_False by done. done.
    + case_decide; [|done]. rewrite (assoc_L (++)).
      apply NoDup_app. split_and!; [done| |apply NoDup_singleton].
      intros x Hx ->%list_elem_of_singleton. done.
    + intros x. case_decide; [|by apply Hkeys].
      rewrite (assoc_L (++)), elem_of_app, list_elem_of_singleton.
      intros [?| ->]; [by apply Hkeys|done].
    + intros m HmK. destruct (decide (m = n)) as [->|Hne].
      * case_decide.
        -- rewrite (assoc_L (++)), elem_of_app, list_elem_of_singleton.
           split; [lia|by right].
        -- split; [done|lia].
      * specialize (Hready m HmK).
        rewrite occ_cons, decide_False in Hready by done. simpl in Hready.
        rewrite <-Hready. case_decide; [|done].
        rewrite (assoc_L (++)), elem_of_app, list_elem_of_singleton. naive_solver.
    + intros x Hx. apply Htodo. set_solver.
    + done.
  - exists D', Q'. split_and!; [done..|].
    etrans; [|exact Hpre]. case_decide; [by apply prefix_app_r|done].
Qed.

Lemma kahn_inv_pop D c Q O :
  kahn_inv edges K D (c :: Q) O [] →
  kahn_inv edges K D Q (O ++ [c]) (successors edges c).
Proof.
  intros [Hdeg Hnd Hkeys Hready _ Hsorted].
  assert (c ∈ K) as HcK by (apply Hkeys; set_solver).
  assert (c ∉ O) as HcO.
  { apply NoDup_app in Hnd as (_ & Hd & _). intros Hc. apply (Hd c Hc). set_solver. }
  assert (remaining edges K O c = 0) as Hc0.
  { specialize (Hready c HcK). unfold occ in Hready. simpl in Hready.
    rewrite Nat.add_0_r in Hready. apply Hready. set_solver. }
  split.
  - intros n HnK. rewrite (Hdeg n HnK). unfold occ at 1. simpl.
    rewrite Nat.add_0_r. by rewrite (remaining_step edges K O c n).
  - by rewrite <-(assoc_L (++)).
  - intros x. rewrite <-(assoc_L (++)). apply Hkeys.
  - intros n HnK. rewrite <-(assoc_L (++)). simpl.
    rewrite (Hready n HnK). unfold occ at 1. simpl.
    rewrite Nat.add_0_r. by rewrite (remaining_step edges K O c n).
  - intros x (e & He & Hs & Ht)%elem_of_successors. subst. by apply Hclosed.
  - intros e He HsK [HtO|Ht%list_elem_of_singleton]%elem_of_app.
    + destruct (Hsorted e He HsK HtO) as (i & j & Hij & Hi & Hj).
      exists i, j. split_and!; [done|by apply lookup_app_l_Some..].
    + assert (source e ∈ O) as HsO
        by (by apply (remaining_zero edges K O c e)).
      apply list_elem_of_lookup in HsO as [i Hi].
      rewrite Ht. exists i, (length O). split_and!.
      * by eapply lookup_lt_Some.
      * by apply lookup_app_l_Some.
      * rewrite lookup_app_r by lia. by rewrite Nat.sub_diag.
Qed.

Lemma kahn_loop_inv fuel D Q O r :
  kahn_inv edges K D Q O [] →
  kahn_loop fuel G D Q O = Some r →
  ∃ O' D', r = Ok O' ∧ kahn_inv edges K D' [] O' [] ∧ (O ++ Q) `prefix_of` O'.
Proof.
  revert D Q O. induction fuel as [|fuel IH]; intros D Q O Hinv;
    destruct Q as [|c Q]; simpl; try done.
  - intros [= <-]. exists O, D. by rewrite app_nil_r.
  - intros [= <-]. exists O, D. by rewrite app_nil_r.
  - assert (c ∈ K) as HcK by (apply (inv_keys _ _ _ _ _ _ Hinv); set_solver).
    rewrite (HG c HcK).
    apply kahn_inv_pop in Hinv.
    destruct (visit_neighbors_inv _ _ _ _ Hinv) as (D' & Q' & -> & Hinv' & Hpre).
    intros (O' & D'' & -> & Hfin & Hpre')%IH; [|done].
    exists O', D''. split_and!; [done..|].
    etrans; [|exact Hpre']. rewrite <-(assoc_L (++)). simpl.
    apply prefix_app, prefix_cons, Hpre.
Qed.
(** The loop passes through every prefix of the order it returns. *)
Lemma kahn_loop_states fuel D Q O O' :
  kahn_inv edges K D Q O [] →
  kahn_loop fuel G D Q O = Some (Ok O') →
  ∀ i, length O ≤ i ≤ length O' →
    ∃ D_i Q_i, kahn_inv edges K D_i Q_i (take i O') []
               ∧ take i O' ++ Q_i `prefix_of` O'.
Proof.
  revert D Q O. induction fuel as [|fuel IH]; intros D Q O Hinv Hrun i Hi.
  - destruct Q as [|c Q]; [|done]. simpl in Hrun. injection Hrun as <-.
    exists D, []. rewrite take_ge by lia. by rewrite app_nil_r.
  - destruct (kahn_loop_inv _ _ _ _ _ Hinv Hrun) as (O'' & _ & [= <-] & _ & Hpre).
    destruct (decide (i = length O)) as [->|Hne].
    { exists D, Q. destruct Hpre as [rest ->].
      rewrite <-(assoc_L (++)), take_app_length. split; [done|].
      rewrite (assoc_L (++)). by apply prefix_app_r. }
    destruct Q as [|c Q].
    { simpl in Hrun. injection Hrun as <-. lia. }
    simpl in Hrun.
    assert (c ∈ K) as HcK by (apply (inv_keys _ _ _ _ _ _ Hinv); set_solver).
    rewrite (HG c HcK) in Hrun.
    apply kahn_inv_pop in Hinv.
    destruct (visit_neighbors_inv _ _ _ _ Hinv) as (D' & Q' & Hv & Hinv' & _).
    rewrite Hv in Hrun.
    apply (IH _ _ _ Hinv' Hrun). rewrite length_app. simpl. lia.
Qed.
End kahn.

(** *** The queue is first in, first out *)

Lemma occ_zero n l : occ n l = 0 ↔ n ∉ l.
Proof.
  induction l as [|x l IH]; [by split; [intros _ ?%elem_of_nil|]|].
  rewrite occ_cons, not_elem_of_cons. case_decide; [|rewrite <-IH]; split.
  - lia.
  - intros [? _]. congruence.
  - intros ?. split; [congruence|lia].
  - intros [_ ?]. lia.
Qed.

Lemma freed_in_turn_app edges ids done rest rest' :
  freed_in_turn edges ids done (rest ++ rest')
  = freed_in_turn edges ids done rest
      ++ freed_in_turn edges ids (done ++ rest) rest'.
Proof.
  revert done. induction rest as [|c rest IH]; intros done; simpl.
  - by rewrite app_nil_r.
  - rewrite IH, <-!(assoc_L (++)). done.
Qed.

Section kahn_queue.
Context (edges : list Edge) (K ids : list string) (G : gmap string (list string)).
Hypothesis HG : ∀ s, s ∈ K → G !! s = Some (successors edges s).
Hypothesis Hclosed : ∀ e, e ∈ edges → source e ∈ K → target e ∈ K.
Hypothesis HKids : ∀ x, x ∈ K ↔ x ∈ ids.

(** One neighbour visited: its count goes down by one, and it joins the
    queue when nothing is left of it. *)
Lemma kahn_inv_visit n todo D Q O :
  kahn_inv edges K D Q O (n :: todo) →
  od_get n D = Some (Z.of_nat (remaining edges K O n + occ n todo) + 1)%Z
  ∧ kahn_inv edges K
      (od_set n (Z.of_nat (remaining edges K O n + occ n todo)) D)
      (if decide (remaining edges K O n + occ n todo = 0) then Q ++ [n] else Q)
      O todo.
Proof.
  intros [Hdeg Hnd Hkeys Hready Htodo Hsorted].
  assert (n ∈ K) as HnK by (apply Htodo; set_solver).
  pose proof (Hdeg n HnK) as Hn. rewrite occ_cons, decide_True in Hn by done.
  assert (n ∉ O ++ Q) as Hfresh.
  { rewrite (Hready n HnK), occ_cons, decide_True by done. lia. }
  split; [rewrite Hn; f_equal; lia|]. split.
  - intros m HmK. rewrite od_get_set. case_decide; subst; [done|].
    by rewrite (Hdeg m HmK), occ_cons, decide_False by done.
  - case_decide; [|done]. rewrite (assoc_L (++)).
    apply NoDup_app. split_and!; [done| |apply NoDup_singleton].
    intros x Hx ->%list_elem_of_singleton. done.
  - intros x. case_decide; [|by apply Hkeys].
    rewrite (assoc_L (++)), elem_of_app, list_elem_of_singleton.
    intros [?| ->]; [by apply Hkeys|done].
  - intros m HmK. destruct (decide (m = n)) as [->|Hne].
    + case_decide.
      * rewrite (assoc_L (++)), elem_of_app, list_elem_of_singleton.
        split; [done|by right].
      * split; [done|lia].
    + specialize (Hready m HmK).
      rewrite occ_cons, decide_False in Hready by done. simpl in Hready.
      rewrite <-Hready. case_decide; [|done].
      rewrite (assoc_L (++)), elem_of_app, list_elem_of_singleton. naive_solver.
  - intros x Hx. apply Htodo. set_solver.
  - done.
Qed.

(** The neighbours visited: the queue grows by those of them that have
    nothing left, each at its last occurrence. *)
Lemma visit_neighbors_queue todo D Q O D' Q' :
  kahn_inv edges K D Q O todo →
  visit_neighbors todo D Q = Ok (D', Q') →
  Q' = Q ++ filter (λ n, remaining edges K O n = 0) (last_occurrences todo).
Proof.
  revert D Q. induction todo as [|n todo IH]; intros D Q Hinv; simpl.
  { intros [= <- <-]. by rewrite app_nil_r. }
  destruct (kahn_inv_visit _ _ _ _ _ Hinv) as [Hn Hinv']. rewrite Hn.
  replace (Z.of_nat (remaining edges K O n + occ n todo) + 1 - 1)%Z
    with (Z.of_nat (remaining edges K O n + occ n todo)) by lia.
  intros Hv.
  destruct (decide (remaining edges K O n + occ n todo = 0)) as [Hz|Hnz].
  - rewrite decide_True in Hv by lia. apply IH in Hv; [|done]. rewrite Hv.
    assert (n ∉ todo) as Hlast by (apply occ_zero; lia).
    rewrite decide_False by done. rewrite filter_cons_True by lia.
    by rewrite <-(assoc_L (++)).
  - rewrite decide_False in Hv by lia. apply IH in Hv; [|done]. rewrite Hv.
    destruct (decide (n ∈ todo)) as [Hin|Hout]; [done|].
    rewrite filter_cons_False; [done|].
    apply occ_zero in Hout. lia.
Qed.

Lemma freed_remaining done c :
  freed edges ids done c
  = filter (λ n, remaining edges K (done ++ [c]) n = 0)
           (last_occurrences (successors edges c)).
Proof.
  unfold freed. apply list_filter_iff. intros n. split.
  - intros Hready.
    destruct (decide (remaining edges K (done ++ [c]) n = 0)) as [|Hnz]; [done|].
    apply remaining_pos in Hnz as (e & He & Ht & Hs & Hout).
    destruct Hout. apply Hready; [done..|by apply HKids].
  - intros Hzero e He Ht Hs. eapply remaining_zero; [done..|by apply HKids].
Qed.

(** The loop keeps the order and the queue, one after the other, equal
    to the initial candidates followed by the nodes freed in turn. *)
Lemma kahn_loop_queue fuel D Q O O' initial :
  kahn_inv edges K D Q O [] →
  kahn_loop fuel G D Q O = Some (Ok O') →
  O ++ Q = initial ++ freed_in_turn edges ids [] O →
  O' = initial ++ freed_in_turn edges ids [] O'.
Proof.
  revert D Q O. induction fuel as [|fuel IH]; intros D Q O Hinv;
    destruct Q as [|c Q]; simpl; try done.
  - intros [= <-]. by rewrite app_nil_r.
  - intros [= <-]. by rewrite app_nil_r.
  - assert (c ∈ K) as HcK by (apply (inv_keys _ _ _ _ _ _ Hinv); set_solver).
    rewrite (HG c HcK).
    apply (kahn_inv_pop edges K G HG Hclosed) in Hinv.
    destruct (visit_neighbors_inv edges K G HG Hclosed _ _ _ _ Hinv)
      as (D' & Q' & Hv & Hinv' & _).
    rewrite Hv. pose proof (visit_neighbors_queue _ _ _ _ _ _ Hinv Hv) as ->.
    intros Hrun Hqueue. apply (IH _ _ _ Hinv' Hrun).
    rewrite freed_in_turn_app. simpl. rewrite app_nil_r, freed_remaining.
    rewrite !(assoc_L (++)), <-Hqueue. by rewrite <-!(assoc_L (++)).
Qed.
End kahn_queue.

(** *** The loop runs within its fuel *)

Lemma positive_count_cons kv (D : list (string * Z)) :
  positive_count (kv :: D)
  = (if decide (0 < kv.2)%Z then 1 else 0) + positive_count D.
Proof. unfold positive_count. rewrite filter_cons. by case_decide. Qed.

Lemma positive_count_set n d v (D : list (string * Z)) :
  od_get n D = Some d →
  positive_count (od_set n v D) + (if decide (0 < d)%Z then 1 else 0)
  = positive_count D + (if decide (0 < v)%Z then 1 else 0).
Proof.
  induction D as [|[k0 v0] D IH]; simpl; [done|].
  destruct (decide (k0 = n)) as [->|Hne].
  - intros [= ->]. rewrite !positive_count_cons. simpl. lia.
  - intros Hget%IH. rewrite !positive_count_cons. simpl. lia.
Qed.

Lemma visit_neighbors_measure neighbors D Q D' Q' :
  visit_neighbors neighbors D Q = Ok (D', Q') →
  length Q' + positive_count D' = length Q + positive_count D.
Proof.
  revert D Q. induction neighbors as [|n neighbors IH]; intros D Q; simpl.
  - by intros [= <- <-].
  - destruct (od_get n D) as [d|] eqn:Hn; [|done].
    intros ->%IH. pose proof (positive_count_set n d (d - 1)%Z D Hn) as Hpc.
    repeat case_decide; rewrite ?length_app; simpl; lia.
Qed.

Lemma kahn_loop_fuel fuel G D Q O :
  length Q + positive_count D ≤ fuel →
  is_Some (kahn_loop fuel G D Q O).
Proof.
  revert D Q O. induction fuel as [|fuel IH]; intros D Q O Hle;
    destruct Q as [|c Q]; simpl in *; eauto; [lia|].
  destruct (G !! c) as [neighbors|]; [|eauto].
  destruct (visit_neighbors neighbors D Q) as [[D' Q']|] eqn:Hv; [|eauto].
  apply IH. apply visit_neighbors_measure in Hv. lia.
Qed.

(** *** The state the loop starts from *)

Lemma od_get_elem {V} k (v : V) (D : list (string * V)) :
  NoDup D.*1 → (k, v) ∈ D → od_get k D = Some v.
Proof.
  induction D as [|[k0 v0] D IH]; simpl; [by intros _ ?%elem_of_nil|].
  intros [Hk0 Hnd]%NoDup_cons [[= -> ->]|Hin]%elem_of_cons.
  - by rewrite decide_True.
  - rewrite decide_False; [by apply IH|].
    intros ->. apply Hk0. apply list_elem_of_fmap. by exists (k, v).
Qed.

Lemma ready_keys (f : string → Z) (D : list (string * Z)) :
  NoDup D.*1 →
  (∀ k, k ∈ D.*1 → od_get k D = Some (f k)) →
  (filter (λ kv, kv.2 = 0%Z) D).*1 = filter (λ k, f k = 0%Z) D.*1.
Proof.
  intros Hnd Hf.
  assert (∀ kv, kv ∈ D → kv.2 = f kv.1) as Hval.
  { intros [k v] Hin. simpl.
    pose proof (od_get_elem k v D Hnd Hin) as Hget.
    rewrite Hf in Hget; [congruence|]. apply list_elem_of_fmap. by exists (k, v). }
  clear Hnd Hf. induction D as [|[k v] D IH]; [done|].
  rewrite fmap_cons, !filter_cons. simpl.
  pose proof (Hval (k, v) (list_elem_of_here _ _)) as Hkv. simpl in Hkv.
  rewrite <-IH by (intros; apply Hval; by apply list_elem_of_further).
  repeat case_decide; simpl; first [done|congruence].
Qed.

Lemma first_occurrences_keys ids x :
  x ∈ first_occurrences [] ids ↔ x ∈ ids.
Proof.
  pose proof (first_occurrences_elem [] ids x) as H. simpl in H.
  rewrite H. set_solver.
Qed.

Lemma kahn_inv_init edges (K : list string) (D : list (string * Z)) :
  NoDup K →
  (∀ n, n ∈ K → od_get n D = Some (Z.of_nat (in_count K edges n))) →
  kahn_inv edges K D (filter (λ n, in_count K edges n = 0) K) [] [].
Proof.
  intros Hnd HD.
  assert (∀ n, remaining edges K [] n + occ n [] = in_count K edges n) as Hrem.
  { intros n. unfold remaining, occ, in_count. simpl. rewrite Nat.add_0_r.
    f_equal. apply list_filter_iff. intros e. set_solver. }
  split; simpl.
  - intros n HnK. by rewrite Hrem, HD.
  - by apply NoDup_filter.
  - intros x Hx%list_elem_of_filter. tauto.
  - intros n HnK. rewrite Hrem, list_elem_of_filter. tauto.
  - by intros x ?%elem_of_nil.
  - by intros e _ _ ?%elem_of_nil.
Qed.

(** *** What [build_execution_graph] returns, whatever the input *)

Lemma build_execution_graph_cases nodes edges :
  let ids := node_id <$> nodes in
  let K := first_occurrences [] ids in
  (∃ e, e ∈ edges ∧ source e ∈ ids ∧ (target e ∉ ids)
        ∧ build_execution_graph nodes edges = Raise (KeyError (target e)))
  ∨ ((∀ e, e ∈ edges → source e ∈ ids → target e ∈ ids)
     ∧ ∃ O, NoDup O
        ∧ (∀ x, x ∈ O → x ∈ ids)
        ∧ (∀ n, n ∈ ids → n ∈ O ↔ remaining edges K O n = 0)
        ∧ topo_closed edges K O
        ∧ filter (λ n, in_count K edges n = 0) K `prefix_of` O
        ∧ build_execution_graph nodes edges
          = (if decide (length O ≠ length nodes)
             then Raise (ValueError cycle_message) else Ok O)
        ∧ ∀ i, i ≤ length O →
            ∃ Q, (∀ n, n ∈ ids →
                    n ∈ take i O ++ Q ↔ remaining edges K (take i O) n = 0)
                 ∧ take i O ++ Q `prefix_of` O).
Proof.
  intros ids K. unfold build_execution_graph.
  destruct (init_graph nodes) as [G0 D0] eqn:Hinit.
  apply init_graph_spec in Hinit as (HG0 & HD0 & HK0). fold ids in HG0, HD0, HK0.
  fold K in HK0.
  assert (∀ x, x ∈ K ↔ x ∈ ids) as HKids by apply first_occurrences_keys.
  assert (NoDup K) as HndK by apply (first_occurrences_NoDup [] ids), NoDup_nil_2.
  assert (∀ s, is_Some (G0 !! s) ↔ s ∈ K) as Hdom.
  { intros s. rewrite HG0, HKids. case_decide; [by eauto|].
    split; [by intros [? ?]|done]. }
  pose proof (add_edges_result K edges G0 D0 Hdom) as Hres.
  destruct (add_edges edges G0 D0) as [[G D]|ex] eqn:Hadd.
  - right. apply (add_edges_spec K) in Hadd as (HG & HD & HK & Hcl); [|done].
    rewrite HK0 in HK, Hcl.
    assert (∀ e, e ∈ edges → source e ∈ K → target e ∈ K) as Hclosed by done.
    split; [intros e ? ?; apply HKids, Hclosed; [done|by apply HKids]|].
    assert (∀ s, s ∈ K → G !! s = Some (successors edges s)) as HGs.
    { intros s Hs. rewrite HG, HG0, decide_True by (by apply HKids). done. }
    assert (∀ n, n ∈ K → od_get n D = Some (Z.of_nat (in_count K edges n))) as HDn.
    { intros n Hn. rewrite HD, HD0, decide_True by (by apply HKids). done. }
    rewrite (ready_keys (λ n, Z.of_nat (in_count K edges n)) D), HK;
      [|by rewrite HK|by intros k; rewrite HK; apply HDn].
    rewrite (list_filter_iff (λ k, Z.of_nat (in_count K edges k) = 0%Z)
                             (λ n, in_count K edges n = 0)) by (intros; lia).
    set (Q := filter (λ n, in_count K edges n = 0) K).
    pose proof (kahn_inv_init edges K D HndK HDn) as Hinv. fold Q in Hinv.
    destruct (kahn_loop_fuel (length Q + positive_count D) G D Q [])
      as [r Hr]; [done|].
    rewrite Hr.
    destruct (kahn_loop_inv edges K G HGs Hclosed _ _ _ _ _ Hinv Hr)
      as (O & D' & -> & [Hdeg Hnd Hkeys Hready _ Hsorted] & Hpre).
    rewrite app_nil_r in Hnd, Hkeys, Hready. simpl in Hpre.
    exists O. split_and!; [done| | |done|done|done|].
    + intros x Hx. by apply HKids, Hkeys.
    + intros n Hn%HKids. rewrite (Hready n Hn). unfold occ. simpl. lia.
    + intros i Hi.
      destruct (kahn_loop_states edges K G HGs Hclosed _ _ _ _ _ Hinv Hr i)
        as (D_i & Q_i & [_ _ _ Hready_i _ _] & Hpre_i); [simpl; lia|].
      exists Q_i. split; [|done].
      intros n Hn%HKids. rewrite (Hready_i n Hn). unfold occ. simpl. lia.
  - left. destruct Hres as (e & He & Hs & Ht & ->).
    exists e. rewrite HK0 in Ht. rewrite <-!HKids. done.
Qed.

(** An order that is returned is the queue as it was filled: the
    initial candidates, then the nodes freed by each node of the order
    in turn. *)
Lemma build_execution_graph_queue nodes edges order :
  build_execution_graph nodes edges = Ok order →
  let ids := node_id <$> nodes in
  let K := first_occurrences [] ids in
  order = filter (λ n, in_count K edges n = 0) K
            ++ freed_in_turn edges ids [] order.
Proof.
  intros Hok ids K. revert Hok. unfold build_execution_graph.
  destruct (init_graph nodes) as [G0 D0] eqn:Hinit.
  apply init_graph_spec in Hinit as (HG0 & HD0 & HK0). fold ids in HG0, HD0, HK0.
  fold K in HK0.
  assert (∀ x, x ∈ K ↔ x ∈ ids) as HKids by apply first_occurrences_keys.
  assert (NoDup K) as HndK by apply (first_occurrences_NoDup [] ids), NoDup_nil_2.
  assert (∀ s, is_Some (G0 !! s) ↔ s ∈ K) as Hdom.
  { intros s. rewrite HG0, HKids. case_decide; [by eauto|].
    split; [by intros [? ?]|done]. }
  destruct (add_edges edges G0 D0) as [[G D]|ex] eqn:Hadd; [|done].
  apply (add_edges_spec K) in Hadd as (HG & HD & HK & Hcl); [|done].
  rewrite HK0 in HK, Hcl.
  assert (∀ e, e ∈ edges → source e ∈ K → target e ∈ K) as Hclosed by done.
  assert (∀ s, s ∈ K → G !! s = Some (successors edges s)) as HGs.
  { intros s Hs. rewrite HG, HG0, decide_True by (by apply HKids). done. }
  assert (∀ n, n ∈ K → od_get n D = Some (Z.of_nat (in_count K edges n))) as HDn.
  { intros n Hn. rewrite HD, HD0, decide_True by (by apply HKids). done. }
  rewrite (ready_keys (λ n, Z.of_nat (in_count K edges n)) D), HK;
    [|by rewrite HK|by intros k; rewrite HK; apply HDn].
  rewrite (list_filter_iff (λ k, Z.of_nat (in_count K edges k) = 0%Z)
                           (λ n, in_count K edges n = 0)) by (intros; lia).
  set (Q := filter (λ n, in_count K edges n = 0) K).
  pose proof (kahn_inv_init edges K D HndK HDn) as Hinv. fold Q in Hinv.
  destruct (kahn_loop (length Q + positive_count D) G D Q [])
    as [[O|e]|] eqn:Hr; [|done..].
  case_decide; [done|]. intros [= <-].
  apply (kahn_loop_queue edges K ids G HGs Hclosed HKids _ _ _ _ _ Q Hinv Hr).
  simpl. by rewrite app_nil_r.
Qed.

Lemma before_app_middle (A B C : list string) x y :
  before B x y → before (A ++ B ++ C) x y.
Proof.
  intros (i & j & Hij & Hi & Hj). exists (length A + i), (length A + j).
  split_and!; [lia| |].
  - rewrite lookup_app_r by lia.
    replace (length A + i - length A) with i by lia. by apply lookup_app_l_Some.
  - rewrite lookup_app_r by lia.
    replace (length A + j - length A) with j by lia. by apply lookup_app_l_Some.
Qed.

(** *** Cycles and completeness of the order *)

Lemma before_trans (O : list string) a b c :
  NoDup O → before O a b → before O b c → before O a c.
Proof.
  intros Hnd (i & j & Hij & Hi & Hj) (j' & k & Hjk & Hj' & Hk).
  assert (j = j') as <- by (by eapply NoDup_lookup).
  exists i, k. split_and!; [lia|done..].
Qed.

Lemma before_irrefl (O : list string) a : NoDup O → ¬ before O a a.
Proof.
  intros Hnd (i & j & Hij & Hi & Hj).
  assert (i = j) by (by eapply NoDup_lookup). lia.
Qed.

(** Along a path every step goes forward in a closed order. *)
Lemma tc_before edges (K O : list string) a b :
  NoDup O → topo_closed edges K O →
  (∀ e, e ∈ edges → source e ∈ K ∧ target e ∈ O) →
  tc (edge_rel edges) a b → before O a b.
Proof.
  intros Hnd Hsorted Hall. induction 1 as [a b (e & He & <- & <-)|a b c (e & He & <- & <-) _ IH].
  - apply Hsorted; [done|apply Hall..]; done.
  - eapply before_trans; [done| |exact IH].
    apply Hsorted; [done|apply Hall..]; done.
Qed.

(** In an acyclic graph, a set in which every member has a predecessor
    holds arbitrarily many distinct ancestors of each member. *)
Lemma ancestors_unbounded edges (U : string → Prop) :
  acyclic edges →
  (∀ n, U n → ∃ s, U s ∧ edge_rel edges s n) →
  ∀ k n, U n →
    ∃ l, length l = k ∧ NoDup l ∧ ∀ x, x ∈ l → U x ∧ tc (edge_rel edges) x n.
Proof.
  intros Hacyc Hpred k. induction k as [|k IH]; intros n Hn.
  - exists []. split_and!; [done|apply NoDup_nil_2|by intros ? ?%elem_of_nil].
  - destruct (Hpred n Hn) as (s & Hs & Hsn).
    destruct (IH s Hs) as (l & Hlen & Hnd & Hl).
    exists (s :: l). split_and!; [by rewrite <-Hlen| |].
    + apply NoDup_cons. split; [|done].
      intros Hin. destruct (Hl s Hin) as [_ Hcyc]. by apply (Hacyc s).
    + intros x [->|Hx]%elem_of_cons.
      * split; [done|by apply tc_once].
      * destruct (Hl x Hx) as [HU Htc]. split; [done|].
        eapply tc_r; done.
Qed.

Lemma NoDup_bounded_length (l ids : list string) :
  NoDup l → (∀ x, x ∈ l → x ∈ ids) → length l ≤ length ids.
Proof. intros Hnd Hsub. by apply submseteq_length, NoDup_submseteq. Qed.

(** When the loop stops in an acyclic graph, every node is in the order. *)
Lemma acyclic_complete edges (ids K O : list string) :
  (∀ x, x ∈ K ↔ x ∈ ids) →
  acyclic edges →
  (∀ n, n ∈ ids → n ∈ O ↔ remaining edges K O n = 0) →
  ∀ n, n ∈ ids → n ∈ O.
Proof.
  intros HKids Hacyc Hready n Hn.
  destruct (decide (n ∈ O)) as [|HnO]; [done|exfalso].
  set (U := λ x : string, x ∈ ids ∧ x ∉ O).
  assert (∀ x, U x → ∃ s, U s ∧ edge_rel edges s x) as Hpred.
  { intros x [Hx HxO]. rewrite (Hready x Hx) in HxO.
    apply remaining_pos in HxO as (e & He & Ht & HsK & HsO).
    exists (source e). split; [split; [by apply HKids|done]|by exists e]. }
  destruct (ancestors_unbounded edges U Hacyc Hpred (S (length ids)) n)
    as (l & Hlen & Hnd & Hl); [done|].
  assert (length l ≤ length ids) as Hle.
  { apply NoDup_bounded_length; [done|]. intros x Hx. by apply Hl. }
  lia.
Qed.

(** ** The execution order *)

(** A ranking that grows along every edge rules out cycles. *)
Lemma acyclic_of_rank edges (rank : string → nat) :
  Forall (λ e, rank (source e) < rank (target e)) edges → acyclic edges.
Proof.
  intros Hrank v Hcyc.
  assert (∀ a b, tc (edge_rel edges) a b → rank a < rank b) as Hlt.
  { rewrite Forall_forall in Hrank.
    induction 1 as [a b (e & He & <- & <-)|a b c (e & He & <- & <-) _ IH].
    - by apply Hrank.
    - etrans; [by apply Hrank|done]. }
  specialize (Hlt v v Hcyc). lia.
Qed.

(** C1: for a graph with unique node ids, edges between listed nodes and
    no directed cycle, [build_execution_graph] returns an order that is
    a permutation of the node ids, as long as the node list, in which
    the source of every edge comes strictly before its target. *)
Theorem build_execution_graph_topological nodes edges :
  NoDup (node_id <$> nodes) →
  (∀ e, e ∈ edges → source e ∈ node_id <$> nodes ∧ target e ∈ node_id <$> nodes) →
  acyclic edges →
  ∃ order,
    build_execution_graph nodes edges = Ok order
    ∧ order ≡ₚ node_id <$> nodes
    ∧ length order = length nodes
    ∧ ∀ e, e ∈ edges → before order (source e) (target e).
Proof.
  intros Hnd Hedges Hacyc.
  destruct (build_execution_graph_cases nodes edges)
    as [(e & He & _ & Ht & _)|(_ & O & HndO & Hsub & Hready & Hsorted & _ & Hres & _)].
  { destruct (Hedges e He) as [_ ?]. done. }
  assert (∀ x, x ∈ first_occurrences [] (node_id <$> nodes) ↔ x ∈ node_id <$> nodes)
    as HKids by apply first_occurrences_keys.
  assert (∀ n, n ∈ node_id <$> nodes → n ∈ O) as Hall
    by (by eapply acyclic_complete).
  assert (O ≡ₚ node_id <$> nodes) as Hperm.
  { apply NoDup_Permutation; [done..|]. intros x. split; [apply Hsub|apply Hall]. }
  assert (length O = length nodes) as Hlen
    by (by rewrite Hperm, length_fmap).
  exists O. rewrite Hres, decide_False by lia. split_and!; [done..|].
  intros e He. destruct (Hedges e He) as [Hs Ht].
  apply Hsorted; [done|by apply HKids|by apply Hall].
Qed.

(** C2: for a graph with unique node ids and edges between listed nodes,
    a directed cycle makes [build_execution_graph] raise the cycle
    error instead of returning an order. *)
Theorem build_execution_graph_cycle nodes edges :
  NoDup (node_id <$> nodes) →
  (∀ e, e ∈ edges → source e ∈ node_id <$> nodes ∧ target e ∈ node_id <$> nodes) →
  (∃ v, tc (edge_rel edges) v v) →
  build_execution_graph nodes edges = Raise (ValueError cycle_message).
Proof.
  intros Hnd Hedges [v Hcyc].
  destruct (build_execution_graph_cases nodes edges)
    as [(e & He & _ & Ht & _)|(_ & O & HndO & Hsub & Hready & Hsorted & _ & Hres & _)].
  { destruct (Hedges e He) as [_ ?]. done. }
  rewrite Hres. case_decide as Hlen; [done|exfalso].
  assert (length O = length nodes) as Hlen' by lia.
  assert (O ≡ₚ node_id <$> nodes) as Hperm.
  { apply submseteq_length_Permutation; [by apply NoDup_submseteq|].
    rewrite length_fmap. lia. }
  assert (∀ x, x ∈ first_occurrences [] (node_id <$> nodes) ↔ x ∈ node_id <$> nodes)
    as HKids by apply first_occurrences_keys.
  apply (before_irrefl O v HndO).
  eapply tc_before; [done..| |done].
  intros e He. destruct (Hedges e He) as [Hs Ht].
  split; [by apply HKids|by rewrite Hperm].
Qed.

(** C5 (as the code has it): when two nodes share an id,
    [build_execution_graph] never returns an order, and what it raises
    is the error it raises for a cycle, or a [KeyError] for an edge that
    leaves a listed node and enters an id that is not listed; it has no
    error of its own for duplicate ids. *)
Theorem build_execution_graph_duplicate_ids nodes edges :
  ¬ NoDup (node_id <$> nodes) →
  build_execution_graph nodes edges = Raise (ValueError cycle_message)
  ∨ ∃ e, e ∈ edges ∧ source e ∈ node_id <$> nodes
         ∧ (target e ∉ node_id <$> nodes)
         ∧ build_execution_graph nodes edges = Raise (KeyError (target e)).
Proof.
  intros Hdup.
  destruct (build_execution_graph_cases nodes edges)
    as [(e & He & Hs & Ht & Hres)|(_ & O & HndO & Hsub & _ & _ & _ & Hres & _)].
  { right. by exists e. }
  left. rewrite Hres. case_decide as Hlen; [done|exfalso].
  apply Hdup.
  assert (O ≡ₚ node_id <$> nodes) as <-; [|done].
  apply submseteq_length_Permutation; [by apply NoDup_submseteq|].
  rewrite length_fmap. lia.
Qed.

Lemma build_execution_graph_Ok nodes edges order :
  build_execution_graph nodes edges = Ok order →
  NoDup order
  ∧ order ≡ₚ node_id <$> nodes
  ∧ topo_closed edges (first_occurrences [] (node_id <$> nodes)) order
  ∧ filter (λ n, in_count (first_occurrences [] (node_id <$> nodes)) edges n = 0)
           (first_occurrences [] (node_id <$> nodes)) `prefix_of` order.
Proof.
  intros Hok.
  destruct (build_execution_graph_cases nodes edges)
    as [(e & _ & _ & _ & Hres)|(_ & O & HndO & Hsub & _ & Hsorted & Hpre & Hres & _)].
  { congruence. }
  rewrite Hres in Hok. case_decide as Hlen; [done|]. injection Hok as <-.
  split_and!; [done| |done|done].
  apply submseteq_length_Permutation; [by apply NoDup_submseteq|].
  rewrite length_fmap. lia.
Qed.

Lemma filter_all {A} (P : A → Prop) `{!∀ x, Decision (P x)} (l : list A) :
  (∀ x, x ∈ l → P x) → filter P l = l.
Proof.
  induction l as [|a l IH]; intros HP; [done|].
  rewrite filter_cons_True by (apply HP; left).
  f_equal. apply IH. intros x Hx. apply HP. by right.
Qed.

Lemma filter_none {A} (P : A → Prop) `{!∀ x, Decision (P x)} (l : list A) :
  (∀ x, x ∈ l → ¬ P x) → filter P l = [].
Proof.
  induction l as [|a l IH]; intros HP; [done|].
  rewrite filter_cons_False by (apply HP; left).
  apply IH. intros x Hx. apply HP. by right.
Qed.

Lemma ready_remaining edges (ids K done : list string) n :
  (∀ x, x ∈ K ↔ x ∈ ids) →
  ready edges ids done n ↔ remaining edges K done n = 0.
Proof.
  intros HKids. split.
  - intros Hready. unfold remaining. rewrite filter_none; [done|].
    intros e He (Ht & Hs & Hdone). apply Hdone, Hready; [done..|by apply HKids].
  - intros Hzero e He Ht Hs. eapply remaining_zero; [done..|by apply HKids].
Qed.

(** A node that is a candidate at a moment when another is not comes
    out before that other one. *)
Lemma build_execution_graph_readiness nodes edges order i x y :
  build_execution_graph nodes edges = Ok order →
  i ≤ length order →
  x ∈ node_id <$> nodes → y ∈ node_id <$> nodes →
  ready edges (node_id <$> nodes) (take i order) x →
  ¬ ready edges (node_id <$> nodes) (take i order) y →
  before order x y.
Proof.
  intros Hok Hi Hx Hy Hrx Hry.
  pose proof Hok as (_ & Hperm & _)%build_execution_graph_Ok.
  destruct (build_execution_graph_cases nodes edges)
    as [(e & _ & _ & _ & Hres)|(_ & O & _ & _ & _ & _ & _ & Hres & Hstates)].
  { congruence. }
  rewrite Hres in Hok. case_decide; [done|]. injection Hok as ->.
  destruct (Hstates i Hi) as (Q & Hready & [rest Hrest]).
  assert (∀ n, n ∈ first_occurrences [] (node_id <$> nodes) ↔ n ∈ node_id <$> nodes)
    as HKids by apply first_occurrences_keys.
  assert (x ∈ take i order ++ Q) as [jx Hjx]%list_elem_of_lookup.
  { apply Hready; [done|]. by apply (ready_remaining edges (node_id <$> nodes)). }
  assert (y ∉ take i order ++ Q) as Hyout.
  { rewrite (Hready y Hy). by rewrite <-(ready_remaining edges (node_id <$> nodes)). }
  assert (y ∈ rest) as [jy Hjy]%list_elem_of_lookup.
  { rewrite <-Hperm, Hrest in Hy. set_solver. }
  clear Hready Hyout Hrx Hry. remember (take i order ++ Q) as P eqn:HP. clear HP.
  subst order. exists jx, (length P + jy). split_and!.
  - apply lookup_lt_Some in Hjx. lia.
  - by apply lookup_app_l_Some.
  - rewrite lookup_app_r by lia.
    by replace (length P + jy - length P) with jy by lia.
Qed.

(** C9 (as the code has it): [build_execution_graph] is a function of
    its two arguments (it reads nothing else, and a dict iterates in
    insertion order), so the same input gives the same result.  The
    queue is first in, first out, and an order that is returned is the
    queue as it was filled: first the nodes that no edge from a listed
    node enters, in order of first appearance in the node list, then,
    for each node of the order in turn, the nodes it frees, in the order
    of its edges in the edge list.  So a node that is a candidate at a
    moment when another node is not comes out before that other node,
    and of two nodes freed by the same node the one that comes first
    among the freed comes out first, wherever the two stand in the node
    list.  Without edges the order is the node list itself, as for
    [A; B]. *)
Theorem build_execution_graph_fifo :
  (∀ nodes edges r1 r2,
     build_execution_graph nodes edges = r1 →
     build_execution_graph nodes edges = r2 → r1 = r2)
  ∧ (∀ nodes edges order,
       build_execution_graph nodes edges = Ok order →
       let K := first_occurrences [] (node_id <$> nodes) in
       order = filter (λ n, in_count K edges n = 0) K
                 ++ freed_in_turn edges (node_id <$> nodes) [] order)
  ∧ (∀ nodes edges order,
       build_execution_graph nodes edges = Ok order →
       let K := first_occurrences [] (node_id <$> nodes) in
       filter (λ n, in_count K edges n = 0) K `prefix_of` order)
  ∧ (∀ nodes edges order i x y,
       build_execution_graph nodes edges = Ok order →
       i ≤ length order →
       x ∈ node_id <$> nodes → y ∈ node_id <$> nodes →
       ready edges (node_id <$> nodes) (take i order) x →
       ¬ ready edges (node_id <$> nodes) (take i order) y →
       before order x y)
  ∧ (∀ nodes edges order i c x y,
       build_execution_graph nodes edges = Ok order →
       order !! i = Some c →
       before (freed edges (node_id <$> nodes) (take i order) c) x y →
       before order x y)
  ∧ (∀ nodes,
       NoDup (node_id <$> nodes) →
       build_execution_graph nodes [] = Ok (node_id <$> nodes))
  ∧ build_execution_graph ab_nodes [] = Ok ["A"; "B"].
Proof.
  split_and!.
  - congruence.
  - intros nodes edges order Hok. by apply build_execution_graph_queue.
  - intros nodes edges order Hok. by apply build_execution_graph_Ok in Hok as (_ & _ & _ & ?).
  - apply build_execution_graph_readiness.
  - intros nodes edges order i c x y Hok Hi Hxy.
    pose proof (build_execution_graph_queue nodes edges order Hok) as Hqueue.
    simpl in Hqueue.
    assert (freed_in_turn edges (node_id <$> nodes) [] order
            = freed_in_turn edges (node_id <$> nodes) [] (take i order)
                ++ freed edges (node_id <$> nodes) (take i order) c
                ++ freed_in_turn edges (node_id <$> nodes) (take i order ++ [c])
                     (drop (S i) order)) as Hturn.
    { rewrite <-(take_drop_middle order i c Hi) at 1.
      by rewrite freed_in_turn_app. }
    rewrite Hqueue, Hturn, (assoc_L (++)). by apply before_app_middle.
  - intros nodes Hnd.
    destruct (build_execution_graph_cases nodes [])
      as [(e & He & _)|(_ & O & HndO & Hsub & _ & _ & Hpre & Hres & _)].
    { by apply elem_of_nil in He. }
    rewrite first_occurrences_unique in Hpre by (done || by intros ? _ ?%elem_of_nil).
    rewrite filter_all in Hpre by done.
    destruct Hpre as [rest ->].
    assert (length ((node_id <$> nodes) ++ rest) ≤ length (node_id <$> nodes)) as Hle
      by (by apply NoDup_bounded_length).
    rewrite length_app in Hle. destruct rest; [|simpl in Hle; lia].
    rewrite app_nil_r in Hres. rewrite Hres, length_fmap. by rewrite decide_False by lia.
  - by vm_compute.
Qed.

(** C9, as stated, fails: [B] and [C] become candidates at the same
    moment, when [A] is popped, and [B] appears first in the node list,
    yet [C] comes out first, because the edge into [C] is the first in
    the edge list. *)
Lemma fifo_tie_follows_edge_order :
  build_execution_graph fan_nodes fan_edges = Ok ["A"; "C"; "B"]
  ∧ before (node_id <$> fan_nodes) "B" "C"
  ∧ ¬ ready fan_edges (node_id <$> fan_nodes) [] "B"
  ∧ ¬ ready fan_edges (node_id <$> fan_nodes) [] "C"
  ∧ ready fan_edges (node_id <$> fan_nodes) ["A"] "B"
  ∧ ready fan_edges (node_id <$> fan_nodes) ["A"] "C"
  ∧ before ["A"; "C"; "B"] "C" "B".
Proof.
  split_and!; [by vm_compute| |by_compute..|].
  - exists 1, 2. by split_and!; [lia|..].
  - exists 1, 2. by split_and!; [lia|..].
Qed.

Lemma build_execution_graph_topological_witness :
  ∃ order,
    build_execution_graph linear_nodes chain_edges = Ok order
    ∧ order ≡ₚ node_id <$> linear_nodes
    ∧ length order = length linear_nodes
    ∧ ∀ e, e ∈ chain_edges → before order (source e) (target e).
Proof.
  apply (build_execution_graph_topological linear_nodes chain_edges).
  - by_compute.
  - apply Forall_forall. by_compute.
  - apply (acyclic_of_rank chain_edges chain_rank). by_compute.
Defined.

Lemma build_execution_graph_cycle_witness :
  build_execution_graph ab_nodes ab_cycle = Raise (ValueError cycle_message).
Proof.
  apply (build_execution_graph_cycle ab_nodes ab_cycle).
  - by_compute.
  - apply Forall_forall. by_compute.
  - exists "A". eapply tc_l; [|apply tc_once].
    + exists (edge "A" "B"). split; [by_compute|done].
    + exists (edge "B" "A"). split; [by_compute|done].
Defined.

(** C5, as stated, fails: for a node list that names [A] twice the error
    is the very error raised for the two-node cycle. *)
Lemma duplicate_ids_raise_cycle_error :
  ¬ NoDup (node_id <$> dup_nodes)
  ∧ build_execution_graph dup_nodes [] = Raise (ValueError cycle_message)
  ∧ build_execution_graph ab_nodes ab_cycle = Raise (ValueError cycle_message).
Proof. split_and!; [by_compute|by vm_compute..]. Qed.

Lemma build_execution_graph_duplicate_ids_witness :
  build_execution_graph dup_nodes [] = Raise (ValueError cycle_message)
  ∨ ∃ e, e ∈ [] ∧ source e ∈ node_id <$> dup_nodes
         ∧ (target e ∉ node_id <$> dup_nodes)
         ∧ build_execution_graph dup_nodes [] = Raise (KeyError (target e)).
Proof.
  apply (build_execution_graph_duplicate_ids dup_nodes []). by_compute.
Defined.

Lemma build_execution_graph_fifo_witness :
  (NoDup (node_id <$> ab_nodes)
   ∧ build_execution_graph ab_nodes [] = Ok (node_id <$> ab_nodes))
  ∧ (build_execution_graph fan_nodes fan_edges = Ok ["A"; "C"; "B"]
     ∧ before ["A"; "C"; "B"] "A" "C"
     ∧ freed fan_edges (node_id <$> fan_nodes) [] "A" = ["C"; "B"]
     ∧ before ["A"; "C"; "B"] "C" "B").
Proof.
  destruct build_execution_graph_fifo as (_ & _ & _ & Hready & Htie & Hplain & _).
  assert (NoDup (node_id <$> ab_nodes)) as Hnd by by_compute.
  assert (build_execution_graph fan_nodes fan_edges = Ok ["A"; "C"; "B"]) as Hfan
    by (by vm_compute).
  assert (freed fan_edges (node_id <$> fan_nodes) [] "A" = ["C"; "B"]) as Hfreed
    by (by vm_compute).
  split_and!; [done|by apply Hplain|done| |done|].
  - apply (Hready fan_nodes fan_edges ["A"; "C"; "B"] 0 "A" "C").
    + done.
    + simpl. lia.
    + by_compute.
    + by_compute.
    + intros e He Ht Hs. unfold fan_edges in He.
      repeat (apply elem_of_cons in He as [->|He]); [done..|].
      by apply elem_of_nil in He.
    + intros Hc. specialize (Hc (edge "A" "C")). simpl in Hc.
      assert ("A" ∈ ([] : list string)) as Hin
        by (apply Hc; [by_compute|done|by_compute]).
      by apply elem_of_nil in Hin.
  - apply (Htie fan_nodes fan_edges ["A"; "C"; "B"] 0 "A" "C" "B"); [done..|].
    simpl take. rewrite Hfreed. exists 0, 1. by split_and!; [lia|..].
Defined.

Lemma is_str_refl s : is_str (VStr s) s = true.
Proof. simpl. by apply bool_decide_eq_true. Qed.

(** ** The delay action *)

(** C7 (as the code has it): [execute_delay] does not validate the
    duration, and no error of its own exists.  A duration that is not
    above zero, integer or float, negative ones included, is logged and
    answered at once: the clock does not move.  A duration above zero
    that the event loop can add to its clock, an integer below
    [float_overflow] or a finite float, is waited for, the clock moving
    by it, and answered.  An integer from [float_overflow] on makes
    [asyncio.sleep] raise an [OverflowError] after the first log line,
    and the wait for an infinite float does not end. *)
Theorem execute_delay_any_duration {W} `{!Runtime W}
    (config delay : Value) (st : State W) :
  py_get config "delaySeconds" (VInt 1) = Ok delay →
  let started :=
    mkLog "INFO" ("Starting delay for " +:+ py_str delay +:+ " seconds") in
  let completed :=
    mkLog "INFO" ("Delay completed after " +:+ py_str delay +:+ " seconds") in
  let returns_in (w : W) : Prop :=
    execute_delay config st
    = (Ok (VStr ("Delayed for " +:+ py_str delay +:+ " seconds")),
       mkState (logs st ++ [started; completed]) (node_outputs st) w) in
  (∀ d, delay = VInt d → (d ≤ 0)%Z → returns_in (world st))
  ∧ (∀ d, delay = VInt d → (0 < d < float_overflow)%Z →
       returns_in (advance d (world st)))
  ∧ (∀ d, delay = VInt d → (float_overflow ≤ d)%Z →
       execute_delay config st
       = (Raise (OverflowError "int too large to convert to float"),
          mkState (logs st ++ [started]) (node_outputs st) (world st)))
  ∧ (∀ repr, delay = VFloat repr →
       float_negative repr || float_is_zero repr = true →
       returns_in (world st))
  ∧ (∀ repr, delay = VFloat repr →
       float_negative repr || float_is_zero repr = false →
       float_finite repr = true →
       returns_in (advance_float repr (world st)))
  ∧ (delay = VFloat "inf" →
     execute_delay config st
     = (Raise FuelExhausted,
        mkState (logs st ++ [started]) (node_outputs st) (world st))).
Proof.
  intros Hget started completed returns_in. subst returns_in started completed.
  unfold execute_delay, get, lift_result. unfold mbind, M_bind. rewrite Hget.
  assert (0 < float_overflow)%Z as Hpos by by_compute.
  split_and!.
  - intros d -> Hd. simpl. rewrite decide_True by done.
    simpl. by rewrite <-(assoc_L (++)).
  - intros d -> [Hd Hmax]. simpl.
    rewrite decide_False by lia. rewrite decide_True by done.
    simpl. by rewrite <-(assoc_L (++)).
  - intros d -> Hd. simpl.
    rewrite decide_False by lia. rewrite decide_False by lia. done.
  - intros repr -> Hle. simpl. rewrite Hle. simpl. by rewrite <-(assoc_L (++)).
  - intros repr -> Hgt Hfin. simpl. rewrite Hgt.
    unfold float_finite in Hfin.
    apply negb_true_iff, orb_false_iff in Hfin as [[Hinf _]%orb_false_iff Hnan].
    rewrite Hnan, Hinf. simpl. by rewrite <-(assoc_L (++)).
  - by intros ->.
Qed.

Lemma execute_delay_any_duration_witness :
  execute_delay (VDict [("delaySeconds", VInt (-5))]) fresh
  = (Ok (VStr "Delayed for -5 seconds"),
     mkState [mkLog "INFO" "Starting delay for -5 seconds";
              mkLog "INFO" "Delay completed after -5 seconds"] ∅ empty_world)
  ∧ execute_delay (VDict [("delaySeconds", VFloat "1.5")]) fresh
    = (Ok (VStr "Delayed for 1.5 seconds"),
       mkState [mkLog "INFO" "Starting delay for 1.5 seconds";
                mkLog "INFO" "Delay completed after 1.5 seconds"] ∅
               (mkWorld ∅ 0 ["1.5"]))
  ∧ execute_delay (VDict [("delaySeconds", VInt (2 ^ 1024))]) fresh
    = (Raise (OverflowError "int too large to convert to float"),
       mkState [mkLog "INFO" ("Starting delay for " +:+ pretty (2 ^ 1024)%Z
                                +:+ " seconds")] ∅ empty_world).
Proof.
  split_and!.
  - apply (proj1 (execute_delay_any_duration
                    (VDict [("delaySeconds", VInt (-5))]) (VInt (-5)) fresh
                    eq_refl) (-5)%Z); [reflexivity|lia].
  - etrans.
    + apply (proj1 (proj2 (proj2 (proj2 (proj2 (execute_delay_any_duration
                      (VDict [("delaySeconds", VFloat "1.5")]) (VFloat "1.5") fresh
                      eq_refl))))) "1.5"); reflexivity.
    + by vm_compute.
  - etrans.
    + apply (proj1 (proj2 (proj2 (execute_delay_any_duration
                      (VDict [("delaySeconds", VInt (2 ^ 1024))]) (VInt (2 ^ 1024))
                      fresh eq_refl))) (2 ^ 1024)%Z); [reflexivity|by_compute].
    + by vm_compute.
Defined.

(** C7, as stated, fails: a delay of minus five seconds does not raise,
    the action returns its message and the clock has not moved; and a
    delay of [2 ** 1024] seconds, which is not negative, is not waited
    for: [asyncio.sleep] raises. *)
Lemma negative_delay_returns :
  (execute_delay (VDict [("delaySeconds", VInt (-5))]) fresh).1
  = Ok (VStr "Delayed for -5 seconds")
  ∧ world (execute_delay (VDict [("delaySeconds", VInt (-5))]) fresh).2
    = empty_world
  ∧ (execute_delay (VDict [("delaySeconds", VInt (2 ^ 1024))]) fresh).1
    = Raise (OverflowError "int too large to convert to float").
Proof. split_and!; by vm_compute. Qed.

(** ** The file action *)

(** When the read of a file action fails, the failure is logged at
    ERROR level and raised again, by [execute_file_operation] and by
    [execute_node] around it. *)
Lemma read_failure_is_raised {W} `{!Runtime W}
    (i : string) (config path : Value) (input_data : dict)
    (e : Exception) (w' : W) (st : State W) :
  py_get config "operation" (VStr "read") = Ok (VStr "read") →
  py_get config "filePath" (VStr "") = Ok path →
  truthy path = true →
  fs_read path (world st) = (Raise e, w') →
  execute_file_operation config st
  = (Raise e,
     mkState (logs st ++ [mkLog "ERROR" ("File operation failed: " +:+ exc_str e)])
             (node_outputs st) w')
  ∧ execute_node
      (mkNode i "action"
              [("actionType", VStr "file_operation"); ("actionConfig", config)] VNone)
      input_data st
    = (Raise e,
       mkState
         (logs st
            ++ [mkLog "INFO" ("Executing node " +:+ i +:+ " of type action");
                mkLog "ERROR" ("File operation failed: " +:+ exc_str e);
                mkLog "ERROR" ("Error executing node " +:+ i +:+ ": " +:+ exc_str e)])
         (node_outputs st) w').
Proof.
  intros Hop Hpath Htruthy Hread.
  assert (∀ st0 : State W, world st0 = world st →
    execute_file_operation config st0
    = (Raise e,
       mkState (logs st0 ++ [mkLog "ERROR" ("File operation failed: " +:+ exc_str e)])
               (node_outputs st0) w')) as Hfile.
  { intros st0 Hw. unfold execute_file_operation, get, lift_result.
    unfold mbind, M_bind. rewrite Hop, Hpath.
    destruct config as [| | | | | |entries]; try done. simpl py_get. cbv iota beta.
    rewrite Htruthy. change (negb true) with false. cbv iota.
    unfold reraising. rewrite is_str_refl. cbv iota beta.
    unfold lift_world. rewrite Hw, Hread. done. }
  split; [by apply Hfile|].
  unfold execute_node. unfold mbind at 1, M_bind at 1. simpl log. cbv iota beta.
  unfold reraising. simpl.
  rewrite Hfile by done. simpl. by rewrite <-!(assoc_L (++)).
Qed.

(** C6, as stated, fails: reading a file that does not exist makes the
    node raise, and the run stops there: it is reported as failed and
    the node after the read has no output. *)
Lemma missing_file_read_raises :
  (execute_node (read_node "2" "/no/such/file") [("value", VStr "hi")] fresh).1
  = Raise (FileNotFoundError "/no/such/file")
  ∧ status (execute_workflow broken_nodes chain_edges
              (Some [("value", VStr "hi")]) fresh).1 = "failed"
  ∧ result_outputs (execute_workflow broken_nodes chain_edges
                      (Some [("value", VStr "hi")]) fresh).1 !! "3" = None.
Proof. split_and!; by vm_compute. Qed.

(** ** A run without nodes *)

Lemma add_edges_no_nodes edges : add_edges edges ∅ [] = Ok (∅, []).
Proof. induction edges as [|e edges IH]; simpl; [done|]. by rewrite lookup_empty. Qed.

Lemma build_execution_graph_no_nodes edges : build_execution_graph [] edges = Ok [].
Proof. unfold build_execution_graph. simpl. by rewrite add_edges_no_nodes. Qed.

(** C10: with an empty node list the run is reported as failed: the
    order is empty, so looking up its last element raises, and the
    error is caught and becomes the error of the result. *)
Theorem execute_workflow_no_nodes {W} `{!Runtime W}
    (edges : list Edge) (input_data : option dict) (st : State W) :
  status (execute_workflow [] edges input_data st).1 = "failed"
  ∧ execute_workflow [] edges input_data st
    = (RunFailed "list index out of range" ∅,
       end_failed (IndexError "list index out of range") (begin_run [] st)).
Proof.
  assert (execute_workflow [] edges input_data st
          = (RunFailed "list index out of range" ∅,
             end_failed (IndexError "list index out of range") (begin_run [] st)))
    as Hrun.
  { unfold execute_workflow, run_workflow, lift_result.
    unfold mbind, M_bind. by rewrite build_execution_graph_no_nodes. }
  by rewrite Hrun.
Qed.

(** ** The table format *)

Lemma string_app_assoc (s1 s2 s3 : string) :
  (s1 +:+ s2) +:+ s3 = s1 +:+ s2 +:+ s3.
Proof.
  induction s1 as [|c s1 IH]; [done|].
  change (String c ((s1 +:+ s2) +:+ s3) = String c (s1 +:+ s2 +:+ s3)).
  by rewrite IH.
Qed.

Lemma string_app_nil_r (s : string) : s +:+ "" = s.
Proof.
  induction s as [|c s IH]; [done|].
  change (String c (s +:+ "") = String c s). by rewrite IH.
Qed.

Lemma string_length_app (s1 s2 : string) :
  String.length (s1 +:+ s2) = String.length s1 + String.length s2.
Proof.
  induction s1 as [|c s1 IH]; [done|].
  change (S (String.length (s1 +:+ s2)) = S (String.length s1 + String.length s2)).
  by rewrite IH.
Qed.

Lemma mapM_total {A B} (f : A → result B) (g : A → B) (l : list A) :
  (∀ x, x ∈ l → f x = Ok (g x)) → mapM f l = Ok (map g l).
Proof.
  induction l as [|a l IH]; intros Hf; [done|].
  cbn. rewrite (Hf a) by left. cbn.
  rewrite IH by (intros; apply Hf; by right). done.
Qed.

Lemma foldl_table_rows (table : string) (rows : list (list string)) :
  foldl (λ table row, table +:+ String.concat " | " row +:+ newline) table rows
  = table +:+ unlines (map (String.concat " | ") rows).
Proof.
  revert table. induction rows as [|row rows IH]; intros table; simpl.
  - by rewrite string_app_nil_r.
  - rewrite IH. by rewrite !string_app_assoc.
Qed.

(** C8 (as the code has it): for a list of dicts the table is the header
    of the first dict's keys joined by " | ", then a rule of dashes (one
    more than the header is long), then one " | "-joined line per item,
    each line ended by a line feed; a value that is not a list, an empty
    list, or a list whose first item is not a dict is converted with
    [str]; an output node with format [table] returns that text. *)
Theorem format_as_table_layout :
  (∀ (first : dict) (rows : list dict),
     format_as_table (VList (VDict <$> first :: rows))
     = Ok (unlines (table_lines first rows)))
  ∧ (∀ data,
       (∀ first rest, data ≠ VList (VDict first :: rest)) →
       format_as_table data = Ok (py_str data))
  ∧ format_as_table table_rows
    = Ok (unlines ["a | b"; "------"; "1 | 2"; "3 | 4"])
  ∧ (∀ W (R : Runtime W) i data table (st : State W),
       format_as_table data = Ok table →
       (execute_node (output_node i "table") [("value", data)] st).1
       = Ok (VStr table)).
Proof.
  split_and!.
  - intros first rows. unfold format_as_table. rewrite fmap_cons.
    set (cells := λ row : dict,
           map (λ h, py_str (from_option id (VStr "") (od_get h row))) first.*1).
    rewrite (mapM_total _ (λ row, match row with
                                   | VDict d => cells d
                                   | _ => []
                                   end)).
    + change (Ok ?x ≫= ?f) with (f x). cbv beta. unfold mret, result_ret. f_equal.
      rewrite foldl_table_rows. unfold table_lines.
      change (unlines (?h :: ?d :: ?l)) with (h +:+ newline +:+ d +:+ newline +:+ unlines l).
      rewrite string_length_app. change (String.length newline) with 1.
      rewrite Nat.add_1_r, !string_app_assoc.
      do 5 f_equal. rewrite <-fmap_cons, <-!list_fmap_compose. done.
    + intros row Hrow.
      assert (∃ d, row = VDict d) as [d ->].
      { rewrite <-fmap_cons in Hrow. apply list_elem_of_fmap in Hrow. naive_solver. }
      apply mapM_total. done.
  - intros data Hnot. unfold format_as_table.
    destruct data as [| | | | |items|]; try done.
    destruct items as [|[| | | | | |first] rest]; try done.
    by destruct (Hnot first rest).
  - by vm_compute.
  - intros W R i data table st Htable. unfold execute_node.
    unfold mbind at 1, M_bind at 1. simpl log. cbv iota beta.
    unfold reraising. simpl. unfold lift_result at 1.
    unfold mbind, M_bind. rewrite Htable. done.
Qed.

Lemma format_as_table_layout_witness :
  format_as_table (VInt 5) = Ok "5"
  ∧ (execute_node (output_node "3" "table") [("value", table_rows)] fresh).1
    = Ok (VStr (unlines ["a | b"; "------"; "1 | 2"; "3 | 4"])).
Proof.
  destruct format_as_table_layout as (_ & Hfallback & Hrows & Hnode).
  split.
  - by apply (Hfallback (VInt 5)).
  - by apply (Hnode MemWorld mem_runtime "3" table_rows).
Defined.

(** C8, as stated, fails: the rows do not follow the header directly, a
    rule of six dashes stands between them; and a list whose first item
    is a dict while a later one is not does not fall back to [str]. *)
Lemma table_has_rule_line :
  format_as_table table_rows ≠ Ok (unlines ["a | b"; "1 | 2"; "3 | 4"])
  ∧ format_as_table table_rows
    = Ok (unlines ["a | b"; "------"; "1 | 2"; "3 | 4"])
  ∧ format_as_table (VList [VDict [("a", VInt 1)]; VInt 5])
    = Raise (AttributeError "'int' object has no attribute 'get'").
Proof. split_and!; by vm_compute. Qed.

(** ** Node handlers leave the stored outputs alone *)

Section keeps.
Context {W : Type} `{!Runtime W}.

Lemma keeps_ret {A} (a : A) : keeps_outputs (mret a : M W A).
Proof. by intros st. Qed.

Lemma keeps_raise {A} e : keeps_outputs (raise e : M W A).
Proof. by intros st. Qed.

Lemma keeps_log message lvl : keeps_outputs (log message lvl : M W ()).
Proof. by intros st. Qed.

Lemma keeps_lift_result {A} (r : result A) : keeps_outputs (lift_result r : M W A).
Proof. by intros st. Qed.

Lemma keeps_get config key default : keeps_outputs (get config key default : M W Value).
Proof. by intros st. Qed.

Lemma keeps_lift_world {A} (f : W → result A * W) : keeps_outputs (lift_world f).
Proof. intros st. unfold lift_world. by destruct (f (world st)). Qed.

Lemma keeps_bind {A B} (m : M W A) (f : A → M W B) :
  keeps_outputs m → (∀ a, keeps_outputs (f a)) → keeps_outputs (m ≫= f).
Proof.
  intros Hm Hf st. unfold mbind, M_bind. specialize (Hm st).
  destruct (m st) as [[a|e] st']; simpl in *; [|done].
  by rewrite Hf.
Qed.

Lemma keeps_reraising {A} (m : M W A) handler :
  keeps_outputs m → (∀ e, keeps_outputs (handler e)) → keeps_outputs (reraising m handler).
Proof.
  intros Hm Hh st. unfold reraising. specialize (Hm st).
  destruct (m st) as [[a|e] st']; simpl in *; [done|].
  by rewrite Hh.
Qed.

Ltac keeps :=
  repeat first
    [ apply keeps_ret | apply keeps_raise | apply keeps_log | apply keeps_get
    | apply keeps_lift_result | apply keeps_lift_world
    | apply keeps_bind; [|intros ?]
    | apply keeps_reraising; [|intros ?]
    | match goal with
      | |- keeps_outputs (if ?b then _ else _) => destruct b
      | |- keeps_outputs (match ?x with _ => _ end) => destruct x
      end ].

Lemma keeps_execute_http_request config : keeps_outputs (execute_http_request config).
Proof. unfold execute_http_request. keeps. Qed.

Lemma keeps_execute_transform input_data config :
  keeps_outputs (execute_transform input_data config).
Proof. unfold execute_transform. keeps. Qed.

Lemma keeps_execute_file_operation config :
  keeps_outputs (execute_file_operation config).
Proof. unfold execute_file_operation. keeps. Qed.

Lemma keeps_execute_database_operation config :
  keeps_outputs (execute_database_operation config).
Proof. unfold execute_database_operation. keeps. Qed.

Lemma keeps_execute_condition input_data config :
  keeps_outputs (execute_condition input_data config).
Proof. unfold execute_condition. keeps. Qed.

Lemma keeps_asyncio_sleep delay : keeps_outputs (asyncio_sleep delay).
Proof. unfold asyncio_sleep. keeps. Qed.

Lemma keeps_execute_delay config : keeps_outputs (execute_delay config).
Proof. unfold execute_delay. keeps. apply keeps_asyncio_sleep. Qed.

Lemma keeps_execute_node node input_data :
  keeps_outputs (execute_node node input_data).
Proof.
  unfold execute_node.
  repeat first
    [ apply keeps_execute_http_request | apply keeps_execute_transform
    | apply keeps_execute_file_operation | apply keeps_execute_database_operation
    | apply keeps_execute_condition | apply keeps_execute_delay
    | apply keeps_asyncio_sleep | progress keeps ].
Qed.
End keeps.

(** ** The loop over the execution order *)

Section run.
Context {W : Type} `{!Runtime W}.
Implicit Types (st : State W) (lookup : gmap string Node).

Lemma run_nodes_cons lookup edges input_data n rest st :
  run_nodes lookup edges input_data (n :: rest) st
  = match lookup !! n with
    | None => (Raise (KeyError n), st)
    | Some node =>
        match execute_node node
                (resolve_inputs (node_outputs st) n edges input_data) st with
        | (Ok result, st') =>
            run_nodes lookup edges input_data rest (stored n result st')
        | (Raise e, st') => (Raise e, st')
        end
    end.
Proof.
  simpl. unfold mbind, M_bind. destruct (lookup !! n) as [node|]; [|done].
  simpl. by destruct (execute_node _ _ st) as [[result|e] st'].
Qed.

Lemma run_nodes_app lookup edges input_data pre rest st :
  run_nodes lookup edges input_data (pre ++ rest) st
  = match run_nodes lookup edges input_data pre st with
    | (Ok _, st1) => run_nodes lookup edges input_data rest st1
    | (Raise e, st1) => (Raise e, st1)
    end.
Proof.
  revert st. induction pre as [|n pre IH]; intros st; [done|].
  rewrite <-app_comm_cons, !run_nodes_cons.
  destruct (lookup !! n) as [node|]; [|done].
  destruct (execute_node _ _ st) as [[result|e] st']; [|done].
  apply IH.
Qed.

Lemma run_nodes_outputs lookup edges input_data pre st0 st1 :
  run_nodes lookup edges input_data pre st0 = (Ok (), st1) →
  value_records (node_outputs st0) →
  dom (node_outputs st1) = dom (node_outputs st0) ∪ list_to_set pre
  ∧ value_records (node_outputs st1).
Proof.
  revert st0. induction pre as [|n pre IH]; intros st0.
  - intros [= <-] Hrec. split; [set_solver|done].
  - rewrite run_nodes_cons. destruct (lookup !! n) as [node|]; [|done].
    pose proof (keeps_execute_node node
                  (resolve_inputs (node_outputs st0) n edges input_data) st0) as Hkeep.
    destruct (execute_node _ _ st0) as [[result|e] st']; [|done].
    simpl in Hkeep. intros Hrun Hrec.
    apply IH in Hrun as [Hdom Hrec'].
    + split; [|done]. rewrite Hdom. simpl. rewrite dom_insert_L, Hkeep. set_solver.
    + intros m out. simpl. rewrite Hkeep, lookup_insert.
      case_decide; [intros [= <-]; eauto|apply Hrec].
Qed.


Lemma node_lookup_of_lookup (nodes : list Node) node :
  NoDup (node_id <$> nodes) → node ∈ nodes →
  node_lookup_of nodes !! node_id node = Some node.
Proof.
  unfold node_lookup_of. induction nodes as [|x nodes IH] using rev_ind.
  { by intros _ ?%elem_of_nil. }
  rewrite fmap_app, foldl_app. simpl.
  intros (Hnd & Hx & _)%NoDup_app [Hin| ->%list_elem_of_singleton]%elem_of_app.
  - rewrite lookup_insert_ne; [by apply IH|].
    intros Heq. apply (Hx (node_id node)); [by apply list_elem_of_fmap_2|].
    rewrite Heq. set_solver.
  - by rewrite lookup_insert_eq.
Qed.


Lemma before_split (pre post : list string) s n :
  NoDup (pre ++ n :: post) → before (pre ++ n :: post) s n → s ∈ pre.
Proof.
  intros Hnd (i & j & Hij & Hi & Hj).
  assert (j = length pre) as ->.
  { eapply NoDup_lookup; [done..|]. by rewrite list_lookup_middle. }
  rewrite lookup_app_l in Hi by done. by eapply list_elem_of_lookup_2.
Qed.

Lemma get_node_inputs_merged (outputs : gmap string dict) n edges :
  get_node_inputs outputs n edges = merged_upstream outputs edges n.
Proof.
  unfold get_node_inputs, merged_upstream.
  set (g := λ e : Edge, from_option id ([] : dict) (outputs !! source e)).
  generalize ([] : dict).
  induction edges as [|e edges IH]; intros acc; [done|].
  rewrite filter_cons. simpl. destruct (decide (target e = n)) as [Ht|Ht].
  - rewrite fmap_cons. simpl. rewrite IH. unfold g at 2.
    by destruct (outputs !! source e).
  - apply IH.
Qed.

Lemma merge_value_records (ds : list dict) (r : Value) :
  (∀ d, d ∈ ds → ∃ r', d = [("value", r')]) →
  foldl od_update [] (ds ++ [[("value", r)]]) = [("value", r)].
Proof.
  intros Hds. rewrite foldl_app. simpl.
  assert (foldl od_update [] ds = [] ∨ ∃ r', foldl od_update [] ds = [("value", r')])
    as [-> | [r' ->]]; [|done..].
  induction ds as [|d ds IH] using rev_ind; [by left|].
  right. rewrite foldl_app. simpl.
  destruct (Hds d) as [r' ->]; [set_solver|].
  destruct IH as [-> | [r'' ->]]; [intros; apply Hds; set_solver|by exists r'..].
Qed.
Lemma merge_skips_unstored (g : Edge → dict) (P Q : Edge → Prop)
    `{!∀ e, Decision (P e), !∀ e, Decision (Q e)} (edges : list Edge) (acc : dict) :
  (∀ e, e ∈ edges → P e → ¬ Q e → g e = []) →
  foldl od_update acc (g <$> filter P edges)
  = foldl od_update acc (g <$> filter (λ e, P e ∧ Q e) edges).
Proof.
  revert acc. induction edges as [|e edges IH]; intros acc Hg; [done|].
  assert (∀ acc,
    foldl od_update acc (g <$> filter P edges)
    = foldl od_update acc (g <$> filter (λ e, P e ∧ Q e) edges)) as IH'.
  { intros acc'. apply IH. intros e' He'. apply Hg. by right. }
  rewrite !filter_cons.
  destruct (decide (P e)) as [HP|HP]; [|rewrite decide_False by tauto; apply IH'].
  destruct (decide (Q e)) as [HQ|HQ].
  - rewrite decide_True by done. rewrite !fmap_cons. simpl. apply IH'.
  - rewrite decide_False by tauto. rewrite fmap_cons. simpl.
    rewrite (Hg e) by (done || left). apply IH'.
Qed.
End run.

(** ** The run *)

Lemma execute_workflow_raise {W} `{!Runtime W} nodes edges input_data order e
    (st st' : State W) :
  build_execution_graph nodes edges = Ok order →
  run_nodes (node_lookup_of nodes) edges (from_option id [] input_data) order
            (begin_run order st) = (Raise e, st') →
  execute_workflow nodes edges input_data st
  = (RunFailed (exc_str e) (node_outputs st'), end_failed e st').
Proof.
  intros Hbuild Hrun. unfold execute_workflow, run_workflow, lift_result.
  unfold mbind, M_bind. rewrite Hbuild. simpl.
  match goal with |- context [run_nodes _ _ _ _ ?s] =>
    change s with (begin_run order st) end.
  by rewrite Hrun.
Qed.



(** C6 (as the code has it): when the read of a file action fails, the
    failure is logged at ERROR level and raised again, by
    [execute_file_operation] and by [execute_node] around it; no output
    value is produced for the node.  In a run, whatever the workflow
    around it: when the nodes before such a node have run and its read
    fails, the run stops there and is reported as failed with the text of
    that error; the outputs are those of the nodes before it, the node
    itself and the later ones have none. *)
Theorem execute_file_operation_read_fails {W} `{!Runtime W}
    (i : string) (config path : Value) :
  py_get config "operation" (VStr "read") = Ok (VStr "read") →
  py_get config "filePath" (VStr "") = Ok path →
  truthy path = true →
  let node :=
    mkNode i "action"
           [("actionType", VStr "file_operation"); ("actionConfig", config)] VNone in
  (∀ (input_data : dict) (e : Exception) (w' : W) (st : State W),
     fs_read path (world st) = (Raise e, w') →
     execute_file_operation config st
     = (Raise e,
        mkState (logs st ++ [mkLog "ERROR" ("File operation failed: " +:+ exc_str e)])
                (node_outputs st) w')
     ∧ execute_node node input_data st
       = (Raise e,
          mkState
            (logs st
               ++ [mkLog "INFO" ("Executing node " +:+ i +:+ " of type action");
                   mkLog "ERROR" ("File operation failed: " +:+ exc_str e);
                   mkLog "ERROR" ("Error executing node " +:+ i +:+ ": " +:+ exc_str e)])
            (node_outputs st) w'))
  ∧ (∀ nodes edges input_data order pre post (e : Exception) (w' : W)
       (st st1 : State W),
       build_execution_graph nodes edges = Ok order →
       order = pre ++ i :: post →
       node ∈ nodes →
       run_nodes (node_lookup_of nodes) edges (from_option id [] input_data) pre
                 (begin_run order st) = (Ok (), st1) →
       fs_read path (world st1) = (Raise e, w') →
       execute_workflow nodes edges input_data st
       = (RunFailed (exc_str e) (node_outputs st1),
          mkState
            (logs st1
               ++ [mkLog "INFO" ("Executing node " +:+ i +:+ " of type action");
                   mkLog "ERROR" ("File operation failed: " +:+ exc_str e);
                   mkLog "ERROR" ("Error executing node " +:+ i +:+ ": " +:+ exc_str e);
                   mkLog "ERROR" ("Workflow execution failed: " +:+ exc_str e)])
            (node_outputs st1) w')
       ∧ status (execute_workflow nodes edges input_data st).1 = "failed"
       ∧ dom (node_outputs st1) = list_to_set pre
       ∧ (∀ m, m ∈ i :: post → node_outputs st1 !! m = None)).
Proof.
  intros Hop Hpath Htruthy node. split.
  - intros input_data e w' st Hread.
    by apply (read_failure_is_raised i config path).
  - intros nodes edges input_data order pre post e w' st st1
      Hbuild Horder Hnode Hpre Hread.
    pose proof Hbuild as (Hnd & Hperm & _)%build_execution_graph_Ok.
    assert (NoDup (node_id <$> nodes)) as Hids by (by rewrite <-Hperm).
    destruct (read_failure_is_raised i config path
                (resolve_inputs (node_outputs st1) i edges
                                (from_option id [] input_data))
                e w' st1 Hop Hpath Htruthy Hread) as [_ Hexec].
    fold node in Hexec.
    destruct (run_nodes_outputs _ _ _ _ _ _ Hpre) as [Hdom _].
    { intros m out. simpl. by rewrite lookup_empty. }
    simpl in Hdom. rewrite dom_empty_L, (left_id_L ∅ (∪)) in Hdom.
    assert (execute_workflow nodes edges input_data st
            = (RunFailed (exc_str e) (node_outputs st1),
               mkState
                 (logs st1
                    ++ [mkLog "INFO" ("Executing node " +:+ i +:+ " of type action");
                        mkLog "ERROR" ("File operation failed: " +:+ exc_str e);
                        mkLog "ERROR"
                          ("Error executing node " +:+ i +:+ ": " +:+ exc_str e);
                        mkLog "ERROR" ("Workflow execution failed: " +:+ exc_str e)])
                 (node_outputs st1) w')) as Hrun.
    { match type of Hexec with _ = (_, ?s) =>
        rewrite (execute_workflow_raise _ _ _ order e st s)
      end.
      - unfold end_failed. simpl. by rewrite <-(assoc_L (++)).
      - done.
      - rewrite Horder in Hpre |- *. rewrite run_nodes_app, Hpre, run_nodes_cons.
        change i with (node_id node) at 1.
        rewrite (node_lookup_of_lookup nodes node) by done. by rewrite Hexec. }
    split_and!; [done|by rewrite Hrun|done|].
    intros m Hm. apply not_elem_of_dom. rewrite Hdom.
    rewrite Horder in Hnd. apply NoDup_app in Hnd as (_ & Hdisj & _).
    intros Hin%elem_of_list_to_set. by apply (Hdisj m).
Qed.

Lemma execute_file_operation_read_fails_witness :
  execute_file_operation
    (VDict [("operation", VStr "read"); ("filePath", VStr "/no/such/file")]) fresh
  = (Raise (FileNotFoundError "/no/such/file"),
     mkState [mkLog "ERROR"
                ("File operation failed: "
                   +:+ exc_str (FileNotFoundError "/no/such/file"))]
             ∅ empty_world)
  ∧ status (execute_workflow broken_nodes chain_edges
              (Some [("value", VStr "hi")]) fresh).1 = "failed"
  ∧ result_outputs (execute_workflow broken_nodes chain_edges
                      (Some [("value", VStr "hi")]) fresh).1 !! "2" = None.
Proof.
  set (input := Some [("value", VStr "hi")] : option dict).
  set (order := ["1"; "2"; "3"]).
  set (st1 := (run_nodes (node_lookup_of broken_nodes) chain_edges
                 (from_option id [] input) ["1"] (begin_run order fresh)).2).
  destruct (execute_file_operation_read_fails
              "2" (VDict [("operation", VStr "read");
                          ("filePath", VStr "/no/such/file")])
              (VStr "/no/such/file")) as [Hnode Hworkflow]; [reflexivity..|].
  destruct (Hnode [] (FileNotFoundError "/no/such/file") empty_world fresh)
    as [Hfile _]; [reflexivity|].
  destruct (Hworkflow broken_nodes chain_edges input order ["1"] ["3"]
              (FileNotFoundError "/no/such/file") empty_world fresh st1)
    as (Hrun & Hstatus & _ & Hnone).
  - by vm_compute.
  - done.
  - apply list_elem_of_further, list_elem_of_here.
  - by vm_compute.
  - by vm_compute.
  - split_and!; [exact Hfile|exact Hstatus|].
    rewrite Hrun. simpl. apply Hnone. by_compute.
Defined.

(** C3: in a run, when the nodes before [n] in the execution order have
    run, the node [n] is executed on the resolved input, and that input
    is: with at least one edge into [n] from a listed node, the merge in
    edge-list order of the stored outputs of the sources of the edges
    into [n] (every listed source is stored by then), so the value of
    the last such edge wins on the shared key; with no such edge, the
    input of the run. *)
Theorem resolved_input_in_run {W} `{!Runtime W}
    nodes edges input_data order pre n post (st0 st1 : State W) :
  build_execution_graph nodes edges = Ok order →
  order = pre ++ n :: post →
  node_outputs st0 = ∅ →
  run_nodes (node_lookup_of nodes) edges input_data pre st0 = (Ok (), st1) →
  let upstream := upstream_edges (node_id <$> nodes) edges n in
  let resolved := resolve_inputs (node_outputs st1) n edges input_data in
  (∀ node, node_lookup_of nodes !! n = Some node →
     run_nodes (node_lookup_of nodes) edges input_data order st0
     = match execute_node node resolved st1 with
       | (Ok result, st2) =>
           run_nodes (node_lookup_of nodes) edges input_data post
                     (stored n result st2)
       | (Raise e, st2) => (Raise e, st2)
       end)
  ∧ (∀ e, e ∈ upstream →
       ∃ r, node_outputs st1 !! source e = Some [("value", r)])
  ∧ (upstream ≠ [] →
       resolved = merged_upstream (node_outputs st1) edges n
       ∧ ∃ e_last r,
           last upstream = Some e_last
           ∧ node_outputs st1 !! source e_last = Some [("value", r)]
           ∧ resolved = [("value", r)])
  ∧ (upstream = [] → resolved = input_data).
Proof.
  intros Hbuild Horder Hempty Hpre upstream resolved.
  pose proof Hbuild as (Hnd & Hperm & Hsorted & _)%build_execution_graph_Ok.
  destruct (run_nodes_outputs _ _ _ _ _ _ Hpre) as [Hdom Hrec].
  { intros m out. by rewrite Hempty, lookup_empty. }
  rewrite Hempty, dom_empty_L, (left_id_L ∅ (∪)) in Hdom.
  assert (∀ e, e ∈ upstream →
            ∃ r, node_outputs st1 !! source e = Some [("value", r)]) as Hstored.
  { intros e Hup. apply list_elem_of_filter in Hup as [[Ht Hs] He].
    assert (source e ∈ pre) as Hin.
    { apply (before_split pre post (source e) n); [by rewrite <-Horder|].
      rewrite <-Horder, <-Ht. apply Hsorted; [done|by apply first_occurrences_keys|].
      rewrite Horder, Ht. set_solver. }
    assert (is_Some (node_outputs st1 !! source e)) as [out Hout].
    { apply elem_of_dom. rewrite Hdom. set_solver. }
    destruct (Hrec _ _ Hout) as [r ->]. eauto. }
  set (g := λ e : Edge, from_option id ([] : dict) (node_outputs st1 !! source e)).
  assert (merged_upstream (node_outputs st1) edges n
          = foldl od_update [] (g <$> upstream)) as Hskip.
  { unfold merged_upstream, upstream, upstream_edges. fold g.
    apply (merge_skips_unstored g). intros e He Ht Hs. unfold g.
    assert (node_outputs st1 !! source e = None) as ->; [|done].
    apply not_elem_of_dom. rewrite Hdom. intros Hin%elem_of_list_to_set.
    apply Hs. rewrite <-Hperm, Horder. set_solver. }
  split_and!; [|done| |].
  - intros node Hnode.
    by rewrite Horder, run_nodes_app, Hpre, run_nodes_cons, Hnode.
  - intros Hne.
    destruct upstream as [|e0 U _] eqn:HU using rev_ind; [done|].
    destruct (Hstored e0) as [r Hr]; [set_solver|].
    assert (merged_upstream (node_outputs st1) edges n = [("value", r)]) as Hmerge.
    { rewrite Hskip, fmap_app. simpl. unfold g at 2. rewrite Hr. simpl.
      apply merge_value_records. intros d (e' & -> & He')%list_elem_of_fmap.
      destruct (Hstored e') as [r' Hr']; [set_solver|].
      unfold g. rewrite Hr'. eauto. }
    assert (resolved = [("value", r)]) as Hres.
    { unfold resolved, resolve_inputs. by rewrite get_node_inputs_merged, Hmerge. }
    split; [by rewrite Hmerge|].
    exists e0, r. by rewrite last_snoc.
  - intros HU. unfold resolved, resolve_inputs.
    by rewrite get_node_inputs_merged, Hskip, HU.
Qed.

Lemma resolved_input_in_run_witness :
  let input := [("value", VStr "hi")] in
  let st1 := (run_nodes (node_lookup_of join_nodes) join_edges input
                        ["a"; "b"] fresh).2 in
  resolve_inputs (node_outputs st1) "c" join_edges input
  = merged_upstream (node_outputs st1) join_edges "c"
  ∧ merged_upstream (node_outputs st1) join_edges "c"
    = [("value", VStr "from b")].
Proof.
  intros input st1.
  destruct (resolved_input_in_run join_nodes join_edges input
              ["a"; "b"; "c"] ["a"; "b"] "c" [] fresh st1)
    as (_ & _ & Hmerge & _).
  - by vm_compute.
  - done.
  - done.
  - by vm_compute.
  - split; [|by vm_compute]. by apply Hmerge.
Defined.

(** * Further properties of the engine *)

(** ** More on the execution order *)

Lemma add_edges_listed_sources (K : list string) edges
    (G : gmap string (list string)) (D : list (string * Z)) :
  (∀ s, is_Some (G !! s) ↔ s ∈ K) →
  add_edges edges G D = add_edges (filter (λ e, source e ∈ K) edges) G D.
Proof.
  revert G D. induction edges as [|e edges IH]; intros G D Hdom; [done|].
  rewrite filter_cons. destruct (decide (source e ∈ K)) as [Hs|Hs].
  - apply Hdom in Hs as [targets Hs]. simpl. rewrite Hs.
    destruct (od_get (target e) D) as [d|]; [|done].
    apply IH. intros s. rewrite lookup_insert_is_Some', <-Hdom.
    split; [intros [<-|?]; eauto|eauto].
  - simpl. destruct (G !! source e) as [targets|] eqn:Hlook; [|by apply IH].
    destruct Hs. apply Hdom. eauto.
Qed.

(** X1: an edge whose source is not in the node list has no effect on
    the ordering: dropping all such edges gives the same result. *)
Theorem build_execution_graph_unlisted_sources nodes edges :
  build_execution_graph nodes edges
  = build_execution_graph nodes
      (filter (λ e, source e ∈ node_id <$> nodes) edges).
Proof.
  unfold build_execution_graph.
  destruct (init_graph nodes) as [G0 D0] eqn:Hinit.
  apply init_graph_spec in Hinit as (HG0 & _ & _).
  rewrite (add_edges_listed_sources (node_id <$> nodes) edges); [done|].
  intros s. rewrite HG0. case_decide; [by eauto|].
  split; [by intros [? ?]|done].
Qed.

(** X2: the loop always ends, and the result is an order, the cycle
    error or a [KeyError]; it is a [KeyError] exactly when some edge
    leaves a listed node and enters an id that is not listed, and the
    key is then the target of such an edge. *)
Theorem build_execution_graph_outcomes nodes edges :
  ((∃ order, build_execution_graph nodes edges = Ok order)
   ∨ build_execution_graph nodes edges = Raise (ValueError cycle_message)
   ∨ ∃ k, build_execution_graph nodes edges = Raise (KeyError k))
  ∧ ((∃ e, e ∈ edges ∧ source e ∈ node_id <$> nodes
           ∧ (target e ∉ node_id <$> nodes))
     → ∃ k, build_execution_graph nodes edges = Raise (KeyError k))
  ∧ (∀ k, build_execution_graph nodes edges = Raise (KeyError k) →
       ∃ e, e ∈ edges ∧ source e ∈ node_id <$> nodes ∧ target e = k
            ∧ (k ∉ node_id <$> nodes)).
Proof.
  destruct (build_execution_graph_cases nodes edges)
    as [(e & He & Hs & Ht & Hres)|(Hclosed & O & _ & _ & _ & _ & _ & Hres & _)].
  - split_and!; [eauto|eauto|].
    intros k Hk. rewrite Hres in Hk. injection Hk as <-. by exists e.
  - split_and!.
    + rewrite Hres. case_decide; eauto.
    + intros (e & He & Hs & Ht). destruct Ht. by apply Hclosed.
    + intros k Hk. rewrite Hres in Hk. by case_decide.
Qed.

Lemma build_execution_graph_outcomes_witness :
  ∃ k, build_execution_graph [input_node "A"] [edge "A" "Z"] = Raise (KeyError k).
Proof.
  apply (proj1 (proj2 (build_execution_graph_outcomes
                         [input_node "A"] [edge "A" "Z"]))).
  exists (edge "A" "Z"). split_and!; by_compute.
Defined.

Lemma forward_edges_acyclic (order : list string) edges :
  NoDup order →
  (∀ e, e ∈ edges → before order (source e) (target e)) →
  acyclic edges.
Proof.
  intros Hnd Hfwd v Hcyc. apply (before_irrefl order v Hnd).
  assert (∀ a b, tc (edge_rel edges) a b → before order a b) as Htc;
    [|by apply Htc].
  induction 1 as [a b (e & He & <- & <-)|a b c (e & He & <- & <-) _ IH].
  - by apply Hfwd.
  - eapply before_trans; [done|by apply Hfwd|done].
Qed.

Lemma build_execution_graph_Ok_forward nodes edges order e :
  build_execution_graph nodes edges = Ok order →
  e ∈ edges → source e ∈ node_id <$> nodes →
  target e ∈ node_id <$> nodes ∧ before order (source e) (target e).
Proof.
  intros Hok He Hs.
  pose proof Hok as (Hnd & Hperm & Hsorted & _)%build_execution_graph_Ok.
  assert (target e ∈ node_id <$> nodes) as Ht.
  { destruct (build_execution_graph_cases nodes edges)
      as [(e' & _ & _ & _ & Hres)|(Hclosed & _)]; [congruence|by apply Hclosed]. }
  split; [done|].
  apply Hsorted; [done|by apply first_occurrences_keys|by rewrite Hperm].
Qed.

(** X3: an order is returned only for a sound graph: the node ids are
    then pairwise distinct, the order is a permutation of them, every
    edge that leaves a listed node goes forward in the order, and these
    edges form no cycle. *)
Theorem build_execution_graph_sound nodes edges order :
  build_execution_graph nodes edges = Ok order →
  NoDup (node_id <$> nodes)
  ∧ order ≡ₚ node_id <$> nodes
  ∧ (∀ e, e ∈ edges → source e ∈ node_id <$> nodes →
       target e ∈ node_id <$> nodes ∧ before order (source e) (target e))
  ∧ acyclic (filter (λ e, source e ∈ node_id <$> nodes) edges).
Proof.
  intros Hok.
  pose proof Hok as (Hnd & Hperm & _)%build_execution_graph_Ok.
  split_and!; [by rewrite <-Hperm|done| |].
  - intros e. by apply build_execution_graph_Ok_forward.
  - apply (forward_edges_acyclic order); [done|].
    intros e [Hs He]%list_elem_of_filter.
    by apply (build_execution_graph_Ok_forward nodes edges).
Qed.

Lemma build_execution_graph_sound_witness :
  NoDup (node_id <$> fan_nodes)
  ∧ ["A"; "C"; "B"] ≡ₚ node_id <$> fan_nodes
  ∧ (∀ e, e ∈ fan_edges → source e ∈ node_id <$> fan_nodes →
       target e ∈ node_id <$> fan_nodes
       ∧ before ["A"; "C"; "B"] (source e) (target e))
  ∧ acyclic (filter (λ e, source e ∈ node_id <$> fan_nodes) fan_edges).
Proof.
  apply (build_execution_graph_sound fan_nodes fan_edges). by vm_compute.
Defined.

(** ** The log only grows *)

Section grows.
Context {W : Type} `{!Runtime W}.

Lemma grows_ret {A} (a : A) : grows_logs (mret a : M W A).
Proof. by intros st. Qed.

Lemma grows_raise {A} e : grows_logs (raise e : M W A).
Proof. by intros st. Qed.

Lemma grows_log message lvl : grows_logs (log message lvl : M W ()).
Proof. intros st. by apply prefix_app_r. Qed.

Lemma grows_lift_result {A} (r : result A) : grows_logs (lift_result r : M W A).
Proof. by intros st. Qed.

Lemma grows_get config key default : grows_logs (get config key default : M W Value).
Proof. by intros st. Qed.

Lemma grows_lift_world {A} (f : W → result A * W) : grows_logs (lift_world f).
Proof. intros st. unfold lift_world. by destruct (f (world st)). Qed.

Lemma grows_bind {A B} (m : M W A) (f : A → M W B) :
  grows_logs m → (∀ a, grows_logs (f a)) → grows_logs (m ≫= f).
Proof.
  intros Hm Hf st. unfold mbind, M_bind. specialize (Hm st).
  destruct (m st) as [[a|e] st']; simpl in *; [|done].
  etrans; [done|apply Hf].
Qed.

Lemma grows_reraising {A} (m : M W A) handler :
  grows_logs m → (∀ e, grows_logs (handler e)) → grows_logs (reraising m handler).
Proof.
  intros Hm Hh st. unfold reraising. specialize (Hm st).
  destruct (m st) as [[a|e] st']; simpl in *; [done|].
  etrans; [done|apply Hh].
Qed.

Ltac grows :=
  repeat first
    [ apply grows_ret | apply grows_raise | apply grows_log | apply grows_get
    | apply grows_lift_result | apply grows_lift_world
    | apply grows_bind; [|intros ?]
    | apply grows_reraising; [|intros ?]
    | match goal with
      | |- grows_logs (if ?b then _ else _) => destruct b
      | |- grows_logs (match ?x with _ => _ end) => destruct x
      end ].


Lemma grows_after_log {A} message lvl (m : M W A) (st : State W) :
  grows_logs m →
  ∃ more, logs ((log message lvl ≫= λ _, m) st).2
          = logs st ++ mkLog lvl message :: more.
Proof.
  intros Hgrow. unfold mbind, M_bind, log.
  destruct (Hgrow (mkState (logs st ++ [mkLog lvl message])
                           (node_outputs st) (world st))) as [more Hmore].
  exists more. rewrite Hmore. simpl. by rewrite <-(assoc_L (++)).
Qed.

(** X4: executing a node leaves the stored outputs as they are and only
    appends to the log, starting with the entry that names the node. *)
Theorem execute_node_frame node input_data (st : State W) :
  node_outputs (execute_node node input_data st).2 = node_outputs st
  ∧ ∃ more, logs (execute_node node input_data st).2
            = logs st ++ executing_entry node :: more.
Proof.
  split; [apply keeps_execute_node|].
  apply grows_after_log.
  unfold execute_http_request, execute_transform,
    execute_file_operation, execute_database_operation, execute_condition,
    execute_delay, asyncio_sleep. grows.
Qed.

End grows.


(** ** More on the run *)

Section run_more.
Context {W : Type} `{!Runtime W}.
Implicit Types (st : State W) (lookup : gmap string Node).


Lemma execute_workflow_ok nodes edges input_data order final_id r (st st1 : State W) :
  build_execution_graph nodes edges = Ok order →
  last order = Some final_id →
  run_nodes (node_lookup_of nodes) edges (from_option id [] input_data) order
            (begin_run order st) = (Ok (), st1) →
  node_outputs st1 !! final_id = Some [("value", r)] →
  execute_workflow nodes edges input_data st
  = (RunSuccess r (node_outputs st1) order, end_success st1).
Proof.
  intros Hbuild Hlast Hrun Hout.
  unfold execute_workflow, run_workflow, lift_result.
  unfold mbind, M_bind. rewrite Hbuild. simpl.
  match goal with |- context [run_nodes _ _ _ _ ?s] =>
    change s with (begin_run order st) end.
  rewrite Hrun, Hlast. simpl. by rewrite Hout.
Qed.

Lemma execute_workflow_no_order nodes edges input_data e (st : State W) :
  build_execution_graph nodes edges = Raise e →
  execute_workflow nodes edges input_data st
  = (RunFailed (exc_str e) ∅,
     mkState [mkLog "INFO" "Starting workflow execution";
              mkLog "ERROR" ("Workflow execution failed: " +:+ exc_str e)]
             ∅ (world st)).
Proof.
  intros Hbuild. unfold execute_workflow, run_workflow, lift_result.
  unfold mbind, M_bind. by rewrite Hbuild.
Qed.

(** X6: when every node runs, the result is a success whose output is
    the value stored for the last node of the order; the stored outputs
    cover exactly the node ids, and the order is returned with them. *)
Theorem execute_workflow_succeeds nodes edges input_data order final_id
    (st st1 : State W) :
  build_execution_graph nodes edges = Ok order →
  last order = Some final_id →
  run_nodes (node_lookup_of nodes) edges (from_option id [] input_data) order
            (begin_run order st) = (Ok (), st1) →
  ∃ r, node_outputs st1 !! final_id = Some [("value", r)]
       ∧ execute_workflow nodes edges input_data st
         = (RunSuccess r (node_outputs st1) order, end_success st1)
       ∧ dom (node_outputs st1) = list_to_set (node_id <$> nodes).
Proof.
  intros Hbuild Hlast Hrun.
  pose proof Hbuild as (_ & Hperm & _)%build_execution_graph_Ok.
  destruct (run_nodes_outputs _ _ _ _ _ _ Hrun) as [Hdom Hrec].
  { intros m out. simpl. by rewrite lookup_empty. }
  simpl in Hdom. rewrite dom_empty_L, (left_id_L ∅ (∪)) in Hdom.
  assert (is_Some (node_outputs st1 !! final_id)) as [out Hout].
  { apply elem_of_dom. rewrite Hdom. apply elem_of_list_to_set.
    apply last_Some in Hlast as [l' ->]. set_solver. }
  destruct (Hrec _ _ Hout) as [r ->]. exists r. split_and!; [done| |].
  - by apply (execute_workflow_ok _ _ _ order final_id).
  - rewrite Hdom. apply set_eq. intros x.
    by rewrite !elem_of_list_to_set, Hperm.
Qed.

(** X7: a workflow with two nodes of the same id, with a cycle among
    the edges that leave listed nodes, or with such an edge into an
    unlisted id, is never started: the run is reported as failed with
    the text of the ordering error and no outputs, no node has run, the
    world is untouched and the log holds the start entry and the failure
    entry only. *)
Theorem execute_workflow_ordering_fails nodes edges input_data (st : State W) :
  ¬ NoDup (node_id <$> nodes)
  ∨ ¬ acyclic (filter (λ e, source e ∈ node_id <$> nodes) edges)
  ∨ (∃ e, e ∈ edges ∧ source e ∈ node_id <$> nodes
          ∧ (target e ∉ node_id <$> nodes)) →
  ∃ e, build_execution_graph nodes edges = Raise e
       ∧ execute_workflow nodes edges input_data st
         = (RunFailed (exc_str e) ∅,
            mkState [mkLog "INFO" "Starting workflow execution";
                     mkLog "ERROR" ("Workflow execution failed: " +:+ exc_str e)]
                    ∅ (world st)).
Proof.
  intros Hbad.
  destruct (build_execution_graph nodes edges) as [order|e] eqn:Hbuild.
  2: { exists e. split; [done|]. by apply execute_workflow_no_order. }
  exfalso.
  pose proof Hbuild as (Hnd & Hperm & _)%build_execution_graph_Ok.
  destruct Hbad as [Hdup|[Hcyc|(e & He & Hs & Ht)]].
  - apply Hdup. by rewrite <-Hperm.
  - apply Hcyc. apply (forward_edges_acyclic order); [done|].
    intros e [Hs He]%list_elem_of_filter.
    by apply (build_execution_graph_Ok_forward nodes edges).
  - apply Ht. by apply (build_execution_graph_Ok_forward nodes edges order e).
Qed.

End run_more.

Lemma execute_workflow_succeeds_witness :
  ∃ outputs st',
    execute_workflow linear_nodes chain_edges (Some [("value", VStr "hi")]) fresh
    = (RunSuccess (VStr "step") outputs ["1"; "2"; "3"], st')
    ∧ dom outputs = list_to_set (node_id <$> linear_nodes).
Proof.
  set (input := Some [("value", VStr "hi")] : option dict).
  set (order := ["1"; "2"; "3"]).
  set (st1 := (run_nodes (node_lookup_of linear_nodes) chain_edges
                 (from_option id [] input) order (begin_run order fresh)).2).
  destruct (execute_workflow_succeeds linear_nodes chain_edges input order "3"
              fresh st1) as (r & Hout & Hrun & Hdom).
  - by vm_compute.
  - done.
  - by vm_compute.
  - assert (node_outputs st1 !! "3" = Some [("value", VStr "step")]) as Hstep
      by (by vm_compute).
    rewrite Hstep in Hout. injection Hout as <-.
    exists (node_outputs st1), (end_success st1). split; [exact Hrun|exact Hdom].
Defined.

Lemma execute_workflow_ordering_fails_witness :
  ∃ e, build_execution_graph dup_nodes [] = Raise e
       ∧ execute_workflow dup_nodes [] None fresh
         = (RunFailed (exc_str e) ∅,
            mkState [mkLog "INFO" "Starting workflow execution";
                     mkLog "ERROR" ("Workflow execution failed: " +:+ exc_str e)]
                    ∅ (world fresh)).
Proof.
  apply (execute_workflow_ordering_fails dup_nodes [] None fresh).
  left. by_compute.
Defined.


(** ** Nodes that the dispatch does not know, or cannot run *)

Lemma is_str_ne v s : v ≠ VStr s → is_str v s = false.
Proof.
  intros Hne. destruct v as [| | | |s'| |]; try done. simpl.
  apply bool_decide_eq_false_2. congruence.
Qed.

Section dispatch.
Context {W : Type} `{!Runtime W}.

(** X9: a node whose type is none of input, plugin, action and output,
    and an action node whose action type is none of the seven known
    ones, do not fail the run: a WARNING is logged, the node returns
    [None], and nothing else changes. *)
Theorem execute_node_unknown_kinds :
  (∀ node input_data (st : State W),
     node_type node ∉ ["input"; "plugin"; "action"; "output"] →
     execute_node node input_data st
     = (Ok VNone,
        mkState (logs st ++ [executing_entry node;
                             mkLog "WARNING" ("Unknown node type: " +:+ node_type node)])
                (node_outputs st) (world st)))
  ∧ (∀ node input_data action_type (st : State W),
       node_type node = "action" →
       od_get "actionType" (node_config node) = Some action_type →
       (∀ known, known ∈ ["log"; "http_request"; "transform"; "file_operation";
                          "database"; "condition"; "delay"] →
                 action_type ≠ VStr known) →
       execute_node node input_data st
       = (Ok VNone,
          mkState (logs st ++ [executing_entry node;
                               mkLog "WARNING"
                                 ("Unknown action type: " +:+ py_str action_type)])
                  (node_outputs st) (world st))).
Proof.
  split.
  - intros node input_data st Hkind. unfold execute_node.
    rewrite !bool_decide_eq_false_2 by (intros Heq; apply Hkind; rewrite Heq; set_solver).
    unfold mbind, M_bind, reraising, log. simpl.
    by rewrite <-(assoc_L (++)).
  - intros node input_data action_type st Hkind Hact Hunknown. unfold execute_node.
    rewrite Hkind, Hact. simpl.
    rewrite !is_str_ne by (apply Hunknown; set_solver).
    unfold mbind, M_bind, reraising, log, executing_entry. simpl.
    by rewrite <-(assoc_L (++)), Hkind.
Qed.

(** X10: a plugin node without a plugin id raises a [ValueError] that
    names the node; the plugin manager is not called (the world is
    untouched) and the error is logged twice, once by the branch and
    once by the handler around the dispatch. *)
Theorem execute_node_plugin_without_id node input_data (st : State W) :
  node_type node = "plugin" →
  truthy (plugin_id node) = false →
  execute_node node input_data st
  = (Raise (ValueError ("Plugin ID not specified for node " +:+ node_id node)),
     mkState
       (logs st
          ++ [executing_entry node;
              mkLog "ERROR" ("Plugin ID not specified for node " +:+ node_id node);
              error_entry node
                (ValueError ("Plugin ID not specified for node " +:+ node_id node))])
       (node_outputs st) (world st)).
Proof.
  intros Hkind Hid. unfold execute_node. rewrite Hkind, Hid. simpl.
  unfold mbind, M_bind, reraising, log, raise, executing_entry, error_entry. simpl.
  by rewrite <-!(assoc_L (++)), Hkind.
Qed.
End dispatch.

Lemma execute_node_unknown_kinds_witness :
  execute_node trigger_node [] fresh
  = (Ok VNone,
     mkState [executing_entry trigger_node;
              mkLog "WARNING" "Unknown node type: trigger"] ∅ empty_world)
  ∧ execute_node email_node [] fresh
    = (Ok VNone,
       mkState [executing_entry email_node;
                mkLog "WARNING" "Unknown action type: email"] ∅ empty_world).
Proof.
  destruct (execute_node_unknown_kinds (W:=MemWorld)) as [Hnode Haction]. split.
  - apply (Hnode trigger_node [] fresh). by_compute.
  - apply (Haction email_node [] (VStr "email") fresh); [reflexivity..|].
    intros known Hknown [= <-]. revert Hknown. by_compute.
Defined.

Lemma execute_node_plugin_without_id_witness :
  execute_node anonymous_plugin_node [] fresh
  = (Raise (ValueError "Plugin ID not specified for node p"),
     mkState [executing_entry anonymous_plugin_node;
              mkLog "ERROR" "Plugin ID not specified for node p";
              error_entry anonymous_plugin_node
                (ValueError "Plugin ID not specified for node p")]
             ∅ empty_world).
Proof.
  apply (execute_node_plugin_without_id anonymous_plugin_node [] fresh);
    reflexivity.
Defined.

(** ** Guards of the action handlers *)

Section guards.
Context {W : Type} `{!Runtime W}.

(** X11: the file action checks its path before anything else: with an
    absent or empty [filePath] it raises a [ValueError] and the state is
    exactly as before (no file is opened, nothing is logged); with a
    path and an operation that is none of read, write, append and
    exists it raises a [ValueError] naming the operation, logs it, and
    does not touch the world. *)
Theorem execute_file_operation_guards (entries : dict) (st : State W) :
  let path := from_option id (VStr "") (od_get "filePath" entries) in
  let operation := from_option id (VStr "read") (od_get "operation" entries) in
  (truthy path = false →
     execute_file_operation (VDict entries) st
     = (Raise (ValueError "File path is required for file operations"), st))
  ∧ (truthy path = true →
     (∀ known, known ∈ ["read"; "write"; "append"; "exists"] →
               operation ≠ VStr known) →
     execute_file_operation (VDict entries) st
     = (Raise (ValueError ("Unknown file operation: " +:+ py_str operation)),
        mkState (logs st
                   ++ [mkLog "ERROR"
                         ("File operation failed: Unknown file operation: "
                            +:+ py_str operation)])
                (node_outputs st) (world st))).
Proof.
  intros path operation. split.
  - intros Hpath. unfold execute_file_operation, get, lift_result.
    unfold mbind, M_bind. simpl. fold path. rewrite Hpath. by destruct st.
  - intros Hpath Hunknown. unfold execute_file_operation, get, lift_result.
    unfold mbind, M_bind. simpl. fold path operation. rewrite Hpath. simpl.
    rewrite !is_str_ne by (apply Hunknown; set_solver).
    unfold reraising, raise, log. simpl. done.
Qed.

(** X12: the HTTP action sends nothing when it cannot: with an absent or
    empty [url] it raises a [ValueError] and leaves the state as it was;
    with a url and a method that in upper case is none of GET, POST, PUT
    and DELETE it logs the request line, raises a [ValueError] naming
    the method, and the world is untouched. *)
Theorem execute_http_request_guards (entries : dict) (method : string)
    (st : State W) :
  let url := from_option id (VStr "") (od_get "url" entries) in
  from_option id (VStr "GET") (od_get "method" entries) = VStr method →
  (truthy url = false →
     execute_http_request (VDict entries) st
     = (Raise (ValueError "URL is required for HTTP request"), st))
  ∧ (truthy url = true →
     str_upper method ∉ ["GET"; "POST"; "PUT"; "DELETE"] →
     execute_http_request (VDict entries) st
     = (Raise (ValueError ("Unsupported HTTP method: " +:+ str_upper method)),
        mkState (logs st
                   ++ [mkLog "INFO"
                         ("Making " +:+ str_upper method +:+ " request to "
                            +:+ py_str url)])
                (node_outputs st) (world st))).
Proof.
  intros url Hmethod. split.
  - intros Hurl. unfold execute_http_request, get, lift_result.
    unfold mbind, M_bind. simpl. rewrite Hmethod. simpl. fold url.
    rewrite Hurl. by destruct st.
  - intros Hurl Hunsupported. unfold execute_http_request, get, lift_result.
    unfold mbind, M_bind. simpl. rewrite Hmethod. simpl. fold url.
    rewrite Hurl. simpl.
    rewrite !bool_decide_eq_false_2
      by (intros Heq; apply Hunsupported; rewrite Heq; set_solver).
    done.
Qed.

(** X13: the database action opens nothing without a query: with an
    absent or empty [query] it raises a [ValueError] and the state is
    exactly as before.  With a query and an operation that is neither
    query nor execute, the database is opened all the same and closed
    again, and the [ValueError] that names the operation is logged and
    raised. *)
Theorem execute_database_operation_guards (entries : dict) (st : State W) :
  let query := from_option id (VStr "") (od_get "query" entries) in
  let operation := from_option id (VStr "query") (od_get "operation" entries) in
  let database_path :=
    from_option id (VStr "data/workflow_data.db") (od_get "databasePath" entries) in
  (truthy query = false →
     execute_database_operation (VDict entries) st
     = (Raise (ValueError "Query is required for database operations"), st))
  ∧ (∀ opened,
       truthy query = true →
       (∀ known, known ∈ ["query"; "execute"] → operation ≠ VStr known) →
       db_open database_path (world st) = (Ok (), opened) →
       execute_database_operation (VDict entries) st
       = (Raise (ValueError ("Unknown database operation: " +:+ py_str operation)),
          mkState (logs st
                     ++ [mkLog "ERROR"
                           ("Database operation failed: Unknown database operation: "
                              +:+ py_str operation)])
                  (node_outputs st) (db_close opened))).
Proof.
  intros query operation database_path. split.
  - intros Hquery. unfold execute_database_operation, get, lift_result.
    unfold mbind, M_bind. simpl. fold query. rewrite Hquery. by destruct st.
  - intros opened Hquery Hunknown Hopen.
    unfold execute_database_operation, get, lift_result.
    unfold mbind, M_bind. simpl. fold query operation database_path.
    rewrite Hquery. simpl.
    rewrite !is_str_ne by (apply Hunknown; set_solver).
    unfold reraising, lift_world, raise, log. simpl.
    rewrite Hopen. simpl. done.
Qed.
End guards.

Lemma execute_file_operation_guards_witness :
  execute_file_operation (VDict []) fresh
  = (Raise (ValueError "File path is required for file operations"), fresh)
  ∧ execute_file_operation (VDict delete_file_config) fresh
    = (Raise (ValueError "Unknown file operation: delete"),
       mkState [mkLog "ERROR" "File operation failed: Unknown file operation: delete"]
               ∅ empty_world).
Proof.
  split.
  - apply (proj1 (execute_file_operation_guards [] fresh)). reflexivity.
  - apply (proj2 (execute_file_operation_guards delete_file_config fresh));
      [reflexivity|].
    intros known Hknown [= <-]. revert Hknown. by_compute.
Defined.

Lemma execute_http_request_guards_witness :
  execute_http_request (VDict []) fresh
  = (Raise (ValueError "URL is required for HTTP request"), fresh)
  ∧ execute_http_request (VDict patch_request_config) fresh
    = (Raise (ValueError "Unsupported HTTP method: PATCH"),
       mkState [mkLog "INFO" "Making PATCH request to http://localhost/items"]
               ∅ empty_world).
Proof.
  split.
  - apply (proj1 (execute_http_request_guards [] "GET" fresh eq_refl)).
    reflexivity.
  - etrans.
    + apply (proj2 (execute_http_request_guards patch_request_config "patch" fresh
                      eq_refl)); [reflexivity|by_compute].
    + by vm_compute.
Defined.

Lemma execute_database_operation_guards_witness :
  execute_database_operation (VDict [("operation", VStr "execute")]) fresh
  = (Raise (ValueError "Query is required for database operations"), fresh)
  ∧ @execute_database_operation MemWorld lab_runtime (VDict drop_table_config) fresh
    = (Raise (ValueError "Unknown database operation: drop"),
       mkState [mkLog "ERROR"
                  "Database operation failed: Unknown database operation: drop"]
               ∅ empty_world).
Proof.
  split.
  - apply (proj1 (execute_database_operation_guards
                    [("operation", VStr "execute")] fresh)).
    reflexivity.
  - apply (proj2 (@execute_database_operation_guards MemWorld lab_runtime
                    drop_table_config fresh) empty_world); [reflexivity| |reflexivity].
    intros known Hknown [= <-]. revert Hknown. by_compute.
Defined.

(** ** Transform and condition *)

Lemma string_rev_app_twice (a b c : string) :
  String.rev_app (String.rev_app a b) c = String.rev_app b (a +:+ c).
Proof.
  revert b. induction a as [|x a IH]; intros b; [done|].
  simpl. by rewrite IH.
Qed.

Lemma string_rev_involutive (s : string) : String.rev (String.rev s) = s.
Proof.
  unfold String.rev. rewrite string_rev_app_twice. simpl.
  by rewrite string_app_nil_r.
Qed.

Section transform_condition.
Context {W : Type} `{!Runtime W}.

(** X14: the transform action reads [str] of the value under the input
    key (an absent key counts as the empty string).  A transform type
    that is not one of the four known ones returns the value itself,
    unchanged and not converted to a string; [length] returns the number
    of characters of the string form; and reversing the result of a
    reversal gives back the string form of the original value. *)
Theorem execute_transform_edges (entries input_data : dict) (key : string)
    (st : State W) :
  let transform_type :=
    from_option id (VStr "uppercase") (od_get "transformType" entries) in
  let value := from_option id (VStr "") (od_get key input_data) in
  from_option id (VStr "value") (od_get "inputKey" entries) = VStr key →
  ((∀ known, known ∈ ["uppercase"; "lowercase"; "reverse"; "length"] →
             transform_type ≠ VStr known) →
     (execute_transform input_data (VDict entries) st).1 = Ok value)
  ∧ (transform_type = VStr "length" →
     (execute_transform input_data (VDict entries) st).1
     = Ok (VInt (Z.of_nat (String.length (py_str value)))))
  ∧ (transform_type = VStr "reverse" →
     ∃ once,
       (execute_transform input_data (VDict entries) st).1 = Ok once
       ∧ ∀ (again : dict) (st' : State W),
           od_get key again = Some once →
           (execute_transform again (VDict entries) st').1
           = Ok (VStr (py_str value))).
Proof.
  intros transform_type value Hkey.
  assert (∀ (d : dict) (s : State W),
    (execute_transform d (VDict entries) s).1
    = Ok (let v := from_option id (VStr "") (od_get key d) in
          if is_str transform_type "uppercase" then VStr (str_upper (py_str v))
          else if is_str transform_type "lowercase" then VStr (str_lower (py_str v))
          else if is_str transform_type "reverse" then VStr (String.rev (py_str v))
          else if is_str transform_type "length"
               then VInt (Z.of_nat (String.length (py_str v)))
          else v)) as Hrun.
  { intros d s. unfold execute_transform, get, lift_result.
    unfold mbind, M_bind. simpl. rewrite Hkey. done. }
  split_and!.
  - intros Hunknown. rewrite Hrun. cbv zeta.
    by rewrite !is_str_ne by (apply Hunknown; set_solver).
  - intros Htype. rewrite Hrun, Htype. done.
  - intros Htype. eexists. split; [by rewrite Hrun, Htype|].
    intros again st' Hagain. rewrite Hrun, Htype, Hagain. simpl.
    by rewrite string_rev_involutive.
Qed.

(** X15: whatever the condition type, the condition action answers with
    one of its two branch values, or raises what [float] raised;
    [equals] (also the meaning of an absent condition type) and
    [not_equals] compare the string forms of the two values, so values
    of different types with the same string form are equal, and the two
    conditions give opposite branches. *)
Theorem execute_condition_equality (entries input_data : dict) (key : string)
    (st : State W) :
  let condition_type :=
    from_option id (VStr "equals") (od_get "conditionType" entries) in
  let expected_value := from_option id (VStr "") (od_get "expectedValue" entries) in
  let true_value := from_option id (VStr "true") (od_get "trueValue" entries) in
  let false_value := from_option id (VStr "false") (od_get "falseValue" entries) in
  let input_value := from_option id (VStr "") (od_get key input_data) in
  from_option id (VStr "value") (od_get "inputKey" entries) = VStr key →
  ((execute_condition input_data (VDict entries) st).1 = Ok true_value
   ∨ (execute_condition input_data (VDict entries) st).1 = Ok false_value
   ∨ ∃ e, (execute_condition input_data (VDict entries) st).1 = Raise e
          ∧ (py_float input_value = Raise e ∨ py_float expected_value = Raise e))
  ∧ (condition_type = VStr "equals" →
     (execute_condition input_data (VDict entries) st).1
     = Ok (if bool_decide (py_str input_value = py_str expected_value)
           then true_value else false_value))
  ∧ (condition_type = VStr "not_equals" →
     (execute_condition input_data (VDict entries) st).1
     = Ok (if bool_decide (py_str input_value = py_str expected_value)
           then false_value else true_value)).
Proof.
  intros condition_type expected_value true_value false_value input_value Hkey.
  split_and!.
  - unfold execute_condition, get, lift_result.
    unfold mbind, M_bind. simpl. fold condition_type. rewrite Hkey. simpl.
    fold input_value expected_value true_value false_value.
    destruct (is_str condition_type "equals");
      [by destruct (bool_decide _); simpl; eauto|].
    destruct (is_str condition_type "not_equals");
      [by destruct (bool_decide _); simpl; eauto|].
    destruct (is_str condition_type "contains");
      [by destruct (String.index _ _ _); simpl; eauto|].
    assert (∀ gt,
      match float_compare gt input_value expected_value with
      | Ok _ => True
      | Raise e => py_float input_value = Raise e ∨ py_float expected_value = Raise e
      end) as Hcmp.
    { intros gt. unfold float_compare.
      destruct (py_float input_value) as [x|[]]; try done; try by left.
      destruct (py_float expected_value) as [y|[]]; try done; by right. }
    destruct (is_str condition_type "greater_than").
    { specialize (Hcmp true).
      destruct (float_compare true input_value expected_value) as [[]|e];
        simpl; eauto. }
    destruct (is_str condition_type "less_than"); [|simpl; eauto].
    specialize (Hcmp false).
    destruct (float_compare false input_value expected_value) as [[]|e];
      simpl; eauto.
  - intros Htype. unfold execute_condition, get, lift_result.
    unfold mbind, M_bind. simpl. fold condition_type.
    rewrite Hkey, Htype. simpl. fold input_value expected_value.
    by destruct (bool_decide (py_str input_value = py_str expected_value)).
  - intros Htype. unfold execute_condition, get, lift_result.
    unfold mbind, M_bind. simpl. fold condition_type.
    rewrite Hkey, Htype. simpl. fold input_value expected_value.
    by destruct (bool_decide (py_str input_value = py_str expected_value)).
Qed.

(** X16: the condition action falls back to the false branch instead of
    failing: for a condition type it does not know, and for
    [greater_than] and [less_than] when [float] raises a [ValueError] or
    a [TypeError] on the input value. *)
Theorem execute_condition_false_branch (entries input_data : dict) (key : string)
    (st : State W) :
  let condition_type :=
    from_option id (VStr "equals") (od_get "conditionType" entries) in
  let false_value := from_option id (VStr "false") (od_get "falseValue" entries) in
  let input_value := from_option id (VStr "") (od_get key input_data) in
  from_option id (VStr "value") (od_get "inputKey" entries) = VStr key →
  ((∀ known, known ∈ ["equals"; "not_equals"; "contains"; "greater_than";
                      "less_than"] → condition_type ≠ VStr known) →
     (execute_condition input_data (VDict entries) st).1 = Ok false_value)
  ∧ (condition_type = VStr "greater_than" ∨ condition_type = VStr "less_than" →
     (∃ msg, py_float input_value = Raise (ValueError msg)
             ∨ py_float input_value = Raise (TypeError msg)) →
     (execute_condition input_data (VDict entries) st).1 = Ok false_value).
Proof.
  intros condition_type false_value input_value Hkey. split.
  - intros Hunknown. unfold execute_condition, get, lift_result.
    unfold mbind, M_bind. simpl. fold condition_type. rewrite Hkey. simpl.
    by rewrite !is_str_ne by (apply Hunknown; set_solver).
  - intros Htype (msg & Hfloat).
    unfold execute_condition, get, lift_result.
    unfold mbind, M_bind. simpl. fold condition_type. rewrite Hkey. simpl.
    fold input_value.
    destruct Htype as [-> | ->]; simpl; unfold float_compare;
      destruct Hfloat as [-> | ->]; done.
Qed.
End transform_condition.

Lemma execute_transform_edges_witness :
  (execute_transform [("value", VInt 7)] (VDict titlecase_config) fresh).1
  = Ok (VInt 7)
  ∧ (execute_transform [("value", VInt 1234)] (VDict [("transformType", VStr "length")])
       fresh).1 = Ok (VInt 4)
  ∧ ∃ once,
      (execute_transform [("value", VInt 12)] (VDict reverse_config) fresh).1 = Ok once
      ∧ (execute_transform [("value", once)] (VDict reverse_config) fresh).1
        = Ok (VStr "12").
Proof.
  split_and!.
  - apply (proj1 (execute_transform_edges titlecase_config [("value", VInt 7)]
                    "value" fresh eq_refl)).
    intros known Hknown [= <-]. revert Hknown. by_compute.
  - apply (proj1 (proj2 (execute_transform_edges [("transformType", VStr "length")]
                           [("value", VInt 1234)] "value" fresh eq_refl))).
    reflexivity.
  - destruct (proj2 (proj2 (execute_transform_edges reverse_config
                              [("value", VInt 12)] "value" fresh eq_refl)) eq_refl)
      as (once & Honce & Hagain).
    exists once. split; [exact Honce|].
    apply (Hagain [("value", once)] fresh). reflexivity.
Defined.

Lemma execute_condition_equality_witness :
  (execute_condition [("value", VInt 1)] (VDict equals_one_config) fresh).1
  = Ok (VStr "true")
  ∧ (execute_condition [("value", VInt 1)]
       (VDict (("conditionType", VStr "not_equals") :: equals_one_config)) fresh).1
    = Ok (VStr "false").
Proof.
  split.
  - apply (proj1 (proj2 (execute_condition_equality equals_one_config
                           [("value", VInt 1)] "value" fresh eq_refl))).
    reflexivity.
  - apply (proj2 (proj2 (execute_condition_equality
                           (("conditionType", VStr "not_equals") :: equals_one_config)
                           [("value", VInt 1)] "value" fresh eq_refl))).
    reflexivity.
Defined.

Lemma execute_condition_false_branch_witness :
  (execute_condition [("value", VStr "abc")] (VDict matches_config) fresh).1
  = Ok (VStr "false")
  ∧ (@execute_condition MemWorld lab_runtime []
       (VDict greater_than_three_config) fresh).1
    = Ok (VStr "false").
Proof.
  split.
  - apply (proj1 (execute_condition_false_branch matches_config
                    [("value", VStr "abc")] "value" fresh eq_refl)).
    intros known Hknown [= <-]. revert Hknown. by_compute.
  - apply (proj2 (@execute_condition_false_branch MemWorld lab_runtime
                    greater_than_three_config [] "value" fresh eq_refl)).
    + left. reflexivity.
    + exists "could not convert string to float: ''". left. reflexivity.
Defined.

(** ** Edges of the table format *)

Lemma mapM_raise {A B} (f : A → result B) (l1 : list A) (v : A) (more : list A) e :
  (∀ x, x ∈ l1 → ∃ y, f x = Ok y) →
  f v = Raise e →
  mapM f (l1 ++ v :: more) = Raise e.
Proof.
  intros Hok Hv. induction l1 as [|a l1 IH]; cbn.
  - by rewrite Hv.
  - destruct (Hok a) as [y Hy]; [left|]. rewrite Hy. cbn.
    rewrite IH; [done|]. intros x Hx. apply Hok. by right.
Qed.

(** X17: two edges of [format_as_table].  When the first item is an
    empty dict nothing is ever read from the rows: the table is an empty
    header, a rule of one dash and one empty line per item, whatever the
    other items are.  When the first item is a dict with at least one
    key and a later item is not a dict, the call raises an
    [AttributeError] that names the type of the first such item. *)
Theorem format_as_table_edges :
  (∀ rest,
     format_as_table (VList (VDict [] :: rest))
     = Ok (unlines ("" :: "-" :: replicate (S (length rest)) "")))
  ∧ (∀ (first : dict) (rows : list dict) (v : Value) (more : list Value),
       first ≠ [] →
       (∀ d, v ≠ VDict d) →
       format_as_table (VList (VDict first :: (VDict <$> rows) ++ v :: more))
       = Raise (AttributeError
                  ("'" +:+ type_name v +:+ "' object has no attribute 'get'"))).
Proof.
  split.
  - intros rest. unfold format_as_table.
    rewrite (mapM_total _ (λ _, [])) by done.
    change (Ok ?x ≫= ?f) with (f x). cbv beta. unfold mret, result_ret. f_equal.
    rewrite foldl_table_rows.
    assert (∀ l : list Value,
      map (String.concat " | ") (map (λ _, []) l) = replicate (length l) "") as ->.
    { induction l as [|x l IH]; [done|]. simpl. by rewrite IH. }
    change (unlines (?h :: ?d :: ?l)) with (h +:+ newline +:+ d +:+ newline +:+ unlines l).
    change (String.length (String.concat " | " ([] : list (string * Value)).*1 +:+ newline))
      with 1.
    by rewrite !string_app_assoc.
  - intros first rows v more Hfirst Hv. unfold format_as_table.
    destruct first as [|[h x] first]; [done|].
    rewrite app_comm_cons.
    rewrite (mapM_raise _ (VDict ((h, x) :: first) :: (VDict <$> rows)) v more
               (AttributeError
                  ("'" +:+ type_name v +:+ "' object has no attribute 'get'")));
      [done| |].
    + intros row Hrow.
      assert (∃ d, row = VDict d) as [d ->].
      { apply elem_of_cons in Hrow as [->|Hrow]; [eauto|].
        apply list_elem_of_fmap in Hrow. naive_solver. }
      eexists. by apply mapM_total.
    + cbn. destruct v; try done. by destruct (Hv entries).
Qed.

Lemma format_as_table_edges_witness :
  format_as_table (VList [VDict [("a", VInt 1)]; VDict [("a", VInt 2)]; VStr "x"])
  = Raise (AttributeError "'str' object has no attribute 'get'").
Proof.
  apply (proj2 format_as_table_edges [("a", VInt 1)] [[("a", VInt 2)]] (VStr "x") []);
    done.
Defined.

(** ** Workflows that stay inside the runner *)

Section world.
Context {W : Type} `{!Runtime W}.

Lemma world_ret {A} (a : A) : keeps_world (mret a : M W A).
Proof. by intros st. Qed.

Lemma world_raise {A} e : keeps_world (raise e : M W A).
Proof. by intros st. Qed.

Lemma world_log message lvl : keeps_world (log message lvl : M W ()).
Proof. by intros st. Qed.

Lemma world_lift_result {A} (r : result A) : keeps_world (lift_result r : M W A).
Proof. by intros st. Qed.

Lemma world_get config key default : keeps_world (get config key default : M W Value).
Proof. by intros st. Qed.

Lemma world_bind {A B} (m : M W A) (f : A → M W B) :
  keeps_world m → (∀ a, keeps_world (f a)) → keeps_world (m ≫= f).
Proof.
  intros Hm Hf st. unfold mbind, M_bind. specialize (Hm st).
  destruct (m st) as [[a|e] st']; simpl in *; [|done].
  by rewrite Hf.
Qed.

Lemma world_reraising {A} (m : M W A) handler :
  keeps_world m → (∀ e, keeps_world (handler e)) → keeps_world (reraising m handler).
Proof.
  intros Hm Hh st. unfold reraising. specialize (Hm st).
  destruct (m st) as [[a|e] st']; simpl in *; [done|].
  by rewrite Hh.
Qed.

Ltac world :=
  repeat first
    [ apply world_ret | apply world_raise | apply world_log | apply world_get
    | apply world_lift_result
    | apply world_bind; [|intros ?]
    | apply world_reraising; [|intros ?] ].

Lemma world_execute_node node input_data :
  reaches_world node = false →
  keeps_world (execute_node node input_data).
Proof.
  unfold reaches_world, execute_node. cbv zeta. intros Hinside.
  apply world_bind; [apply world_log|intros _].
  apply world_reraising; [|intros e; apply world_log].
  repeat match goal with
         | |- keeps_world (if ?b then _ else _) =>
             let E := fresh in
             destruct b eqn:E; rewrite ?E in Hinside; simpl in Hinside;
             try discriminate Hinside
         end;
    unfold execute_transform, execute_condition; world;
    repeat match goal with
           | |- keeps_world (if ?b then _ else _) => destruct b
           | |- keeps_world (match ?x with _ => _ end) => destruct x
           end; world.
Qed.

Lemma world_run_nodes nodes edges input_data order :
  Forall (λ node, reaches_world node = false) nodes →
  keeps_world (run_nodes (node_lookup_of nodes) edges input_data order).
Proof.
  intros Hinside.
  assert (∀ n node, node_lookup_of nodes !! n = Some node →
            reaches_world node = false) as Hlookup.
  { unfold node_lookup_of. induction nodes as [|x l IH] using rev_ind.
    - intros n node. simpl. by rewrite lookup_empty.
    - apply Forall_app in Hinside as [Hl [Hx _]%Forall_cons].
      intros n node. rewrite foldl_snoc, lookup_insert.
      case_decide; [by intros [= <-]|by apply IH]. }
  induction order as [|n order IH]; [apply world_ret|].
  intros st. rewrite run_nodes_cons.
  destruct (node_lookup_of nodes !! n) as [node|] eqn:Hnode; [|done].
  pose proof (world_execute_node node
                (resolve_inputs (node_outputs st) n edges input_data)
                (Hlookup _ _ Hnode) st) as Hnode_world.
  destruct (execute_node _ _ st) as [[result|e] st']; simpl in *; [|done].
  by rewrite IH.
Qed.

(** X18: a workflow without plugin nodes and without http_request,
    file_operation, database and delay actions never reaches outside
    the runner: whatever the edges, the input and the outcome of the
    run, the world after [execute_workflow] is the world before it. *)
Theorem execute_workflow_world_untouched nodes edges input_data (st : State W) :
  Forall (λ node, reaches_world node = false) nodes →
  world (execute_workflow nodes edges input_data st).2 = world st.
Proof.
  intros Hinside.
  assert (∀ input, keeps_world (run_workflow nodes edges input)) as Hrun.
  { intros input. unfold run_workflow.
    apply world_bind; [apply world_lift_result|intros order].
    apply world_bind; [apply world_log|intros _].
    apply world_bind; [by apply world_run_nodes|intros _].
    apply world_bind; [destruct (last order); world|intros final_id].
    apply world_bind; [by intros s|intros outputs]. world. }
  unfold execute_workflow. cbv zeta.
  match goal with |- context [run_workflow _ _ ?i ?s] =>
    specialize (Hrun i s); destruct (run_workflow nodes edges i s) as [[r|e] st']
  end; exact Hrun.
Qed.
End world.

Lemma execute_workflow_world_untouched_witness :
  world (execute_workflow linear_nodes chain_edges (Some [("value", VStr "hi")])
           fresh).2 = empty_world.
Proof.
  apply (execute_workflow_world_untouched linear_nodes chain_edges
           (Some [("value", VStr "hi")]) fresh).
  by_compute.
Defined.

(** ** The plugin manager *)

Lemma for_each_Ok {A} (body : A → result ()) (items : list A) :
  WorkflowPluginManager.for_each body items = Ok ()
  ↔ ∀ x, x ∈ items → body x = Ok ().
Proof.
  induction items as [|x items IH]; simpl.
  - split; [by intros _ x ?%elem_of_nil|done].
  - unfold mbind, result_bind. destruct (body x) as [[]|e] eqn:Hx.
    + rewrite IH. split.
      * intros Hrest y [->|Hy]%elem_of_cons; auto.
      * intros Hall y Hy. apply Hall. by right.
    + split; [done|]. intros Hall. rewrite Hall in Hx by left. done.
Qed.

Lemma for_each_first_raise {A} (body : A → result ()) pre x post e :
  (∀ y, y ∈ pre → body y = Ok ()) →
  body x = Raise e →
  WorkflowPluginManager.for_each body (pre ++ x :: post) = Raise e.
Proof.
  intros Hpre Hx. induction pre as [|y pre IH]; simpl.
  - by rewrite Hx.
  - rewrite Hpre by left. apply IH. intros z Hz. apply Hpre. by right.
Qed.

Lemma for_each_Raise {A} (body : A → result ()) (items : list A) e :
  WorkflowPluginManager.for_each body items = Raise e →
  ∃ x, x ∈ items ∧ body x = Raise e.
Proof.
  induction items as [|x items IH]; simpl; [done|].
  unfold mbind, result_bind. destruct (body x) as [[]|e'] eqn:Hx.
  - intros (y & Hy & Hraise)%IH. exists y. split; [by right|done].
  - intros [= <-]. exists x. split; [by left|done].
Qed.

Lemma _validate_field_type_ValueError value field_schema field_name e :
  WorkflowPluginManager._validate_field_type value field_schema field_name = Raise e →
  ∃ msg, e = ValueError msg.
Proof.
  unfold WorkflowPluginManager._validate_field_type.
  destruct (WorkflowPluginManager.field_type field_schema) as [[t|ts]|]; [| |done].
  - destruct (negb _); [|done]. intros [= <-]. eauto.
  - destruct (negb _); [|done]. intros [= <-]. eauto.
Qed.

(** X19: [_validate_input] returns exactly when every required field is
    a key of the input and every property that is a key of the input
    passes the check of its type; the required fields are checked first,
    in their order, so the first missing one is the one reported even
    when a field has the wrong type; and the only error it raises is a
    [ValueError]. *)
Theorem validate_input_accepts (input_data : dict)
    (schema : WorkflowPluginManager.Schema) :
  (WorkflowPluginManager._validate_input input_data schema = Ok ()
   ↔ (∀ field, field ∈ from_option id [] (WorkflowPluginManager.required schema) →
        is_Some (od_get field input_data))
     ∧ (∀ field field_schema value,
          (field, field_schema)
            ∈ from_option id [] (WorkflowPluginManager.properties schema) →
          od_get field input_data = Some value →
          WorkflowPluginManager._validate_field_type value field_schema field = Ok ()))
  ∧ (∀ pre field post,
       WorkflowPluginManager.required schema = Some (pre ++ field :: post) →
       (∀ earlier, earlier ∈ pre → is_Some (od_get earlier input_data)) →
       od_get field input_data = None →
       WorkflowPluginManager._validate_input input_data schema
       = Raise (ValueError ("Required field missing: " +:+ field)))
  ∧ (∀ e, WorkflowPluginManager._validate_input input_data schema = Raise e →
       ∃ msg, e = ValueError msg).
Proof.
  unfold WorkflowPluginManager._validate_input,
    WorkflowPluginManager.validate_properties.
  destruct schema as [required properties]. simpl. split_and!.
  - assert (∀ A (x : result A), (Ok () ≫= λ _, x) = x) as Hskip by done.
    destruct required as [fields|]; simpl.
    + destruct (WorkflowPluginManager.for_each _ fields) as [[]|e] eqn:Hreq.
      * rewrite Hskip. pose proof (proj1 (for_each_Ok _ _) Hreq) as Hreq'.
        clear Hreq. rename Hreq' into Hreq.
        assert (∀ field, field ∈ fields → is_Some (od_get field input_data)) as Hall.
        { intros field Hfield. specialize (Hreq field Hfield). simpl in Hreq.
          by destruct (od_get field input_data). }
        destruct properties as [props|]; simpl.
        -- rewrite for_each_Ok. split.
           ++ intros Hprops. split; [done|].
              intros field fs value Hin Hget. specialize (Hprops _ Hin).
              simpl in Hprops. by rewrite Hget in Hprops.
           ++ intros [_ Hprops] [field fs] Hin.
              destruct (od_get field input_data) as [value|] eqn:Hget; [|done].
              by apply Hprops.
        -- split; [|done]. intros _. split; [done|]. by intros ??? ?%elem_of_nil.
      * split; [done|]. intros [Hall _]. exfalso.
        apply for_each_Raise in Hreq as (field & Hfield & Hraise).
        destruct (Hall field Hfield) as [v Hv]. by rewrite Hv in Hraise.
    + rewrite ?Hskip. destruct properties as [props|]; simpl.
      * rewrite for_each_Ok. split.
        -- intros Hprops. split; [by intros ? ?%elem_of_nil|].
           intros field fs value Hin Hget. specialize (Hprops _ Hin).
           simpl in Hprops. by rewrite Hget in Hprops.
        -- intros [_ Hprops] [field fs] Hin.
           destruct (od_get field input_data) as [value|] eqn:Hget; [|done].
           by apply Hprops.
      * split; [|done]. intros _.
        split; [by intros ? ?%elem_of_nil|by intros ??? ?%elem_of_nil].
  - intros pre field post -> Hpre Hmissing.
    rewrite (for_each_first_raise _ pre field post
               (ValueError ("Required field missing: " +:+ field))); [done| |].
    + intros earlier [v Hv]%Hpre. by rewrite Hv.
    + by rewrite Hmissing.
  - intros e. destruct required as [fields|]; simpl.
    + destruct (WorkflowPluginManager.for_each _ fields) as [[]|e'] eqn:Hreq.
      * change (Ok () ≫= ?f) with (f ()). cbv beta.
        destruct properties as [props|]; [|done].
        intros ([field fs] & _ & Hraise)%for_each_Raise.
        destruct (od_get field input_data) as [value|]; [|done].
        by eapply _validate_field_type_ValueError.
      * intros [= <-]. apply for_each_Raise in Hreq as (field & _ & Hraise).
        destruct (od_get field input_data); [done|].
        injection Hraise as <-. eauto.
    + change (Ok () ≫= ?f) with (f ()). cbv beta.
      destruct properties as [props|]; [|done].
      intros ([field fs] & _ & Hraise)%for_each_Raise.
      destruct (od_get field input_data) as [value|]; [|done].
      by eapply _validate_field_type_ValueError.
Qed.

(** X20: the type names of a schema.  A name outside [type_map] (such as
    [null] or [any]) is accepted for every value, alone or as one name
    of a list, so a field typed [string] or [null] takes any value at
    all; a boolean passes as [integer] and as [number]; and [None]
    passes a single type name only when the name is unknown. *)
Theorem check_type_names :
  (∀ value expected_type,
     expected_type ∉ WorkflowPluginManager.type_map.*1 →
     WorkflowPluginManager._check_type value expected_type = true)
  ∧ (∀ value names field_name,
       (∃ name, name ∈ names ∧ name ∉ WorkflowPluginManager.type_map.*1) →
       WorkflowPluginManager._validate_field_type value
         (WorkflowPluginManager.mkField (Some (WorkflowPluginManager.AnyOf names)))
         field_name = Ok ())
  ∧ (∀ b expected_type,
       expected_type ∈ ["integer"; "number"; "boolean"] →
       WorkflowPluginManager._check_type (VBool b) expected_type = true)
  ∧ (∀ expected_type,
       WorkflowPluginManager._check_type VNone expected_type = true
       ↔ expected_type ∉ WorkflowPluginManager.type_map.*1).
Proof.
  assert (∀ value expected_type,
            expected_type ∉ WorkflowPluginManager.type_map.*1 →
            WorkflowPluginManager._check_type value expected_type = true) as Hunknown.
  { intros value t Ht%od_get_None.
    unfold WorkflowPluginManager._check_type. by rewrite Ht. }
  split_and!; [done| | |].
  - intros value names field_name (name & Hin & Hname).
    unfold WorkflowPluginManager._validate_field_type. simpl.
    assert (existsb (WorkflowPluginManager._check_type value) names = true) as ->;
      [|done].
    apply existsb_exists. exists name. split; [by apply list_elem_of_In|auto].
  - intros b t Ht.
    repeat (apply elem_of_cons in Ht as [->|Ht]; [done|]).
    by apply elem_of_nil in Ht.
  - intros t. split.
    + intros Hcheck Hin. simpl in Hin.
      repeat (apply elem_of_cons in Hin as [->|Hin]; [done|]).
      by apply elem_of_nil in Hin.
    + apply Hunknown.
Qed.

Lemma check_type_names_witness :
  WorkflowPluginManager._validate_field_type (VList [VInt 1])
    (WorkflowPluginManager.mkField
       (Some (WorkflowPluginManager.AnyOf ["string"; "null"]))) "message" = Ok ()
  ∧ WorkflowPluginManager._check_type (VBool true) "integer" = true.
Proof.
  destruct check_type_names as (_ & Hlist & Hbool & _). split.
  - apply (Hlist (VList [VInt 1]) ["string"; "null"] "message").
    exists "null". split; by_compute.
  - apply (Hbool true "integer"). by_compute.
Defined.

Lemma validate_input_accepts_witness :
  WorkflowPluginManager._validate_input
    [("delay_seconds", VInt (-5)); ("note", VStr "x")]
    WorkflowPluginManager.delay_input_schema = Ok ()
  ∧ WorkflowPluginManager._validate_input [("note", VStr "x")]
      WorkflowPluginManager.delay_input_schema
    = Raise (ValueError "Required field missing: delay_seconds").
Proof.
  split.
  - apply (proj1 (validate_input_accepts
                    [("delay_seconds", VInt (-5)); ("note", VStr "x")]
                    WorkflowPluginManager.delay_input_schema)).
    split.
    + intros field Hfield. simpl in Hfield.
      apply list_elem_of_singleton in Hfield as ->. by eexists.
    + intros field field_schema value Hin. simpl in Hin.
      apply list_elem_of_singleton in Hin as [= -> ->]. by intros [= <-].
  - apply (proj1 (proj2 (validate_input_accepts [("note", VStr "x")]
                           WorkflowPluginManager.delay_input_schema))
             [] "delay_seconds" []); [reflexivity| |reflexivity].
    by intros earlier ?%elem_of_nil.
Defined.

Section manager.
Context {W : Type}.
Implicit Types (self : WorkflowPluginManager.Manager W)
  (plugin : WorkflowPluginManager.Plugin W).

Lemma load_plugins_instances self found :
  WorkflowPluginManager.plugin_instances
    (WorkflowPluginManager.load_plugins self found)
  = WorkflowPluginManager.plugin_instances self.
Proof.
  unfold WorkflowPluginManager.load_plugins.
  revert self. induction found as [|plugin found IH]; intros self; [done|].
  simpl. by rewrite IH.
Qed.

(** X21: no method of the manager ever writes [plugin_instances], the
    dict in which [execute_plugin] looks a plugin up: after any sequence
    of registrations, removals, loads and configuration updates on a new
    manager it is still empty, so [execute_plugin] answers with the
    plugin-not-found failure for every id and leaves the world alone,
    also for a plugin that has just been registered and that
    [get_plugin] finds. *)
Theorem execute_plugin_never_finds (calls : list (WorkflowPluginManager.Call)) :
  let self := foldl WorkflowPluginManager.call WorkflowPluginManager.init calls in
  WorkflowPluginManager.plugin_instances self = ∅
  ∧ (∀ plugin_id input_data (w : W),
       WorkflowPluginManager.execute_plugin self plugin_id input_data w
       = (WorkflowPluginManager.failure ("Plugin not found: " +:+ plugin_id), w))
  ∧ (∀ plugin input_data (w : W),
       let self' := WorkflowPluginManager.register_plugin self plugin in
       WorkflowPluginManager.get_plugin self' (WorkflowPluginManager.plugin_id plugin)
       = Some plugin
       ∧ WorkflowPluginManager.execute_plugin self'
           (WorkflowPluginManager.plugin_id plugin) input_data w
         = (WorkflowPluginManager.failure
              ("Plugin not found: " +:+ WorkflowPluginManager.plugin_id plugin), w)).
Proof.
  intros self.
  assert (WorkflowPluginManager.plugin_instances self = ∅) as Hempty.
  { subst self. induction calls as [|c calls IH] using rev_ind; [done|].
    rewrite foldl_snoc. destruct c; simpl; [done|done| |done].
    by rewrite load_plugins_instances. }
  split_and!; [done| |].
  - intros plugin_id input_data w.
    unfold WorkflowPluginManager.execute_plugin,
      WorkflowPluginManager.get_plugin_instance.
    by rewrite Hempty, lookup_empty.
  - intros plugin input_data w self'. split.
    + unfold WorkflowPluginManager.get_plugin. simpl. by rewrite lookup_insert_eq.
    + unfold WorkflowPluginManager.execute_plugin,
        WorkflowPluginManager.get_plugin_instance.
      simpl. by rewrite Hempty, lookup_empty.
Qed.



(** X23: the delay plugin behind the manager.  Without [delay_seconds]
    in the configuration or the input the manager refuses, so the
    default of one second in [execute] is never used; a string, [None],
    a list or a dict is refused by the type check; a number below zero
    passes validation and is turned down by the plugin itself, without
    sleeping; any other number is handed to [time.sleep], the maximum
    of the schema notwithstanding: when that returns the answer is the
    success dict, and when it raises the answer is the failure dict of
    the plugin with the text of the error; both pass the output
    schema. *)
Theorem delay_plugin_through_manager (time_sleep : Value → W → result () * W)
    self (input_data : dict) (w : W) :
  WorkflowPluginManager.get_plugin_instance self "delay"
  = Some (WorkflowPluginManager.DelayPlugin time_sleep) →
  let merged_input :=
    od_update (WorkflowPluginManager.get_plugin_config self "delay") input_data in
  let answer := WorkflowPluginManager.execute_plugin self "delay" input_data w in
  (od_get "delay_seconds" merged_input = None →
     answer = (WorkflowPluginManager.failure "Required field missing: delay_seconds", w))
  ∧ (∀ value, od_get "delay_seconds" merged_input = Some value →
       type_name value ∈ ["NoneType"; "str"; "list"; "dict"] →
       answer = (WorkflowPluginManager.failure
                   "Field delay_seconds must be of type: number", w))
  ∧ (∀ value, od_get "delay_seconds" merged_input = Some value →
       WorkflowPluginManager.lt_zero value = Ok true →
       answer = ([("success", VBool false);
                  ("error", VStr "Delay seconds must be non-negative");
                  ("delay_seconds", value)], w))
  ∧ (∀ value w', od_get "delay_seconds" merged_input = Some value →
       WorkflowPluginManager.lt_zero value = Ok false →
       time_sleep value w = (Ok (), w') →
       answer = ([("success", VBool true); ("delay_seconds", value);
                  ("message", VStr ("Delayed for " +:+ py_str value +:+ " seconds"))],
                 w'))
  ∧ (∀ value e w', od_get "delay_seconds" merged_input = Some value →
       WorkflowPluginManager.lt_zero value = Ok false →
       time_sleep value w = (Raise e, w') →
       answer = ([("success", VBool false); ("error", VStr (exc_str e));
                  ("delay_seconds", value)], w')).
Proof.
  intros Hfound merged_input answer. subst answer.
  unfold WorkflowPluginManager.execute_plugin. rewrite Hfound.
  fold merged_input. simpl.
  unfold WorkflowPluginManager._validate_input,
    WorkflowPluginManager.validate_properties,
    WorkflowPluginManager._validate_output,
    WorkflowPluginManager.validate_properties,
    WorkflowPluginManager.delay_execute. simpl.
  split_and!.
  - by intros ->.
  - intros value -> Htype. simpl.
    destruct value; try done; simpl in Htype; exfalso; revert Htype; by_compute.
  - intros value -> Hneg.
    pose proof (f_equal (λ r, match r with Ok b => b | Raise _ => false end) Hneg)
      as Hlt.
    destruct value; try done; simpl in Hlt |- *; by rewrite ?Hlt.
  - intros value w' -> Hpos Hsleep.
    pose proof (f_equal (λ r, match r with Ok b => b | Raise _ => true end) Hpos)
      as Hlt.
    destruct value; try done; simpl in Hlt |- *; by rewrite ?Hlt, Hsleep.
  - intros value e w' -> Hpos Hsleep.
    pose proof (f_equal (λ r, match r with Ok b => b | Raise _ => true end) Hpos)
      as Hlt.
    destruct value; try done; simpl in Hlt |- *; by rewrite ?Hlt, Hsleep.
Qed.
End manager.


Lemma delay_plugin_through_manager_witness :
  WorkflowPluginManager.execute_plugin delay_manager "delay" [] empty_world
  = ([("success", VBool true); ("delay_seconds", VInt 2);
      ("message", VStr "Delayed for 2 seconds")], mkWorld ∅ 2 [])
  ∧ WorkflowPluginManager.execute_plugin delay_manager "delay"
      [("delay_seconds", VFloat "-0.5")] empty_world
    = ([("success", VBool false);
        ("error", VStr "Delay seconds must be non-negative");
        ("delay_seconds", VFloat "-0.5")], empty_world)
  ∧ WorkflowPluginManager.execute_plugin delay_manager "delay"
      [("delay_seconds", VInt (10 ^ 20))] empty_world
    = ([("success", VBool false);
        ("error", VStr "timestamp too large to convert to C _PyTime_t");
        ("delay_seconds", VInt (10 ^ 20))], empty_world).
Proof.
  split_and!.
  - etrans.
    + apply (proj1 (proj2 (proj2 (proj2 (delay_plugin_through_manager mem_sleep
                      delay_manager [] empty_world eq_refl))))
               (VInt 2) (mkWorld ∅ 2 [])); reflexivity.
    + reflexivity.
  - apply (proj1 (proj2 (proj2 (delay_plugin_through_manager mem_sleep delay_manager
                                  [("delay_seconds", VFloat "-0.5")] empty_world
                                  eq_refl))) (VFloat "-0.5")); reflexivity.
  - etrans.
    + apply (proj2 (proj2 (proj2 (proj2 (delay_plugin_through_manager mem_sleep
                      delay_manager [("delay_seconds", VInt (10 ^ 20))] empty_world
                      eq_refl))))
               (VInt (10 ^ 20))
               (OverflowError "timestamp too large to convert to C _PyTime_t")
               empty_world); [reflexivity|reflexivity|by vm_compute].
    + reflexivity.
Defined.
